(** * go-testbuilder: the combination counter, the registry of test case
      sets, the expansion into test sets and the [Tests] iterator.

    The development follows [testbuilder.go] and the index counter that
    accompanies it.  Go's [int] is a 64-bit two's complement integer: it is
    modelled as [Z] with the wrap-around of every arithmetic operation written
    out ([wrap_int]).  Slices are lists, indexed with stdpp's lookup and
    updated in place with stdpp's insert; an index outside the slice is a
    run-time panic in Go and is modelled as such.  Loops whose termination is
    not structural take a fuel argument. *)

From Stdlib Require Import ZArith String Ascii DecimalString Lia.
From stdpp Require Import base tactics option list strings.

Local Open Scope Z_scope.

(** ** Outcomes of Go code that may panic or loop *)

Inductive outcome (A : Type) : Type :=
| Done (a : A)
| Panic (msg : string)
| OutOfFuel.

Arguments Done {A} a.
Arguments Panic {A} msg.
Arguments OutOfFuel {A}.

#[global] Instance outcome_bind : MBind outcome := fun A B k m =>
  match m with
  | Done a => k a
  | Panic msg => Panic msg
  | OutOfFuel => OutOfFuel
  end.

#[global] Instance outcome_ret : MRet outcome := fun A a => Done a.

(** The message of Go's run-time panic for an index outside a slice. *)
Definition index_out_of_range : string := "runtime error: index out of range".

(** ** Go's [int] *)

Definition int_max : Z := 2 ^ 63 - 1.
Definition int_min : Z := - 2 ^ 63.

Definition wrap_int (z : Z) : Z := (z + 2 ^ 63) mod 2 ^ 64 - 2 ^ 63.

(** [strconv.Itoa]: the decimal rendering of an [int], with a leading minus
    sign for negative numbers and no padding. *)
Definition Itoa (z : Z) : string := NilZero.string_of_int (Z.to_int z).

(** ** The index counter *)

Record IndexCounter : Type := mkIndexCounter {
  currIndexes : list Z;
  alternativeCountList : list Z
}.

(** [make([]int, length)] followed by the loop that stores 0 at every index. *)
Definition NewCurrIndexes (alternativeCountList : list Z) : IndexCounter :=
  let length := List.length alternativeCountList in
  {| currIndexes :=
       foldl (fun cur i => <[i := 0]> cur) (replicate length 0) (seq 0 length);
     alternativeCountList := alternativeCountList |}.

(** The first loop of [AddOne]: [rest] is what remains of the range over
    [idx.currIndexes], [i] the position of its head, [cur] the slice that is
    updated.  The result is the slice, [increasedIndex] and [isDone]. *)
Fixpoint AddOne_scan (alts cur : list Z) (i : nat) (rest : list Z)
  : outcome (list Z * nat * bool) :=
  match rest with
  | [] => Done (cur, 0%nat, true)
  | currIndex :: rest' =>
      match alts !! i with
      | None => Panic index_out_of_range
      | Some a =>
          if currIndex <? wrap_int (a - 1)
          then Done (<[i := wrap_int (currIndex + 1)]> cur, i, false)
          else AddOne_scan alts cur (S i) rest'
      end
  end.

Definition AddOne (idx : IndexCounter) : outcome (IndexCounter * bool) :=
  '(cur, increasedIndex, isDone) ←
     AddOne_scan (alternativeCountList idx) (currIndexes idx) 0 (currIndexes idx);
  let cur' := foldl (fun c i => <[i := 0]> c) cur (seq 0 increasedIndex) in
  Done ({| currIndexes := cur'; alternativeCountList := alternativeCountList idx |},
        isDone).

(** [String]: every index written with [strconv.Itoa], nothing in between. *)
Definition IndexCounter_String (idx : IndexCounter) : string :=
  foldl (fun out currIndex => out +:+ Itoa currIndex) "" (currIndexes idx).

(** The loop that drives a counter: visit the current tuple, then [AddOne],
    until it reports done.  It is the loop of [GenerateTestSets] and of the
    counter's own test; the result is the tuples visited, in order, and the
    counter as the last [AddOne] left it. *)
Fixpoint run_counter (fuel : nat) (idx : IndexCounter)
  : outcome (list (list Z) * IndexCounter) :=
  match fuel with
  | O => OutOfFuel
  | S fuel' =>
      '(idx', isDone) ← AddOne idx;
      if (isDone : bool) then Done ([currIndexes idx], idx')
      else '(rest, final) ← run_counter fuel' idx';
           Done (currIndexes idx :: rest, final)
  end.

Definition labels (tuples : list (list Z)) : list string :=
  map (fun t => IndexCounter_String (mkIndexCounter t [])) tuples.

(** ** Arithmetic of the counter *)

(** The radices the counter is built for: at least one alternative per
    position, and a Go [int]. *)
Definition radices_ok (alts : list Z) : Prop :=
  Forall (fun r => 1 <= r <= int_max) alts.

(** A tuple in range: one index per radix, each below its radix. *)
Definition in_range (cur alts : list Z) : Prop :=
  Forall2 (fun c r => 0 <= c < r) cur alts.

Definition product (alts : list Z) : Z := foldr Z.mul 1 alts.

(** The rank of a tuple: position 0 is the least significant digit. *)
Fixpoint rank (cur alts : list Z) : Z :=
  match cur, alts with
  | c :: cur', r :: alts' => c + r * rank cur' alts'
  | _, _ => 0
  end.

(** The lowest position whose index is not yet at its radix minus one. *)
Fixpoint lowest_free (cur alts : list Z) : option nat :=
  match cur, alts with
  | c :: cur', r :: alts' =>
      if c <? r - 1 then Some 0%nat else S <$> lowest_free cur' alts'
  | _, _ => None
  end.

(** What [AddOne] makes of a tuple whose lowest free position is [p],
    holding [c]: zeros below [p], [c + 1] at [p], the rest as it was. *)
Definition bump (p : nat) (c : Z) (cur : list Z) : list Z :=
  (replicate p 0 ++ (c + 1) :: drop (S p) cur).

(** One step of the counter: [t'] is [t] with its lowest free position
    incremented and everything below it reset to zero. *)
Definition advances (alts t t' : list Z) : Prop :=
  exists (p : nat) (c r : Z),
    t !! p = Some c /\ alts !! p = Some r /\ c < r - 1 /\
    (forall (q : nat) cq rq,
        (q < p)%nat -> t !! q = Some cq -> alts !! q = Some rq -> cq = rq - 1) /\
    t' = (replicate p 0 ++ (c + 1) :: drop (S p) t).

(** The tuples visited from [cur] on: each advances to the next, and the
    last has no free position left. *)
Inductive counts_up (alts : list Z) : list Z -> list (list Z) -> Prop :=
| counts_up_last cur :
    lowest_free cur alts = None -> counts_up alts cur [cur]
| counts_up_step cur p c rest :
    lowest_free cur alts = Some p -> cur !! p = Some c ->
    counts_up alts (bump p c cur) rest ->
    counts_up alts cur (cur :: rest).

(** ** Zero values *)

(** Every Go type has a zero value: what [var x A] holds. *)
Class GoZero (A : Type) : Type := zero_value : A.

#[global] Instance string_zero : GoZero string := "".
#[global] Instance int_zero : GoZero Z := 0.
#[global] Instance unit_zero : GoZero unit := tt.

Section TestBuilder.

(** [SUT], [STATE] and [ASSERT] are the type parameters of the package;
    [T] stands for [*testing.T], which is only passed on. *)
Context {SUT STATE ASSERT T : Type}.
Context `{!GoZero SUT, !GoZero STATE, !GoZero ASSERT}.

(** *** Memory

    [build] declares two variables and hands their addresses to the setup
    functions, so the variables live in memory: one list of cells per type,
    an address is a position, and allocation adds a cell at the end. *)

Record Memory : Type := mkMemory {
  sutCells : list SUT;
  stateCells : list STATE
}.

(** [func(t *testing.T, sut *SUT, state *STATE)]: whatever the function does
    to the memory, given the context and the two addresses. *)
Definition Hook : Type := T -> nat -> nat -> Memory -> Memory.

Definition alloc_sut (m : Memory) : nat * Memory :=
  (length (sutCells m),
   {| sutCells := sutCells m ++ [zero_value]; stateCells := stateCells m |}).

Definition alloc_state (m : Memory) : nat * Memory :=
  (length (stateCells m),
   {| sutCells := sutCells m; stateCells := stateCells m ++ [zero_value] |}).

(** Reading a variable.  The address of a live Go variable is always
    valid; the default only makes the function total. *)
Definition read_sut (m : Memory) (p : nat) : SUT := default zero_value (sutCells m !! p).
Definition read_state (m : Memory) (p : nat) : STATE := default zero_value (stateCells m !! p).

Definition store (m : Memory) (ps pst : nat) (v : SUT * STATE) : Memory :=
  {| sutCells := <[ps := v.1]> (sutCells m);
     stateCells := <[pst := v.2]> (stateCells m) |}.

(** A setup function that reads and writes nothing but the two variables it
    is given. *)
Definition on_arguments (f : T -> SUT -> STATE -> SUT * STATE) : Hook :=
  fun t ps pst m => store m ps pst (f t (read_sut m ps) (read_state m pst)).

(** *** The data model *)

Record TestCase : Type := mkTestCase {
  TestName : string;
  StateBuilder : option Hook;
  SpecificBuilder : option Hook;
  Assertion : ASSERT
}.

Record TestCaseSet : Type := mkTestCaseSet {
  TestAlternatives : list TestCase
}.

Record TestsBuilder : Type := mkTestsBuilder {
  TestCaseSets : list TestCaseSet
}.

Record TestSet : Type := mkTestSet {
  TestCases : list TestCase;
  TestSetName : string
}.

Record TestData : Type := mkTestData {
  Sut : SUT;
  State : STATE;
  Assert : ASSERT
}.

(** *** Registration

    The builder owns its test cases: every [*TestCase] the API hands out
    points to one slot of one [TestAlternatives] slice, and slots are only
    ever appended.  A handle is therefore the position of the slot: the
    index of the set and the index of the alternative in it. *)

Definition handle : Type := nat * nat.

Definition deref (ts : TestsBuilder) (h : handle) : option TestCase :=
  set ← TestCaseSets ts !! h.1; TestAlternatives set !! h.2.

Definition update (ts : TestsBuilder) (h : handle) (f : TestCase -> TestCase)
  : TestsBuilder :=
  {| TestCaseSets :=
       alter (fun set => {| TestAlternatives := alter f h.2 (TestAlternatives set) |})
             h.1 (TestCaseSets ts) |}.

(** [&TestCase{TestName: name}] *)
Definition new_TestCase (name : string) : TestCase :=
  {| TestName := name; StateBuilder := None; SpecificBuilder := None;
     Assertion := zero_value |}.

Definition WithStateBuilder (h : handle) (f : option Hook) (ts : TestsBuilder)
  : handle * TestsBuilder :=
  (h, update ts h (fun tc =>
        {| TestName := TestName tc; StateBuilder := f;
           SpecificBuilder := SpecificBuilder tc; Assertion := Assertion tc |})).

Definition WithSpecificBuilder (h : handle) (f : option Hook) (ts : TestsBuilder)
  : handle * TestsBuilder :=
  (h, update ts h (fun tc =>
        {| TestName := TestName tc; StateBuilder := StateBuilder tc;
           SpecificBuilder := f; Assertion := Assertion tc |})).

Definition WithAssertion (h : handle) (f : ASSERT) (ts : TestsBuilder)
  : handle * TestsBuilder :=
  (h, update ts h (fun tc =>
        {| TestName := TestName tc; StateBuilder := StateBuilder tc;
           SpecificBuilder := SpecificBuilder tc; Assertion := f |})).

Definition Register (name : string) (ts : TestsBuilder) : handle * TestsBuilder :=
  let testcase := new_TestCase name in
  let newTestCaseSet := {| TestAlternatives := [testcase] |} in
  ((length (TestCaseSets ts), 0%nat),
   {| TestCaseSets := TestCaseSets ts ++ [newTestCaseSet] |}).

Definition RegisterAlternative_message (name : string) : string :=
  "Cannot create alternative '" +:+ name +:+ "', " +:+
  "since no test is registered yet. " +:+
  "Please Use builder.Register(name) first, before defining alternatives".

(** The result is what the call returns or panics with, and the builder as
    the call leaves it. *)
Definition RegisterAlternative (name : string) (ts : TestsBuilder)
  : outcome handle * TestsBuilder :=
  let testcase := new_TestCase name in
  if decide (length (TestCaseSets ts) = 0%nat)
  then (Panic (RegisterAlternative_message name), ts)
  else
    let latest := (length (TestCaseSets ts) - 1)%nat in
    match TestCaseSets ts !! latest with
    | None => (Panic index_out_of_range, ts)
    | Some latestTestCaseSet =>
        (Done (latest, length (TestAlternatives latestTestCaseSet)),
         {| TestCaseSets :=
              <[latest := {| TestAlternatives :=
                               TestAlternatives latestTestCaseSet ++ [testcase] |}]>
                (TestCaseSets ts) |})
    end.

(** *** GenerateTestSets *)

(** The first loop: the number of alternatives of every set, and whether
    any set has more than one. *)
Definition GenerateTestSets_counts (sets : list TestCaseSet) : list Z * bool :=
  foldl (fun '(alternativeCountList, moreThanOneAlternative) testCaseSet =>
           let numAlternatives := Z.of_nat (length (TestAlternatives testCaseSet)) in
           (alternativeCountList ++ [numAlternatives],
            if 1 <? numAlternatives then true else moreThanOneAlternative))
        ([], false) sets.

(** [s[i]] for a Go [int] index. *)
Definition go_index {A : Type} (s : list A) (i : Z) : option A :=
  if i <? 0 then None else s !! Z.to_nat i.

(** The inner loop: the test case that [indexes] selects in every set. *)
Fixpoint GenerateTestSets_pick (indexes : list Z) (setIdx : nat)
    (rest : list TestCaseSet) (testCases : list TestCase) : outcome (list TestCase) :=
  match rest with
  | [] => Done testCases
  | testcaseSet :: rest' =>
      match indexes !! setIdx with
      | None => Panic index_out_of_range
      | Some altIdx =>
          match go_index (TestAlternatives testcaseSet) altIdx with
          | None => Panic index_out_of_range
          | Some testCase =>
              GenerateTestSets_pick indexes (S setIdx) rest' (testCases ++ [testCase])
          end
      end
  end.

(** The outer loop, [for !isDone]. *)
Fixpoint GenerateTestSets_loop (fuel : nat) (sets : list TestCaseSet)
    (moreThanOneAlternative : bool) (indexCounter : IndexCounter)
    (testSets : list TestSet) : outcome (list TestSet) :=
  match fuel with
  | O => OutOfFuel
  | S fuel' =>
      let indexes := currIndexes indexCounter in
      testCases ← GenerateTestSets_pick indexes 0 sets [];
      let newTestSet :=
        {| TestCases := testCases;
           TestSetName := if moreThanOneAlternative
                          then IndexCounter_String indexCounter else "" |} in
      let testSets := testSets ++ [newTestSet] in
      '(indexCounter', isDone) ← AddOne indexCounter;
      if (isDone : bool) then Done testSets
      else GenerateTestSets_loop fuel' sets moreThanOneAlternative indexCounter' testSets
  end.

Definition GenerateTestSets (fuel : nat) (ts : TestsBuilder) : outcome (list TestSet) :=
  let '(alternativeCountList, moreThanOneAlternative) :=
    GenerateTestSets_counts (TestCaseSets ts) in
  GenerateTestSets_loop fuel (TestCaseSets ts) moreThanOneAlternative
    (NewCurrIndexes alternativeCountList) [].

(** *** The build function of [Tests] *)

(** The calls a build function makes, by the position in [testCases] of the
    test case whose setup is called. *)
Inductive call : Type :=
| StateBuilderCall (j : nat)
| SpecificBuilderCall (j : nat).

(** Memory, and the setup calls made so far. *)
Record Machine : Type := mkMachine {
  mem : Memory;
  calls : list call
}.

(** [if f != nil { f(t, &sut, &state) }] *)
Definition invoke (f : option Hook) (c : call) (t : T) (ps pst : nat) (s : Machine)
  : Machine :=
  match f with
  | None => s
  | Some f => {| mem := f t ps pst (mem s); calls := calls s ++ [c] |}
  end.

(** The loop of the build function, for the captured [i]: [rest] is what
    remains of the range over [testCases] and [j] the position of its head;
    [ps] and [pst] are [&sut] and [&state]. *)
Fixpoint build_loop (i : nat) (t : T) (ps pst : nat) (j : nat) (rest : list TestCase)
    (s : Machine) : Machine :=
  match rest with
  | [] => s
  | testcase :: rest' =>
      let s := invoke (StateBuilder testcase) (StateBuilderCall j) t ps pst s in
      if (j <? i)%nat then build_loop i t ps pst (S j) rest' s
      else invoke (SpecificBuilder testcase) (SpecificBuilderCall j) t ps pst s
  end.

(** The closure [build] with the pointers it captures followed: the test
    cases are what [testCases] and [curcase] point to in the builder as it is
    when the iterator runs.  The closure itself holds the pointers and reads
    the test cases at every call; it is [Closure.BuildFunc] below, and a call
    of it in a builder is [build] on the test cases that builder holds.  A
    setup function is a total function on the memory, so one that panics is
    outside this model. *)
Record BuildFunc : Type := mkBuildFunc {
  captured_testCases : list TestCase;
  captured_i : nat;
  captured_curcase : TestCase
}.

Definition build (b : BuildFunc) (t : T) (s : Machine) : TestData * Machine :=
  let '(ps, m) := alloc_sut (mem s) in
  let '(pst, m) := alloc_state m in
  let s' := build_loop (captured_i b) t ps pst 0 (captured_testCases b)
              {| mem := m; calls := calls s |} in
  ({| Sut := read_sut (mem s') ps;
      State := read_state (mem s') pst;
      Assert := Assertion (captured_curcase b) |}, s').

(** *** Tests *)

(** [fmt.Sprintf("Test Alternative #%s_%s", testSetName, testName)] *)
Definition alternative_name (testSetName testName : string) : string :=
  "Test Alternative #" +:+ testSetName +:+ "_" +:+ testName.

(** The inner loop of the iterator over the test cases of [tset], from
    position [i] on.  [yield] receives the consumer's state and answers
    whether the consumer goes on; the result is whether the iteration goes
    on, and the consumer's state. *)
Fixpoint Tests_cases {C : Type} (tset : TestSet) (i : nat) (rest : list TestCase)
    (yield : string -> BuildFunc -> C -> bool * C) (c : C) : bool * C :=
  match rest with
  | [] => (true, c)
  | curcase :: rest' =>
      let build := {| captured_testCases := TestCases tset;
                      captured_i := i;
                      captured_curcase := curcase |} in
      let testName :=
        if String.eqb (TestSetName tset) "" then TestName curcase
        else alternative_name (TestSetName tset) (TestName curcase) in
      let '(continue, c) := yield testName build c in
      if (continue : bool) then Tests_cases tset (S i) rest' yield c
      else (false, c)
  end.

Fixpoint Tests_sets {C : Type} (testSets : list TestSet)
    (yield : string -> BuildFunc -> C -> bool * C) (c : C) : bool * C :=
  match testSets with
  | [] => (true, c)
  | tset :: testSets' =>
      let '(continue, c) := Tests_cases tset 0 (TestCases tset) yield c in
      if (continue : bool) then Tests_sets testSets' yield c
      else (false, c)
  end.

(** The iterator [Tests] returns, run against a consumer. *)
Definition Tests {C : Type} (fuel : nat) (ts : TestsBuilder)
    (yield : string -> BuildFunc -> C -> bool * C) (c : C) : outcome C :=
  testSets ← GenerateTestSets fuel ts;
  Done (Tests_sets testSets yield c).2.

(** The consumer that ranges over the whole iterator and keeps every pair. *)
Definition collect (testName : string) (build : BuildFunc)
    (seen : list (string * BuildFunc)) : bool * list (string * BuildFunc) :=
  (true, seen ++ [(testName, build)]).

(** *** Notions the properties are stated with *)

(** The builders the registration API makes, starting from the zero value
    [TestsBuilder{}]. *)
Inductive built : TestsBuilder -> Prop :=
| built_zero : built {| TestCaseSets := [] |}
| built_Register name ts : built ts -> built (Register name ts).2
| built_RegisterAlternative name ts : built ts -> built (RegisterAlternative name ts).2
| built_WithStateBuilder h f ts : built ts -> built (WithStateBuilder h f ts).2
| built_WithSpecificBuilder h f ts : built ts -> built (WithSpecificBuilder h f ts).2
| built_WithAssertion h f ts : built ts -> built (WithAssertion h f ts).2.

(** The registries the API builds: every set has an alternative, and the
    number of alternatives is a Go [int]. *)
Definition registry_ok (ts : TestsBuilder) : Prop :=
  Forall (fun set => 1 <= Z.of_nat (length (TestAlternatives set)) <= int_max)
         (TestCaseSets ts).

Definition alternative_counts (ts : TestsBuilder) : list Z :=
  (fun set => Z.of_nat (length (TestAlternatives set))) <$> TestCaseSets ts.

(** The path a tuple selects: its test case at every position is the
    alternative of that position's set at the tuple's index. *)
Definition selects (ts : TestsBuilder) (indexes : list Z) (path : list TestCase) : Prop :=
  Forall3 (fun set altIdx testCase =>
             0 <= altIdx /\ TestAlternatives set !! Z.to_nat altIdx = Some testCase)
          (TestCaseSets ts) indexes path.

(** Some set has more than one alternative. *)
Definition more_than_one (ts : TestsBuilder) : bool :=
  bool_decide (Exists (fun set => (1 < length (TestAlternatives set))%nat)
                      (TestCaseSets ts)).

Definition label_of (indexes : list Z) : string :=
  IndexCounter_String (mkIndexCounter indexes []).

(** The path of a tuple, as [GenerateTestSets] computes it. *)
Definition path_of (ts : TestsBuilder) (indexes : list Z) : list TestCase :=
  match GenerateTestSets_pick indexes 0 (TestCaseSets ts) [] with
  | Done path => path
  | _ => []
  end.

(** The test set of a tuple: its path, and its label when some set has
    more than one alternative. *)
Definition test_set_of (ts : TestsBuilder) (moreThanOneAlternative : bool)
    (indexes : list Z) : TestSet :=
  {| TestCases := path_of ts indexes;
     TestSetName := if moreThanOneAlternative then label_of indexes else "" |}.

(** The name [Tests] emits for a test case of a test set. *)
Definition emitted_name (tset : TestSet) (curcase : TestCase) : string :=
  if String.eqb (TestSetName tset) "" then TestName curcase
  else alternative_name (TestSetName tset) (TestName curcase).

(** The pairs [Tests] emits for one test set: one per position, in order. *)
Definition pairs_of (tset : TestSet) : list (string * BuildFunc) :=
  imap (fun i curcase =>
          (emitted_name tset curcase,
           {| captured_testCases := TestCases tset;
              captured_i := i;
              captured_curcase := curcase |}))
       (TestCases tset).

(** What the setup calls of the build function for position [i] of [path]
    do according to its contract: the cumulative setups of positions 0 to
    [i] in order, then the one-shot setup of position [i]; an absent setup
    does nothing. *)
Definition apply_setup (f : option Hook) (t : T) (ps pst : nat) (m : Memory) : Memory :=
  match f with
  | Some f => f t ps pst m
  | None => m
  end.

Definition replay (path : list TestCase) (i : nat) (t : T) (ps pst : nat) (m : Memory)
  : Memory :=
  let m := foldl (fun m testcase => apply_setup (StateBuilder testcase) t ps pst m)
                 m (take (S i) path) in
  match path !! i with
  | Some testcase => apply_setup (SpecificBuilder testcase) t ps pst m
  | None => m
  end.

Definition has_StateBuilder (path : list TestCase) (j : nat) : bool :=
  match path !! j with
  | Some testcase => bool_decide (is_Some (StateBuilder testcase))
  | None => false
  end.

Definition replay_calls (path : list TestCase) (i : nat) : list call :=
  (StateBuilderCall <$> filter (fun j => has_StateBuilder path j = true) (seq 0 (S i)))
  ++ match path !! i with
     | Some testcase =>
         match SpecificBuilder testcase with
         | Some _ => [SpecificBuilderCall i]
         | None => []
         end
     | None => []
     end.

(** The calls the build function for position [i] may make. *)
Definition allowed_call (i : nat) (c : call) : Prop :=
  match c with
  | StateBuilderCall j => (j <= i)%nat
  | SpecificBuilderCall j => j = i
  end.

Definition is_SpecificBuilderCall (c : call) : bool :=
  match c with
  | StateBuilderCall _ => false
  | SpecificBuilderCall _ => true
  end.



End TestBuilder.

Arguments Memory : clear implicits.
Arguments Hook : clear implicits.
Arguments TestCase : clear implicits.
Arguments TestCaseSet : clear implicits.
Arguments TestsBuilder : clear implicits.
Arguments TestSet : clear implicits.
Arguments TestData : clear implicits.
Arguments Machine : clear implicits.
Arguments BuildFunc : clear implicits.

(** ** Scenarios of the package's tests *)

Module Scenario.

(** [TestsBuilder[string, int, func(t *testing.T)]], with nothing to say
    about the assertion and the testing context. *)
Definition Builder : Type := TestsBuilder string Z unit unit.

Definition empty_builder : Builder := {| TestCaseSets := [] |}.

Definition empty_machine : Machine string Z :=
  {| mem := {| sutCells := []; stateCells := [] |}; calls := [] |}.

(** [*sut += x] *)
Definition append_sut (x : string) : Hook string Z unit :=
  on_arguments (fun _ sut state => (sut +:+ x, state)).

(** [*sut = x] *)
Definition set_sut (x : string) : Hook string Z unit :=
  on_arguments (fun _ _ state => (x, state)).

(** Four sets of one test case each, whose cumulative setups append a, b,
    c and d. *)
Definition abcd : Builder :=
  let ts := empty_builder in
  let '(h, ts) := Register "1" ts in
  let '(_, ts) := WithStateBuilder h (Some (append_sut "a")) ts in
  let '(h, ts) := Register "2" ts in
  let '(_, ts) := WithStateBuilder h (Some (append_sut "b")) ts in
  let '(h, ts) := Register "3" ts in
  let '(_, ts) := WithStateBuilder h (Some (append_sut "c")) ts in
  let '(h, ts) := Register "4" ts in
  let '(_, ts) := WithStateBuilder h (Some (append_sut "d")) ts in
  ts.

(** The test cases of [abcd], and the only test set they make. *)
Definition abcd_case (name x : string) : TestCase string Z unit unit :=
  {| TestName := name; StateBuilder := Some (append_sut x);
     SpecificBuilder := None; Assertion := tt |}.

Definition abcd_test_set : TestSet string Z unit unit :=
  {| TestCases := [abcd_case "1" "a"; abcd_case "2" "b";
                   abcd_case "3" "c"; abcd_case "4" "d"];
     TestSetName := "" |}.

(** The same, the third carrying a one-shot setup that overwrites the
    value. *)
Definition abcd_sentinel : Builder :=
  let ts := empty_builder in
  let '(h, ts) := Register "1" ts in
  let '(_, ts) := WithStateBuilder h (Some (append_sut "a")) ts in
  let '(h, ts) := Register "2" ts in
  let '(_, ts) := WithStateBuilder h (Some (append_sut "b")) ts in
  let '(h, ts) := Register "3" ts in
  let '(h, ts) := WithStateBuilder h (Some (append_sut "c")) ts in
  let '(_, ts) := WithSpecificBuilder h (Some (set_sut "-")) ts in
  let '(h, ts) := Register "4" ts in
  let '(_, ts) := WithStateBuilder h (Some (append_sut "d")) ts in
  ts.

(** Sets of two, one and two alternatives. *)
Definition two_one_two : Builder :=
  let ts := empty_builder in
  let '(_, ts) := Register "a0" ts in
  let '(_, ts) := RegisterAlternative "a1" ts in
  let '(_, ts) := Register "b0" ts in
  let '(_, ts) := Register "c0" ts in
  let '(_, ts) := RegisterAlternative "c1" ts in
  ts.

(** Two sets of one test case each, registered under the same name. *)
Definition same_name : Builder :=
  let ts := empty_builder in
  let '(_, ts) := Register "TEST_NAME" ts in
  let '(_, ts) := Register "TEST_NAME" ts in
  ts.

(** [abcd] after [WithStateBuilder] has been called once more on a test
    case it handed out: on the first, with a setup that overwrites the
    value, and on the last. *)
Definition abcd_restarted : Builder :=
  (WithStateBuilder (0%nat, 0%nat) (Some (set_sut "z")) abcd).2.


(** Ranging over the iterator and calling every build function in turn,
    as the tests do: the values of the system under test that come out. *)
Fixpoint run_all (emitted : list (string * BuildFunc string Z unit unit))
    (s : Machine string Z) : list string :=
  match emitted with
  | [] => []
  | (_, b) :: emitted' =>
      let '(data, s) := build b tt s in Sut data :: run_all emitted' s
  end.

Definition suts (fuel : nat) (ts : Builder) : outcome (list string) :=
  emitted ← Tests fuel ts collect [];
  Done (run_all emitted empty_machine).

Definition names (fuel : nat) (ts : Builder) : outcome (list string) :=
  emitted ← Tests fuel ts collect [];
  Done (emitted.*1).

End Scenario.

(** ** Consumers of the iterator *)

Section Consumers.

Context {SUT STATE ASSERT T : Type}.

(** What a [for ... range] loop does with a sequence of pairs: its body,
    [yield], sees the pairs in order until it answers that the loop is
    left. *)
Fixpoint feed {C : Type} (pairs : list (string * BuildFunc SUT STATE ASSERT T))
    (yield : string -> BuildFunc SUT STATE ASSERT T -> C -> bool * C) (c : C) : bool * C :=
  match pairs with
  | [] => (true, c)
  | (testName, build) :: pairs' =>
      let '(continue, c) := yield testName build c in
      if (continue : bool) then feed pairs' yield c else (false, c)
  end.

(** The consumer that keeps the pairs it sees and leaves the loop in the
    body of its [n]-th iteration. *)
Definition collect_upto (n : nat) (testName : string) (build : BuildFunc SUT STATE ASSERT T)
    (seen : list (string * BuildFunc SUT STATE ASSERT T))
  : bool * list (string * BuildFunc SUT STATE ASSERT T) :=
  (bool_decide (length seen + 1 < n)%nat, seen ++ [(testName, build)]).

(** A registry whose sets are the given test cases, one alternative each. *)
Definition one_alternative_each (testCases : list (TestCase SUT STATE ASSERT T))
  : TestsBuilder SUT STATE ASSERT T :=
  {| TestCaseSets := (fun testcase => {| TestAlternatives := [testcase] |}) <$> testCases |}.

End Consumers.

(** ** The build function as the closure it is

    [Tests] hands out closures, and a closure holds no test case: it holds
    the slice [testCases] of the pointers of its test set, the position [i]
    and the pointer [curcase], and it follows the pointers when it is called.
    What a call does therefore depends on the builder as it is at the call.
    Here test sets and build functions hold handles, [build] takes the
    builder it is called in, and [Tests] reads the names through the
    handles. *)

Module Closure.

Section Closure.

Context {SUT STATE ASSERT T : Type}.
Context `{!GoZero SUT, !GoZero STATE, !GoZero ASSERT}.

Record TestSet : Type := mkTestSet {
  TestCases : list handle;
  TestSetName : string
}.

(** A Go pointer to a test case always points to it.  A handle may point to
    nothing in a builder it was not taken from; following it then panics. *)
Definition invalid_pointer : string :=
  "runtime error: invalid memory address or nil pointer dereference".

Definition load (ts : TestsBuilder SUT STATE ASSERT T) (p : handle)
  : outcome (TestCase SUT STATE ASSERT T) :=
  match deref ts p with
  | Some testcase => Done testcase
  | None => Panic invalid_pointer
  end.

(** The inner loop of [GenerateTestSets]: [testCase] is the pointer held at
    [altIdx] in the alternatives of the set at [setIdx]. *)
Fixpoint GenerateTestSets_pick (indexes : list Z) (setIdx : nat)
    (rest : list (TestCaseSet SUT STATE ASSERT T)) (testCases : list handle)
  : outcome (list handle) :=
  match rest with
  | [] => Done testCases
  | testcaseSet :: rest' =>
      match indexes !! setIdx with
      | None => Panic index_out_of_range
      | Some altIdx =>
          match go_index (TestAlternatives testcaseSet) altIdx with
          | None => Panic index_out_of_range
          | Some _ =>
              let testCase : handle := (setIdx, Z.to_nat altIdx) in
              GenerateTestSets_pick indexes (S setIdx) rest' (testCases ++ [testCase])
          end
      end
  end.

Fixpoint GenerateTestSets_loop (fuel : nat) (sets : list (TestCaseSet SUT STATE ASSERT T))
    (moreThanOneAlternative : bool) (indexCounter : IndexCounter)
    (testSets : list TestSet) : outcome (list TestSet) :=
  match fuel with
  | O => OutOfFuel
  | S fuel' =>
      let indexes := currIndexes indexCounter in
      testCases ← GenerateTestSets_pick indexes 0 sets [];
      let newTestSet :=
        {| TestCases := testCases;
           TestSetName := if moreThanOneAlternative
                          then IndexCounter_String indexCounter else "" |} in
      let testSets := testSets ++ [newTestSet] in
      '(indexCounter', isDone) ← AddOne indexCounter;
      if (isDone : bool) then Done testSets
      else GenerateTestSets_loop fuel' sets moreThanOneAlternative indexCounter' testSets
  end.

Definition GenerateTestSets (fuel : nat) (ts : TestsBuilder SUT STATE ASSERT T)
  : outcome (list TestSet) :=
  let '(alternativeCountList, moreThanOneAlternative) :=
    GenerateTestSets_counts (TestCaseSets ts) in
  GenerateTestSets_loop fuel (TestCaseSets ts) moreThanOneAlternative
    (NewCurrIndexes alternativeCountList) [].

(** The variables the closure [build] captures. *)
Record BuildFunc : Type := mkBuildFunc {
  captured_testCases : list handle;
  captured_i : nat;
  captured_curcase : handle
}.

(** The loop of the build function, called in the builder [ts]: every
    [testcase] of the range is a pointer, followed where its fields are
    read. *)
Fixpoint build_loop (ts : TestsBuilder SUT STATE ASSERT T) (i : nat) (t : T)
    (ps pst : nat) (j : nat) (rest : list handle) (s : Machine SUT STATE)
  : outcome (Machine SUT STATE) :=
  match rest with
  | [] => Done s
  | p :: rest' =>
      testcase ← load ts p;
      let s := invoke (StateBuilder testcase) (StateBuilderCall j) t ps pst s in
      if (j <? i)%nat then build_loop ts i t ps pst (S j) rest' s
      else Done (invoke (SpecificBuilder testcase) (SpecificBuilderCall j) t ps pst s)
  end.

(** A call of the build function [b] in the builder [ts]. *)
Definition build (ts : TestsBuilder SUT STATE ASSERT T) (b : BuildFunc) (t : T)
    (s : Machine SUT STATE) : outcome (TestData SUT STATE ASSERT * Machine SUT STATE) :=
  let '(ps, m) := alloc_sut (mem s) in
  let '(pst, m) := alloc_state m in
  s' ← build_loop ts (captured_i b) t ps pst 0 (captured_testCases b)
         {| mem := m; calls := calls s |};
  curcase ← load ts (captured_curcase b);
  Done ({| Sut := read_sut (mem s') ps;
           State := read_state (mem s') pst;
           Assert := Assertion curcase |}, s').

Fixpoint Tests_cases {C : Type} (ts : TestsBuilder SUT STATE ASSERT T) (tset : TestSet)
    (i : nat) (rest : list handle)
    (yield : string -> BuildFunc -> C -> bool * C) (c : C) : outcome (bool * C) :=
  match rest with
  | [] => Done (true, c)
  | curcase :: rest' =>
      let build := {| captured_testCases := TestCases tset;
                      captured_i := i;
                      captured_curcase := curcase |} in
      testcase ← load ts curcase;
      let testName :=
        if String.eqb (TestSetName tset) "" then TestName testcase
        else alternative_name (TestSetName tset) (TestName testcase) in
      let '(continue, c) := yield testName build c in
      if (continue : bool) then Tests_cases ts tset (S i) rest' yield c
      else Done (false, c)
  end.

Fixpoint Tests_sets {C : Type} (ts : TestsBuilder SUT STATE ASSERT T)
    (testSets : list TestSet)
    (yield : string -> BuildFunc -> C -> bool * C) (c : C) : outcome (bool * C) :=
  match testSets with
  | [] => Done (true, c)
  | tset :: testSets' =>
      '(continue, c) ← Tests_cases ts tset 0 (TestCases tset) yield c;
      if (continue : bool) then Tests_sets ts testSets' yield c
      else Done (false, c)
  end.

Definition Tests {C : Type} (fuel : nat) (ts : TestsBuilder SUT STATE ASSERT T)
    (yield : string -> BuildFunc -> C -> bool * C) (c : C) : outcome C :=
  testSets ← GenerateTestSets fuel ts;
  '(_, c) ← Tests_sets ts testSets yield c;
  Done c.

Definition collect (testName : string) (build : BuildFunc)
    (seen : list (string * BuildFunc)) : bool * list (string * BuildFunc) :=
  (true, seen ++ [(testName, build)]).

(** *** Notions the properties are stated with *)

Definition points_to (ts : TestsBuilder SUT STATE ASSERT T) (p : handle)
    (testcase : TestCase SUT STATE ASSERT T) : Prop :=
  deref ts p = Some testcase.

(** The builders a builder becomes through calls of the registration
    API. *)
Inductive later (ts : TestsBuilder SUT STATE ASSERT T)
  : TestsBuilder SUT STATE ASSERT T -> Prop :=
| later_now : later ts ts
| later_Register name ts' : later ts ts' -> later ts (Register name ts').2
| later_RegisterAlternative name ts' :
    later ts ts' -> later ts (RegisterAlternative name ts').2
| later_WithStateBuilder h f ts' : later ts ts' -> later ts (WithStateBuilder h f ts').2
| later_WithSpecificBuilder h f ts' :
    later ts ts' -> later ts (WithSpecificBuilder h f ts').2
| later_WithAssertion h f ts' : later ts ts' -> later ts (WithAssertion h f ts').2.

(** Two results of a computation that may fail are related when they fail
    alike or are values that are related. *)
Definition alike {A B : Type} (R : A -> B -> Prop) (x : outcome A) (y : outcome B)
  : Prop :=
  match x, y with
  | Done a, Done b => R a b
  | Panic msg, Panic msg' => msg = msg'
  | OutOfFuel, OutOfFuel => True
  | _, _ => False
  end.

End Closure.

Arguments TestSet : clear implicits.
Arguments BuildFunc : clear implicits.

End Closure.

(** [b] is the closure [c] with its pointers followed in [ts]; the pointer
    [curcase] of a closure is the one at [i] in its [testCases]. *)
Definition resolves {SUT STATE ASSERT T : Type} (ts : TestsBuilder SUT STATE ASSERT T)
    (c : Closure.BuildFunc) (b : BuildFunc SUT STATE ASSERT T) : Prop :=
  Forall2 (Closure.points_to ts) (Closure.captured_testCases c) (captured_testCases b) /\
  Closure.captured_i c = captured_i b /\
  Closure.points_to ts (Closure.captured_curcase c) (captured_curcase b) /\
  Closure.captured_testCases c !! Closure.captured_i c = Some (Closure.captured_curcase c).

(** A path holds at every position a pointer into the set of that
    position. *)
Definition one_per_set {SUT STATE ASSERT T : Type}
    (ts : TestsBuilder SUT STATE ASSERT T) (path : list handle) : Prop :=
  path.*1 = seq 0 (length (TestCaseSets ts)).

Definition resolves_TestSet {SUT STATE ASSERT T : Type}
    (ts : TestsBuilder SUT STATE ASSERT T)
    (c : Closure.TestSet) (tset : TestSet SUT STATE ASSERT T) : Prop :=
  Forall2 (Closure.points_to ts) (Closure.TestCases c) (TestCases tset) /\
  Closure.TestSetName c = TestSetName tset /\
  one_per_set ts (Closure.TestCases c).

Definition resolves_pair {SUT STATE ASSERT T : Type}
    (ts : TestsBuilder SUT STATE ASSERT T)
    (c : string * Closure.BuildFunc) (p : string * BuildFunc SUT STATE ASSERT T) : Prop :=
  c.1 = p.1 /\ resolves ts c.2 p.2 /\ one_per_set ts (Closure.captured_testCases c.2).

(** ** The builder without alternatives

    The package [testbuilder] of the repository keeps a flat list of test
    cases.  Its [TestCase] has the fields of the one above.  Its build
    function is a closure over the builder itself, the position [i] and the
    pointer [curcase]: it first calls [t.Helper()] and ranges over
    [ts.TestCases] as the builder holds them when it is called. *)

Module Flat.

Section Flat.

Context {SUT STATE ASSERT T : Type}.
Context `{!GoZero SUT, !GoZero STATE, !GoZero ASSERT}.

Record TestsBuilder : Type := mkTestsBuilder {
  TestCases : list (TestCase SUT STATE ASSERT T)
}.

(** The builder owns its test cases and only ever appends to them: the
    handle of a test case is its position in [TestCases]. *)
Definition update (ts : TestsBuilder) (h : nat)
    (f : TestCase SUT STATE ASSERT T -> TestCase SUT STATE ASSERT T) : TestsBuilder :=
  {| TestCases := alter f h (TestCases ts) |}.

Definition WithStateBuilder (h : nat) (f : option (Hook SUT STATE T)) (ts : TestsBuilder)
  : nat * TestsBuilder :=
  (h, update ts h (fun tc =>
        {| TestName := TestName tc; StateBuilder := f;
           SpecificBuilder := SpecificBuilder tc; Assertion := Assertion tc |})).

Definition WithSpecificBuilder (h : nat) (f : option (Hook SUT STATE T))
    (ts : TestsBuilder) : nat * TestsBuilder :=
  (h, update ts h (fun tc =>
        {| TestName := TestName tc; StateBuilder := StateBuilder tc;
           SpecificBuilder := f; Assertion := Assertion tc |})).

Definition WithAssertion (h : nat) (f : ASSERT) (ts : TestsBuilder) : nat * TestsBuilder :=
  (h, update ts h (fun tc =>
        {| TestName := TestName tc; StateBuilder := StateBuilder tc;
           SpecificBuilder := SpecificBuilder tc; Assertion := f |})).

Definition Register (name : string) (ts : TestsBuilder) : nat * TestsBuilder :=
  let testcase := {| TestName := name; StateBuilder := None; SpecificBuilder := None;
                     Assertion := zero_value |} in
  (length (TestCases ts), {| TestCases := TestCases ts ++ [testcase] |}).

(** What a build function does to the testing context and to the setups:
    [t.Helper()], and the setup calls. *)
Inductive event : Type :=
| HelperCall
| SetupCall (c : call).

Record Machine : Type := mkMachine {
  mem : Memory SUT STATE;
  events : list event
}.

Definition invoke (f : option (Hook SUT STATE T)) (c : call) (t : T) (ps pst : nat)
    (s : Machine) : Machine :=
  match f with
  | None => s
  | Some f => {| mem := f t ps pst (mem s); events := events s ++ [SetupCall c] |}
  end.

(** The loop of the build function over [ts.TestCases]. *)
Fixpoint build_loop (i : nat) (t : T) (ps pst : nat) (j : nat)
    (rest : list (TestCase SUT STATE ASSERT T)) (s : Machine) : Machine :=
  match rest with
  | [] => s
  | testcase :: rest' =>
      let s := invoke (StateBuilder testcase) (StateBuilderCall j) t ps pst s in
      if (j <? i)%nat then build_loop i t ps pst (S j) rest' s
      else invoke (SpecificBuilder testcase) (SpecificBuilderCall j) t ps pst s
  end.

(** The variables the closure [build] captures besides the builder. *)
Record BuildFunc : Type := mkBuildFunc {
  captured_i : nat;
  captured_curcase : nat
}.

(** A call of the build function [b] of the builder, the builder being
    [ts] at the call. *)
Definition build (ts : TestsBuilder) (b : BuildFunc) (t : T) (s : Machine)
  : outcome (TestData SUT STATE ASSERT * Machine) :=
  let s := {| mem := mem s; events := events s ++ [HelperCall] |} in
  let '(ps, m) := alloc_sut (mem s) in
  let '(pst, m) := alloc_state m in
  let s' := build_loop (captured_i b) t ps pst 0 (TestCases ts)
              {| mem := m; events := events s |} in
  match TestCases ts !! captured_curcase b with
  | None => Panic Closure.invalid_pointer
  | Some curcase =>
      Done ({| Sut := read_sut (mem s') ps;
               State := read_state (mem s') pst;
               Assert := Assertion curcase |}, s')
  end.

(** The loop of the iterator, from position [i] on; the pointer [curcase]
    is the one held at [i]. *)
Fixpoint Tests_loop {C : Type} (i : nat) (rest : list (TestCase SUT STATE ASSERT T))
    (yield : string -> BuildFunc -> C -> bool * C) (c : C) : bool * C :=
  match rest with
  | [] => (true, c)
  | curcase :: rest' =>
      let build := {| captured_i := i; captured_curcase := i |} in
      let '(continue, c) := yield (TestName curcase) build c in
      if (continue : bool) then Tests_loop (S i) rest' yield c
      else (false, c)
  end.

Definition Tests {C : Type} (ts : TestsBuilder)
    (yield : string -> BuildFunc -> C -> bool * C) (c : C) : C :=
  (Tests_loop 0 (TestCases ts) yield c).2.

Definition collect (testName : string) (build : BuildFunc)
    (seen : list (string * BuildFunc)) : bool * list (string * BuildFunc) :=
  (true, seen ++ [(testName, build)]).

(** The builders a builder becomes through calls of the registration
    API. *)
Inductive later (ts : TestsBuilder) : TestsBuilder -> Prop :=
| later_now : later ts ts
| later_Register name ts' : later ts ts' -> later ts (Register name ts').2
| later_WithStateBuilder h f ts' : later ts ts' -> later ts (WithStateBuilder h f ts').2
| later_WithSpecificBuilder h f ts' :
    later ts ts' -> later ts (WithSpecificBuilder h f ts').2
| later_WithAssertion h f ts' : later ts ts' -> later ts (WithAssertion h f ts').2.

End Flat.

Arguments TestsBuilder : clear implicits.
Arguments Machine : clear implicits.

End Flat.

(** The four test cases of [Scenario.abcd], registered with the builder
    without alternatives, and the builder after the setup of the first has
    been replaced. *)
Module FlatScenario.

Definition Builder : Type := Flat.TestsBuilder string Z unit unit.

Definition abcd : Builder :=
  let ts : Builder := {| Flat.TestCases := [] |} in
  let '(h, ts) := Flat.Register "1" ts in
  let '(_, ts) := Flat.WithStateBuilder h (Some (Scenario.append_sut "a")) ts in
  let '(h, ts) := Flat.Register "2" ts in
  let '(_, ts) := Flat.WithStateBuilder h (Some (Scenario.append_sut "b")) ts in
  let '(h, ts) := Flat.Register "3" ts in
  let '(_, ts) := Flat.WithStateBuilder h (Some (Scenario.append_sut "c")) ts in
  let '(h, ts) := Flat.Register "4" ts in
  let '(_, ts) := Flat.WithStateBuilder h (Some (Scenario.append_sut "d")) ts in
  ts.

Definition abcd_restarted : Builder :=
  (Flat.WithStateBuilder 0 (Some (Scenario.set_sut "z")) abcd).2.

Definition empty_machine : Flat.Machine string Z :=
  {| Flat.mem := {| sutCells := []; stateCells := [] |}; Flat.events := [] |}.

End FlatScenario.

(** ** The table of tests: package [testslicebuilder] *)

Module Slice.

Section Slice.

Context {SUT STATE ASSERT T : Type}.
Context `{!GoZero SUT, !GoZero STATE, !GoZero ASSERT}.

Record TableTestItem : Type := mkTableTestItem {
  Name : string;
  StateBuilder : option (Hook SUT STATE T);
  SpecificBuilder : option (Hook SUT STATE T);
  Assertion : ASSERT
}.

(** The sentinel errors. *)
Inductive error : Type :=
| ErrIndexOutOfRange
| ErrNoTestsDefined.

(** [for _, tc := range tests[:testIndex+1]]: [rest] is what remains of the
    range and [j] the position of its head. *)
Fixpoint run_StateBuilders (t : T) (ps pst : nat) (j : nat) (rest : list TableTestItem)
    (s : Machine SUT STATE) : Machine SUT STATE :=
  match rest with
  | [] => s
  | tc :: rest' =>
      run_StateBuilders t ps pst (S j) rest'
        (invoke (StateBuilder tc) (StateBuilderCall j) t ps pst s)
  end.

(** The result is the pair the function returns, with [None] for a nil
    error, and the machine as the call leaves it.  The slice expression
    panics when its bound is outside the slice. *)
Definition TestDataFromSlice (t : T) (testIndex : Z) (tests : list TableTestItem)
    (s : Machine SUT STATE)
  : outcome (TestData SUT STATE ASSERT * option error * Machine SUT STATE) :=
  let '(ps, m) := alloc_sut (mem s) in
  let '(pst, m) := alloc_state m in
  let s := {| mem := m; calls := calls s |} in
  let zero := {| Sut := zero_value; State := zero_value; Assert := zero_value |} in
  if decide (length tests = 0%nat) then Done (zero, Some ErrNoTestsDefined, s)
  else if (testIndex <? 0) || (Z.of_nat (length tests) <=? testIndex)
  then Done (zero, Some ErrIndexOutOfRange, s)
  else
    let high := wrap_int (testIndex + 1) in
    if (high <? 0) || (Z.of_nat (length tests) <? high)
    then Panic "runtime error: slice bounds out of range"
    else
      let s := run_StateBuilders t ps pst 0 (take (Z.to_nat high) tests) s in
      match go_index tests testIndex with
      | None => Panic index_out_of_range
      | Some target =>
          let s := invoke (SpecificBuilder target)
                          (SpecificBuilderCall (Z.to_nat testIndex)) t ps pst s in
          Done ({| Sut := read_sut (mem s) ps;
                   State := read_state (mem s) pst;
                   Assert := Assertion target |}, None, s)
      end.

End Slice.

Arguments TableTestItem : clear implicits.

End Slice.

(** The test case of [Tests] that a row of the table amounts to. *)
Definition TableTestItem_as_TestCase {SUT STATE ASSERT T : Type}
    (item : Slice.TableTestItem SUT STATE ASSERT T) : TestCase SUT STATE ASSERT T :=
  {| TestName := Slice.Name item;
     StateBuilder := Slice.StateBuilder item;
     SpecificBuilder := Slice.SpecificBuilder item;
     Assertion := Slice.Assertion item |}.

(** ** The example system under test: package [examples] *)

Module Examples.

Section UserController.

(** Whatever the collaborators behind the interfaces keep. *)
Context {W : Type}.

Record User : Type := mkUser { Name : string }.

(** An error, by its message. *)
Definition error : Type := string.

(** The interfaces: every method may change what the collaborator keeps. *)
Record UserRepository : Type := mkUserRepository {
  GetUser : string -> W -> User * option error * W;
  StoreUser : User -> W -> option error * W
}.

Record MailService : Type := mkMailService {
  SendMail : W -> option error * W
}.

(** An interface field holds nil unless it is set. *)
Record UserController : Type := mkUserController {
  Mailer : option MailService;
  Repository : option UserRepository
}.

(** The method calls [Handle] makes on its collaborators. *)
Inductive call : Type :=
| GetUserCall (userName : string)
| SendMailCall
| StoreUserCall (user : User).

Definition nil_dereference : string :=
  "runtime error: invalid memory address or nil pointer dereference".

(** The result is the pair [Handle] returns, with [None] for nil, what the
    collaborators keep afterwards, and the calls made so far. *)
Definition Handle (c : UserController) (userName payload : string)
    (w : W) (made : list call)
  : outcome (option User * option error * W * list call) :=
  if String.eqb payload "" then Done (None, Some "invalid payload", w, made)
  else
    match Repository c with
    | None => Panic nil_dereference
    | Some repository =>
        let '(user, err, w) := GetUser repository userName w in
        let made := made ++ [GetUserCall userName] in
        match err with
        | Some err => Done (None, Some err, w, made)
        | None =>
            match Mailer c with
            | None => Panic nil_dereference
            | Some mailer =>
                let '(err, w) := SendMail mailer w in
                let made := made ++ [SendMailCall] in
                match err with
                | Some err => Done (None, Some err, w, made)
                | None =>
                    let '(err, w) := StoreUser repository user w in
                    let made := made ++ [StoreUserCall user] in
                    match err with
                    | Some err => Done (None, Some err, w, made)
                    | None => Done (Some user, None, w, made)
                    end
                end
            end
        end
    end.

End UserController.

Arguments UserRepository : clear implicits.
Arguments MailService : clear implicits.
Arguments UserController : clear implicits.

(** The collaborators of [TestUserController_Handle]: mocks that keep
    nothing and answer every call with the value they were told to return. *)
Definition AnError : error := "assert.AnError general error for testing".

Definition MockUserRepository (getUser : User * option error)
    (storeUser : option error) : UserRepository unit :=
  {| GetUser := fun _ w => (getUser.1, getUser.2, w);
     StoreUser := fun _ w => (storeUser, w) |}.

Definition MockMailService (sendMail : option error) : MailService unit :=
  {| SendMail := fun w => (sendMail, w) |}.

Definition mocked (getUser : User * option error)
    (sendMail storeUser : option error) : UserController unit :=
  {| Mailer := Some (MockMailService sendMail);
     Repository := Some (MockUserRepository getUser storeUser) |}.

End Examples.

(** * Properties *)

Example Itoa_samples : (Itoa 0, Itoa 7, Itoa 10, Itoa (-5)) = ("0", "7", "10", "-5").
Proof. reflexivity. Qed.

Example run_1312 :
  ('(ts, _) ← run_counter 6 (NewCurrIndexes [1; 3; 1; 2]); Done (labels ts))
  = Done ["0000"; "0100"; "0200"; "0001"; "0101"; "0201"].
Proof. vm_compute. reflexivity. Qed.

Lemma wrap_int_id z : int_min <= z <= int_max -> wrap_int z = z.
Proof.
  unfold int_min, int_max, wrap_int. intros Hz.
  rewrite Z.mod_small; lia.
Qed.

Lemma reset_prefix (cur : list Z) (i : nat) :
  (i <= length cur)%nat ->
  foldl (fun c k => <[k := 0]> c) cur (seq 0 i) = (replicate i 0 ++ drop i cur).
Proof.
  induction i as [|i IH]; intros Hi.
  - simpl. by rewrite drop_0.
  - rewrite seq_S, foldl_app. simpl. rewrite IH by lia.
    rewrite insert_app_r_alt by (rewrite length_replicate; lia).
    rewrite length_replicate, Nat.sub_diag.
    destruct (drop i cur) as [|x l] eqn:Hd.
    + apply (f_equal length) in Hd. rewrite length_drop in Hd. simpl in Hd. lia.
    + simpl. replace (drop (S i) cur) with l.
      * change (0 :: replicate i 0 ++ l) with (replicate (S i) 0 ++ l).
        rewrite replicate_S_end. by rewrite <- app_assoc.
      * change (S i) with (1 + i)%nat. rewrite Nat.add_comm, <- drop_drop, Hd. done.
Qed.

Lemma NewCurrIndexes_zero alts :
  NewCurrIndexes alts = mkIndexCounter (replicate (length alts) 0) alts.
Proof.
  unfold NewCurrIndexes. f_equal.
  rewrite reset_prefix by (rewrite length_replicate; lia).
  rewrite drop_ge by (rewrite length_replicate; lia).
  by rewrite app_nil_r.
Qed.

Lemma drop_insert_here {A} (l : list A) (p : nat) (x : A) :
  (p < length l)%nat -> drop p (<[p := x]> l) = x :: drop (S p) l.
Proof.
  revert p. induction l as [|y l IH]; intros [|p] Hp; simpl in *; try lia.
  - by rewrite drop_0.
  - apply IH. lia.
Qed.

Lemma lowest_free_lt cur alts p :
  lowest_free cur alts = Some p -> (p < length cur)%nat /\ (p < length alts)%nat.
Proof.
  revert alts p. induction cur as [|c cur IH]; intros [|r alts] p H; simpl in *; try done.
  destruct (c <? r - 1).
  - injection H as <-. lia.
  - destruct (lowest_free cur alts) as [q|] eqn:Hq; simpl in H; [|done].
    injection H as <-. destruct (IH _ _ Hq). lia.
Qed.

(** The first loop of [AddOne] finds the lowest free position. *)
Lemma AddOne_scan_spec apre arest cur rest :
  length rest = length arest ->
  radices_ok arest ->
  Forall (fun c => int_min <= c) rest ->
  AddOne_scan (apre ++ arest) cur (length apre) rest =
    match lowest_free rest arest with
    | None => Done (cur, 0%nat, true)
    | Some p =>
        match rest !! p with
        | Some c => Done (<[(length apre + p)%nat := c + 1]> cur, (length apre + p)%nat, false)
        | None => Panic index_out_of_range
        end
    end.
Proof.
  revert apre arest. induction rest as [|c rest IH]; intros apre [|r arest] Hlen Hok Hlo;
    simpl in *; try done.
  apply Forall_cons in Hok as [Hr Hok]. apply Forall_cons in Hlo as [Hc Hlo].
  rewrite lookup_app_r, Nat.sub_diag by lia. simpl.
  rewrite wrap_int_id by (unfold int_min, int_max in *; lia).
  destruct (c <? r - 1) eqn:Hcr.
  - apply Z.ltb_lt in Hcr. rewrite Nat.add_0_r. simpl.
    rewrite wrap_int_id by (unfold int_min, int_max in *; lia). done.
  - specialize (IH (apre ++ [r]) arest).
    rewrite <- app_assoc, length_app in IH. simpl in IH.
    rewrite Nat.add_1_r in IH. rewrite IH by (done || lia).
    destruct (lowest_free rest arest) as [p|]; simpl; [|done].
    rewrite <- Nat.add_succ_comm. done.
Qed.

(** [AddOne] on a tuple in range. *)
Lemma AddOne_spec cur alts :
  radices_ok alts -> in_range cur alts ->
  AddOne (mkIndexCounter cur alts) =
    match lowest_free cur alts with
    | None => Done (mkIndexCounter cur alts, true)
    | Some p =>
        match cur !! p with
        | Some c => Done (mkIndexCounter (bump p c cur) alts, false)
        | None => Panic index_out_of_range
        end
    end.
Proof.
  intros Hok Hin. unfold AddOne. simpl.
  pose proof (AddOne_scan_spec [] alts cur cur) as Hscan. simpl in Hscan.
  rewrite Hscan; clear Hscan.
  - destruct (lowest_free cur alts) as [p|] eqn:Hp; simpl; [|done].
    destruct (lowest_free_lt _ _ _ Hp) as [Hpc _].
    destruct (cur !! p) as [c|] eqn:Hc; simpl; [|done].
    do 2 f_equal. f_equal.
    rewrite reset_prefix by (rewrite length_insert; lia).
    unfold bump. f_equal. by apply drop_insert_here.
  - by eapply Forall2_length.
  - done.
  - clear Hok. induction Hin; [constructor|]. constructor; [unfold int_min; lia|done].
Qed.

Lemma rank_bounds cur alts :
  in_range cur alts -> 0 <= rank cur alts < product alts.
Proof.
  unfold in_range, product. induction 1 as [|c r cur alts Hc _ IH]; simpl; [lia|].
  nia.
Qed.

Lemma bump_O c c0 (cur : list Z) : bump 0 c (c0 :: cur) = (c + 1) :: cur.
Proof. unfold bump. simpl. by rewrite drop_0. Qed.

Lemma bump_S p c c0 (cur : list Z) : bump (S p) c (c0 :: cur) = 0 :: bump p c cur.
Proof. reflexivity. Qed.

Lemma lowest_free_Some cur alts p :
  in_range cur alts -> lowest_free cur alts = Some p ->
  exists c r,
    cur !! p = Some c /\ alts !! p = Some r /\ c < r - 1 /\
    (forall (q : nat) cq rq,
        (q < p)%nat -> cur !! q = Some cq -> alts !! q = Some rq -> cq = rq - 1).
Proof.
  unfold in_range. intros Hin. revert p.
  induction Hin as [|c0 r cur alts Hc Hin IH]; intros p Hp; [done|].
  simpl in Hp. destruct (c0 <? r - 1) eqn:Hcr.
  - injection Hp as <-. apply Z.ltb_lt in Hcr. exists c0, r.
    repeat split; try done. intros q cq rq Hq. lia.
  - apply Z.ltb_ge in Hcr.
    destruct (lowest_free cur alts) as [p'|] eqn:Hp'; simpl in Hp; [|done].
    injection Hp as <-. destruct (IH p' eq_refl) as (c & r1 & Ht & Ha & Hlt & Hlow).
    exists c, r1. repeat split; try done.
    intros [|q] cq rq Hq Hq1 Hq2; simpl in *.
    + injection Hq1 as <-. injection Hq2 as <-. lia.
    + eapply Hlow; [|done..]. lia.
Qed.

Lemma bump_spec cur alts p c :
  in_range cur alts -> lowest_free cur alts = Some p -> cur !! p = Some c ->
  in_range (bump p c cur) alts /\
  rank (bump p c cur) alts = rank cur alts + 1.
Proof.
  unfold in_range. intros Hin. revert p.
  induction Hin as [|c0 r cur alts Hc Hin IH]; intros p Hp Hl; [done|].
  simpl in Hp. destruct (c0 <? r - 1) eqn:Hcr.
  - injection Hp as <-. simpl in Hl. injection Hl as ->.
    apply Z.ltb_lt in Hcr. rewrite bump_O. split.
    + constructor; [lia|done].
    + simpl. lia.
  - apply Z.ltb_ge in Hcr.
    destruct (lowest_free cur alts) as [p'|] eqn:Hp'; simpl in Hp; [|done].
    injection Hp as <-. simpl in Hl.
    destruct (IH p' eq_refl Hl) as (Hin' & Hrk).
    rewrite bump_S. split.
    + constructor; [lia|done].
    + simpl. rewrite Hrk. lia.
Qed.

Lemma bump_advances cur alts p c :
  in_range cur alts -> lowest_free cur alts = Some p -> cur !! p = Some c ->
  advances alts cur (bump p c cur).
Proof.
  intros Hin Hp Hc.
  destruct (lowest_free_Some _ _ _ Hin Hp) as (c' & r & Ht & Ha & Hlt & Hlow).
  rewrite Hc in Ht. injection Ht as <-.
  exists p, c, r. by repeat split.
Qed.

Lemma lowest_free_None cur alts :
  in_range cur alts -> lowest_free cur alts = None ->
  cur = Z.pred <$> alts /\ rank cur alts = product alts - 1.
Proof.
  unfold in_range, product. induction 1 as [|c r cur alts Hc Hin IH]; intros Hn; [done|].
  simpl in Hn. destruct (c <? r - 1) eqn:Hcr; [done|]. apply Z.ltb_ge in Hcr.
  destruct (lowest_free cur alts); [done|]. destruct (IH eq_refl) as [-> Hrk].
  simpl. rewrite Hrk. split; [f_equal|]; lia.
Qed.

Lemma run_counter_counts_up alts fuel : forall cur,
  radices_ok alts -> in_range cur alts ->
  product alts - rank cur alts <= Z.of_nat fuel ->
  exists tuples,
    run_counter fuel (mkIndexCounter cur alts)
      = Done (tuples, mkIndexCounter (Z.pred <$> alts) alts) /\
    counts_up alts cur tuples.
Proof.
  induction fuel as [|fuel IH]; intros cur Hok Hin Hfuel.
  - pose proof (rank_bounds _ _ Hin). lia.
  - simpl. rewrite AddOne_spec by done.
    destruct (lowest_free cur alts) as [p|] eqn:Hp.
    + destruct (lowest_free_lt _ _ _ Hp) as [Hpc _].
      destruct (lookup_lt_is_Some_2 _ _ Hpc) as [c Hc]. rewrite Hc. simpl.
      destruct (bump_spec _ _ _ _ Hin Hp Hc) as (Hin' & Hrk).
      destruct (IH (bump p c cur) Hok Hin') as (tuples & Hrun & Hup); [lia|].
      rewrite Hrun. simpl. eexists. split; [done|]. by econstructor.
    + simpl. destruct (lowest_free_None _ _ Hin Hp) as [-> _].
      eexists. split; [done|]. by constructor.
Qed.

Lemma counts_up_facts alts cur tuples :
  in_range cur alts -> counts_up alts cur tuples ->
  (fun t => rank t alts) <$> tuples = seqZ (rank cur alts) (product alts - rank cur alts) /\
  Forall (fun t => in_range t alts) tuples /\
  head tuples = Some cur /\
  last tuples = Some (Z.pred <$> alts) /\
  (forall (k : nat) t t',
      tuples !! k = Some t -> tuples !! S k = Some t' -> advances alts t t').
Proof.
  intros Hin Hup. induction Hup as [cur Hn|cur p c rest Hp Hc Hup IH].
  - destruct (lowest_free_None _ _ Hin Hn) as [Heq Hrk].
    rewrite Hrk. replace (product alts - (product alts - 1)) with 1 by lia.
    split; [simpl; by rewrite Hrk|]. split; [by constructor|]. split; [done|].
    split; [simpl; by rewrite <- Heq|].
    intros k t t' _ Hk. by destruct k.
  - destruct (bump_spec _ _ _ _ Hin Hp Hc) as (Hin' & Hrk).
    pose proof (bump_advances _ _ _ _ Hin Hp Hc) as Hadv.
    destruct (IH Hin') as (Hranks & Hall & Hhd & Hlast & Hsteps).
    pose proof (rank_bounds _ _ Hin'). split; [|split; [|split; [|split]]].
    + rewrite seqZ_cons by lia. rewrite fmap_cons, Hranks, Hrk. do 2 f_equal; lia.
    + by constructor.
    + done.
    + destruct rest as [|t0 rest]; [done|]. simpl in *. done.
    + intros [|k] t t' Hk Hk'; simpl in *.
      * injection Hk as <-. destruct rest as [|t0 rest]; [done|].
        simpl in *. injection Hhd as ->. injection Hk' as <-. done.
      * by eapply Hsteps.
Qed.

(** ** Strings *)

Lemma append_cons (a : ascii) (s1 s2 : string) :
  String a s1 +:+ s2 = String a (s1 +:+ s2).
Proof. reflexivity. Qed.

Lemma append_nil_l (s : string) : "" +:+ s = s.
Proof. reflexivity. Qed.

Lemma append_nil_r (s : string) : s +:+ "" = s.
Proof. induction s as [|a s IH]; [done|]. by rewrite append_cons, IH. Qed.

Lemma append_assoc (s1 s2 s3 : string) : (s1 +:+ s2) +:+ s3 = s1 +:+ (s2 +:+ s3).
Proof. induction s1 as [|a s1 IH]; [done|]. by rewrite !append_cons, IH. Qed.

Lemma length_append (s1 s2 : string) :
  String.length (s1 +:+ s2) = (String.length s1 + String.length s2)%nat.
Proof. induction s1 as [|a s1 IH]; [done|]. rewrite append_cons. simpl. by rewrite IH. Qed.

Lemma IndexCounter_String_acc (acc : string) (cur alts : list Z) :
  foldl (fun out currIndex => out +:+ Itoa currIndex) acc cur
  = acc +:+ IndexCounter_String (mkIndexCounter cur alts).
Proof.
  unfold IndexCounter_String. simpl. revert acc.
  induction cur as [|c cur IH]; intros acc; simpl.
  - by rewrite append_nil_r.
  - rewrite append_nil_l, IH, (IH (Itoa c)). by rewrite append_assoc.
Qed.

Lemma IndexCounter_String_cons c cur alts alts' :
  IndexCounter_String (mkIndexCounter (c :: cur) alts)
  = Itoa c +:+ IndexCounter_String (mkIndexCounter cur alts').
Proof.
  unfold IndexCounter_String at 1. simpl. apply IndexCounter_String_acc.
Qed.

(** ** The counter enumerates every tuple once *)

Lemma zero_in_range alts : radices_ok alts -> in_range (replicate (length alts) 0) alts.
Proof.
  unfold in_range. induction 1; simpl; constructor; [lia|done].
Qed.

Lemma rank_zero alts : rank (replicate (length alts) 0) alts = 0.
Proof. induction alts as [|r alts IH]; simpl; [done|]. rewrite IH. lia. Qed.

Lemma run_counter_from_zero (alts : list Z) (fuel : nat) :
  radices_ok alts -> product alts <= Z.of_nat fuel ->
  exists tuples,
    run_counter fuel (NewCurrIndexes alts)
      = Done (tuples, mkIndexCounter (Z.pred <$> alts) alts) /\
    Z.of_nat (length tuples) = product alts /\
    NoDup tuples /\
    Forall (fun t => in_range t alts) tuples /\
    head tuples = Some (replicate (length alts) 0) /\
    (forall (k : nat) t t',
        tuples !! k = Some t -> tuples !! S k = Some t' -> advances alts t t') /\
    last tuples = Some (Z.pred <$> alts).
Proof.
  intros Hok Hfuel. rewrite NewCurrIndexes_zero.
  pose proof (zero_in_range _ Hok) as Hzero.
  destruct (run_counter_counts_up alts fuel _ Hok Hzero) as (tuples & Hrun & Hup).
  { rewrite rank_zero. lia. }
  destruct (counts_up_facts _ _ _ Hzero Hup) as (Hranks & Hall & Hhd & Hlast & Hsteps).
  rewrite rank_zero, Z.sub_0_r in Hranks.
  pose proof (rank_bounds _ _ Hzero) as Hpos.
  exists tuples. split; [done|]. split; [|split; [|done]].
  - apply (f_equal length) in Hranks.
    rewrite length_fmap, length_seqZ in Hranks. lia.
  - apply (NoDup_fmap_1 (fun t => rank t alts)). rewrite Hranks. apply NoDup_seqZ.
Qed.

(** C4 (amended): for radices that are all at least 1 (and Go [int]s), the
    counter driven by [AddOne] until it reports done visits exactly as many
    tuples as the product of the radices, all distinct and in range.  It starts
    at the all-zero tuple; each tuple is followed by the one in which the
    lowest position not yet at its radix minus one is incremented and every
    lower position is reset to zero.  It ends at the tuple whose every index is
    its radix minus one: the [AddOne] that reports done leaves the counter
    there and does not wrap it to zero.  [String] writes the indexes with
    [strconv.Itoa] one after the other, and the radices 1,3,1,2 give the
    labels 0000, 0100, 0200, 0001, 0101, 0201 in this order. *)
Theorem counter_enumerates (alts : list Z) (fuel : nat) :
  Forall (fun r => 1 <= r <= int_max) alts ->
  product alts <= Z.of_nat fuel ->
  (exists tuples final,
      run_counter fuel (NewCurrIndexes alts) = Done (tuples, final) /\
      Z.of_nat (length tuples) = product alts /\
      NoDup tuples /\
      Forall (fun t => in_range t alts) tuples /\
      head tuples = Some (replicate (length alts) 0) /\
      (forall (k : nat) t t',
          tuples !! k = Some t -> tuples !! S k = Some t' -> advances alts t t') /\
      last tuples = Some (Z.pred <$> alts) /\
      currIndexes final = Z.pred <$> alts) /\
  (forall c cur a,
      IndexCounter_String (mkIndexCounter (c :: cur) a)
      = Itoa c +:+ IndexCounter_String (mkIndexCounter cur a)) /\
  (forall a, IndexCounter_String (mkIndexCounter [] a) = "") /\
  (exists final,
      run_counter 6 (NewCurrIndexes [1; 3; 1; 2])
      = Done ([[0; 0; 0; 0]; [0; 1; 0; 0]; [0; 2; 0; 0];
               [0; 0; 0; 1]; [0; 1; 0; 1]; [0; 2; 0; 1]], final) /\
      labels [[0; 0; 0; 0]; [0; 1; 0; 0]; [0; 2; 0; 0];
              [0; 0; 0; 1]; [0; 1; 0; 1]; [0; 2; 0; 1]]
      = ["0000"; "0100"; "0200"; "0001"; "0101"; "0201"]).
Proof.
  intros Hok Hfuel. split; [|split; [|split]].
  - destruct (run_counter_from_zero alts fuel Hok Hfuel)
      as (tuples & Hrun & Hlen & Hnd & Hall & Hhd & Hsteps & Hlast).
    exists tuples, (mkIndexCounter (Z.pred <$> alts) alts). by repeat split.
  - intros c cur a. apply IndexCounter_String_cons.
  - done.
  - eexists. split; vm_compute; reflexivity.
Qed.

Lemma counter_enumerates_witness :
  exists tuples final,
    run_counter 6 (NewCurrIndexes [2; 3]) = Done (tuples, final) /\
    Z.of_nat (length tuples) = product [2; 3] /\
    NoDup tuples /\
    Forall (fun t => in_range t [2; 3]) tuples /\
    head tuples = Some (replicate (length [2; 3]) 0) /\
    (forall (k : nat) t t',
        tuples !! k = Some t -> tuples !! S k = Some t' -> advances [2; 3] t t') /\
    last tuples = Some (Z.pred <$> [2; 3]) /\
    currIndexes final = Z.pred <$> [2; 3].
Proof.
  refine (proj1 (counter_enumerates [2; 3] 6 _ _)).
  - repeat constructor; unfold int_max; lia.
  - vm_compute. discriminate.
Defined.

(** C4, as the specification words it, fails: the enumeration does not end
    at the all-zero tuple, neither as the last tuple visited nor as the state
    the counter is left in. *)
Lemma counter_does_not_end_at_zero :
  ~ (forall (alts : list Z) (fuel : nat) tuples final,
        Forall (fun r => 1 <= r) alts ->
        run_counter fuel (NewCurrIndexes alts) = Done (tuples, final) ->
        last tuples = Some (replicate (length alts) 0) \/
        currIndexes final = replicate (length alts) 0).
Proof.
  intros H.
  destruct (H [1; 3; 1; 2] 6%nat
              [[0; 0; 0; 0]; [0; 1; 0; 0]; [0; 2; 0; 0];
               [0; 0; 0; 1]; [0; 1; 0; 1]; [0; 2; 0; 1]]
              (mkIndexCounter [0; 2; 0; 1] [1; 3; 1; 2])) as [Hl|Hf].
  - repeat constructor; lia.
  - vm_compute. reflexivity.
  - vm_compute in Hl. discriminate.
  - vm_compute in Hf. discriminate.
Qed.

(** ** The build function *)

Section BuildProperties.

Context {SUT STATE ASSERT T : Type}.
Context `{!GoZero SUT, !GoZero STATE, !GoZero ASSERT}.

Abbreviation TestCase := (TestCase SUT STATE ASSERT T).
Abbreviation Machine := (Machine SUT STATE).
Abbreviation Memory := (Memory SUT STATE).
Abbreviation Hook := (Hook SUT STATE T).

Lemma mem_invoke (f : option Hook) c t ps pst (s : Machine) :
  mem (invoke f c t ps pst s) = apply_setup f t ps pst (mem s).
Proof. by destruct f. Qed.

Lemma calls_invoke (f : option Hook) c t ps pst (s : Machine) :
  calls (invoke f c t ps pst s)
  = calls s ++ match f with Some _ => [c] | None => [] end.
Proof. destruct f; simpl; [done|]. by rewrite app_nil_r. Qed.

Lemma StateBuilderCalls_cons (path : list TestCase) j tc (l : list nat) :
  path !! j = Some tc ->
  StateBuilderCall <$> filter (fun j => has_StateBuilder path j = true) (j :: l)
  = match StateBuilder tc with Some _ => [StateBuilderCall j] | None => [] end
    ++ (StateBuilderCall <$> filter (fun j => has_StateBuilder path j = true) l).
Proof.
  intros Hj.
  assert (Hhas : has_StateBuilder path j = bool_decide (is_Some (StateBuilder tc))).
  { unfold has_StateBuilder. by rewrite Hj. }
  destruct (StateBuilder tc) as [f|] eqn:Hf.
  - rewrite filter_cons_True; [done|]. rewrite Hhas. by apply bool_decide_eq_true.
  - rewrite filter_cons_False; [done|]. rewrite Hhas.
    rewrite bool_decide_eq_true. by intros [? ?].
Qed.

(** The loop from position [j] on, for a path whose position [i] is at or
    after [j]: the cumulative setups of [j] to [i], then the one-shot setup
    of [i]. *)
Lemma build_loop_spec (path : list TestCase) i t ps pst :
  forall (rest pre : list TestCase) (s : Machine),
    path = pre ++ rest -> (length pre <= i)%nat -> is_Some (path !! i) ->
    let s' := build_loop i t ps pst (length pre) rest s in
    mem s' =
      (let m := foldl (fun m testcase => apply_setup (StateBuilder testcase) t ps pst m)
                      (mem s) (take (S i - length pre) rest) in
       match path !! i with
       | Some testcase => apply_setup (SpecificBuilder testcase) t ps pst m
       | None => m
       end) /\
    calls s' =
      calls s
      ++ (StateBuilderCall <$>
            filter (fun j => has_StateBuilder path j = true)
                   (seq (length pre) (S i - length pre)))
      ++ match path !! i with
         | Some testcase =>
             match SpecificBuilder testcase with
             | Some _ => [SpecificBuilderCall i]
             | None => []
             end
         | None => []
         end.
Proof.
  induction rest as [|tc rest IH]; intros pre s Hpath Hle [tci Hi].
  - rewrite app_nil_r in Hpath. subst pre. apply lookup_lt_Some in Hi. lia.
  - assert (Hj : path !! length pre = Some tc).
    { rewrite Hpath. rewrite lookup_app_r by lia. by rewrite Nat.sub_diag. }
    simpl. destruct (length pre <? i)%nat eqn:Hlt.
    + apply Nat.ltb_lt in Hlt.
      specialize (IH (pre ++ [tc])
                    (invoke (StateBuilder tc) (StateBuilderCall (length pre)) t ps pst s)).
      rewrite length_app in IH. simpl in IH. rewrite Nat.add_1_r in IH.
      destruct IH as [IHm IHc]; [by rewrite <- app_assoc|lia|by eexists|].
      rewrite IHm, IHc. clear IHm IHc.
      replace (S i - length pre)%nat with (S (i - length pre)) by lia.
      replace (S i - S (length pre))%nat with (i - length pre)%nat by lia.
      simpl. rewrite mem_invoke, calls_invoke. split; [done|].
      rewrite (StateBuilderCalls_cons _ _ _ _ Hj). by rewrite <- !app_assoc.
    + apply Nat.ltb_ge in Hlt. assert (i = length pre) as -> by lia.
      rewrite Hj. replace (S (length pre) - length pre)%nat with 1%nat by lia.
      simpl. rewrite !mem_invoke, !calls_invoke. split; [done|].
      rewrite (StateBuilderCalls_cons _ _ _ _ Hj). by rewrite <- !app_assoc.
Qed.

Lemma build_spec (path : list TestCase) i curcase t (s : Machine) :
  path !! i = Some curcase ->
  let ps := length (sutCells (mem s)) in
  let pst := length (stateCells (mem s)) in
  let m' := replay path i t ps pst
              {| sutCells := sutCells (mem s) ++ [zero_value];
                 stateCells := stateCells (mem s) ++ [zero_value] |} in
  build (mkBuildFunc path i curcase) t s =
    ({| Sut := read_sut m' ps; State := read_state m' pst;
        Assert := Assertion curcase |},
     {| mem := m'; calls := calls s ++ replay_calls path i |}).
Proof.
  intros Hi. unfold build, alloc_sut, alloc_state. simpl.
  pose proof (build_loop_spec path i t (length (sutCells (mem s)))
                (length (stateCells (mem s))) path []
                {| mem := {| sutCells := sutCells (mem s) ++ [zero_value];
                             stateCells := stateCells (mem s) ++ [zero_value] |};
                   calls := calls s |} eq_refl) as Hloop.
  simpl in Hloop. destruct Hloop as [Hm Hc]; [lia|by eexists|].
  destruct (build_loop _ _ _ _ _ _ _) as [m' c']. simpl in Hm, Hc.
  unfold replay, replay_calls. subst m' c'. done.
Qed.


(** *** Setup functions that touch only their arguments *)




End BuildProperties.

(** ** Labels *)

Lemma Itoa_nonempty z : Itoa z <> "".
Proof.
  unfold Itoa. destruct (Z.to_int z) as [d|d]; [|done].
  destruct d; done.
Qed.

Lemma Itoa_digit c : 0 <= c <= 9 -> exists a, Itoa c = String a "".
Proof.
  intros Hc.
  assert (c = 0 \/ c = 1 \/ c = 2 \/ c = 3 \/ c = 4 \/
          c = 5 \/ c = 6 \/ c = 7 \/ c = 8 \/ c = 9) as Hcases by lia.
  repeat (destruct Hcases as [->|Hcases]; [by eexists|]). subst c. by eexists.
Qed.

Lemma Itoa_digit_inj c1 c2 :
  0 <= c1 <= 9 -> 0 <= c2 <= 9 -> Itoa c1 = Itoa c2 -> c1 = c2.
Proof.
  intros H1 H2.
  assert (c1 = 0 \/ c1 = 1 \/ c1 = 2 \/ c1 = 3 \/ c1 = 4 \/
          c1 = 5 \/ c1 = 6 \/ c1 = 7 \/ c1 = 8 \/ c1 = 9) as Hc1 by lia.
  assert (c2 = 0 \/ c2 = 1 \/ c2 = 2 \/ c2 = 3 \/ c2 = 4 \/
          c2 = 5 \/ c2 = 6 \/ c2 = 7 \/ c2 = 8 \/ c2 = 9) as Hc2 by lia.
  clear H1 H2.
  repeat (destruct Hc1 as [->|Hc1]);
    repeat (destruct Hc2 as [->|Hc2]); subst; vm_compute; congruence.
Qed.

Lemma label_of_cons c cur : label_of (c :: cur) = Itoa c +:+ label_of cur.
Proof. apply IndexCounter_String_cons. Qed.

Lemma label_of_nonempty indexes : indexes <> [] -> label_of indexes <> "".
Proof.
  destruct indexes as [|c cur]; [done|]. intros _. rewrite label_of_cons.
  pose proof (Itoa_nonempty c) as Hc. destruct (Itoa c); done.
Qed.

(** Labels of single-digit indexes: one character per index, and the
    label determines the tuple. *)
Lemma label_of_digits_length indexes :
  Forall (fun c => 0 <= c <= 9) indexes ->
  String.length (label_of indexes) = length indexes.
Proof.
  induction 1 as [|c cur Hc _ IH]; [done|].
  rewrite label_of_cons. destruct (Itoa_digit c Hc) as [a ->].
  rewrite append_cons, append_nil_l. simpl. by rewrite IH.
Qed.

Lemma label_of_digits_inj indexes1 indexes2 :
  Forall (fun c => 0 <= c <= 9) indexes1 ->
  Forall (fun c => 0 <= c <= 9) indexes2 ->
  label_of indexes1 = label_of indexes2 -> indexes1 = indexes2.
Proof.
  intros H1. revert indexes2.
  induction H1 as [|c1 cur1 Hc1 _ IH]; intros indexes2 H2 Heq.
  - destruct H2 as [|c2 cur2 Hc2 _]; [done|].
    apply (f_equal String.length) in Heq.
    rewrite label_of_cons, length_append in Heq.
    destruct (Itoa_digit c2 Hc2) as [a Ha]. rewrite Ha in Heq. done.
  - destruct H2 as [|c2 cur2 Hc2 H2].
    + apply (f_equal String.length) in Heq.
      rewrite label_of_cons, length_append in Heq.
      destruct (Itoa_digit c1 Hc1) as [a Ha]. rewrite Ha in Heq. done.
    + rewrite !label_of_cons in Heq.
      destruct (Itoa_digit c1 Hc1) as [a1 Ha1]. destruct (Itoa_digit c2 Hc2) as [a2 Ha2].
      rewrite Ha1, Ha2, !append_cons, !append_nil_l in Heq.
      injection Heq as Ha Hrest. f_equal.
      * apply Itoa_digit_inj; [done..|]. rewrite Ha1, Ha2. by f_equal.
      * by apply IH.
Qed.

Lemma append_inj_length (s1 s2 t1 t2 : string) :
  String.length s1 = String.length s2 ->
  s1 +:+ t1 = s2 +:+ t2 -> s1 = s2 /\ t1 = t2.
Proof.
  revert s2. induction s1 as [|a1 s1 IH]; intros [|a2 s2] Hlen Heq; try done.
  rewrite !append_cons in Heq. injection Heq as -> Heq.
  destruct (IH s2) as [-> ->]; [by injection Hlen|done|done].
Qed.

Lemma alternative_name_inj label1 label2 name1 name2 :
  String.length label1 = String.length label2 ->
  alternative_name label1 name1 = alternative_name label2 name2 ->
  label1 = label2 /\ name1 = name2.
Proof.
  unfold alternative_name. intros Hlen Heq.
  apply (inj (String.app _)) in Heq.
  apply append_inj_length in Heq as [-> Heq]; [|done].
  split; [done|]. by apply (inj (String.app _)) in Heq.
Qed.

(** ** Expansion into test sets *)

Section ExpansionProperties.

Context {SUT STATE ASSERT T : Type}.
Context `{!GoZero SUT, !GoZero STATE, !GoZero ASSERT}.

Abbreviation TestCase' := (TestCase SUT STATE ASSERT T).
Abbreviation TestCaseSet' := (TestCaseSet SUT STATE ASSERT T).
Abbreviation TestsBuilder' := (TestsBuilder SUT STATE ASSERT T).
Abbreviation TestSet' := (TestSet SUT STATE ASSERT T).
Abbreviation BuildFunc' := (BuildFunc SUT STATE ASSERT T).

(** Registration keeps at least one alternative in every set, so a builder
    made with the API satisfies [registry_ok] as long as its slices have a
    Go length. *)
Lemma built_sets_nonempty (ts : TestsBuilder') :
  built ts ->
  Forall (fun set => (1 <= length (TestAlternatives set))%nat) (TestCaseSets ts).
Proof.
  assert (Hupd : forall (ts : TestsBuilder') h f,
             Forall (fun set => (1 <= length (TestAlternatives set))%nat) (TestCaseSets ts) ->
             Forall (fun set => (1 <= length (TestAlternatives set))%nat)
                    (TestCaseSets (update ts h f))).
  { intros ts0 h f Hall. unfold update. simpl.
    apply Forall_alter; [done|]. intros set _ Hset. simpl.
    by rewrite length_alter. }
  induction 1 as [|name ts Hb IH|name ts Hb IH|h f ts Hb IH|h f ts Hb IH|h f ts Hb IH];
    simpl; try (by apply Hupd).
  - constructor.
  - apply Forall_app. split; [done|]. repeat constructor.
  - unfold RegisterAlternative.
    destruct (decide (length (TestCaseSets ts) = 0%nat)); [done|].
    destruct (TestCaseSets ts !! (length (TestCaseSets ts) - 1)%nat) as [latest|] eqn:Hl;
      [|done].
    simpl. apply Forall_insert; [done|]. simpl. rewrite length_app. simpl. lia.
Qed.

Lemma GenerateTestSets_counts_spec (ts : TestsBuilder') :
  GenerateTestSets_counts (TestCaseSets ts) = (alternative_counts ts, more_than_one ts).
Proof.
  unfold GenerateTestSets_counts, alternative_counts, more_than_one.
  destruct ts as [sets]. simpl.
  assert (Hgen : forall (acc : list Z) (b : bool),
    foldl (fun '(alternativeCountList, moreThanOneAlternative)
               (testCaseSet : TestCaseSet') =>
             let numAlternatives := Z.of_nat (length (TestAlternatives testCaseSet)) in
             (alternativeCountList ++ [numAlternatives],
              if 1 <? numAlternatives then true else moreThanOneAlternative))
          (acc, b) sets
    = (acc ++ ((fun set : TestCaseSet' => Z.of_nat (length (TestAlternatives set)))
                 <$> sets),
       b || bool_decide (Exists (fun set : TestCaseSet' =>
                                   (1 < length (TestAlternatives set))%nat) sets))).
  { induction sets as [|set sets IH]; intros acc b; simpl.
    - by rewrite app_nil_r, orb_false_r.
    - rewrite IH, <- app_assoc. simpl. f_equal.
      destruct (1 <? Z.of_nat (length (TestAlternatives set))) eqn:Hlt.
      + apply Z.ltb_lt in Hlt. simpl.
        rewrite (bool_decide_eq_true_2 (Exists _ (set :: sets)))
          by (apply Exists_cons_hd; lia).
        by rewrite orb_true_r.
      + apply Z.ltb_ge in Hlt. f_equal. apply bool_decide_ext.
        rewrite Exists_cons. split; [tauto|]. intros [?|?]; [lia|done]. }
  by rewrite Hgen.
Qed.

Lemma GenerateTestSets_pick_spec :
  forall (rest : list TestCaseSet') (irest ipre : list Z) (acc : list TestCase'),
    Forall2 (fun c set => 0 <= c < Z.of_nat (length (TestAlternatives set))) irest rest ->
    exists path,
      GenerateTestSets_pick (ipre ++ irest) (length ipre) rest acc = Done (acc ++ path) /\
      Forall3 (fun set altIdx testCase =>
                 0 <= altIdx /\
                 TestAlternatives set !! Z.to_nat altIdx = Some testCase)
              rest irest path.
Proof.
  induction rest as [|set rest IH]; intros irest ipre acc Hin.
  - apply Forall2_nil_inv_r in Hin as ->. exists []. simpl.
    rewrite app_nil_r. split; [done|constructor].
  - apply Forall2_cons_inv_r in Hin as (c & irest' & Hc & Hin & ->).
    simpl. rewrite lookup_app_r by lia. rewrite Nat.sub_diag. simpl.
    unfold go_index. destruct (c <? 0) eqn:Hneg; [apply Z.ltb_lt in Hneg; lia|].
    destruct (lookup_lt_is_Some_2 (TestAlternatives set) (Z.to_nat c)) as [tc Htc];
      [lia|].
    rewrite Htc.
    destruct (IH irest' (ipre ++ [c]) (acc ++ [tc]) Hin) as (path & Hpick & Hsel).
    rewrite length_app, <- app_assoc in Hpick. simpl in Hpick.
    rewrite Nat.add_1_r in Hpick. rewrite Hpick.
    exists (tc :: path). rewrite <- app_assoc. split; [done|].
    constructor; [|done]. split; [lia|done].
Qed.

Lemma path_of_spec (ts : TestsBuilder') (indexes : list Z) :
  in_range indexes (alternative_counts ts) ->
  GenerateTestSets_pick indexes 0 (TestCaseSets ts) [] = Done (path_of ts indexes) /\
  selects ts indexes (path_of ts indexes).
Proof.
  intros Hin. unfold in_range, alternative_counts in Hin.
  apply Forall2_fmap_r in Hin.
  destruct (GenerateTestSets_pick_spec (TestCaseSets ts) indexes [] [] Hin)
    as (path & Hpick & Hsel).
  simpl in Hpick. unfold path_of, selects. by rewrite Hpick.
Qed.

(** The outer loop of [GenerateTestSets] visits the tuples the counter
    visits, and makes a test set of each. *)
Lemma GenerateTestSets_loop_spec (ts : TestsBuilder') (more : bool) :
  forall (fuel : nat) (idx : IndexCounter) (acc : list TestSet') tuples final,
    run_counter fuel idx = Done (tuples, final) ->
    Forall (fun t => in_range t (alternative_counts ts)) tuples ->
    GenerateTestSets_loop fuel (TestCaseSets ts) more idx acc
    = Done (acc ++ (test_set_of ts more <$> tuples)).
Proof.
  induction fuel as [|fuel IH]; intros idx acc tuples final Hrun Hall; [done|].
  simpl in Hrun. simpl.
  destruct (AddOne idx) as [[idx' isDone]| |] eqn:Hadd; simpl in Hrun; try done.
  assert (Hhead : exists rest, tuples = currIndexes idx :: rest /\
            (if isDone then rest = []
             else exists final', run_counter fuel idx' = Done (rest, final'))).
  { destruct isDone.
    - injection Hrun as <- _. by exists [].
    - destruct (run_counter fuel idx') as [[rest final']| |] eqn:Hrest;
        simpl in Hrun; try done.
      injection Hrun as <- _. exists rest. split; [done|]. by exists final'. }
  destruct Hhead as (rest & -> & Hrest).
  apply Forall_cons in Hall as [Hin Hall].
  destruct (path_of_spec ts _ Hin) as [Hpick _]. rewrite Hpick. simpl.
  destruct isDone.
  - subst rest. done.
  - destruct Hrest as (final' & Hrest).
    rewrite (IH _ _ _ _ Hrest Hall), <- app_assoc. done.
Qed.

Lemma GenerateTestSets_spec (ts : TestsBuilder') (fuel : nat) :
  registry_ok ts -> product (alternative_counts ts) <= Z.of_nat fuel ->
  exists tuples,
    run_counter fuel (NewCurrIndexes (alternative_counts ts))
      = Done (tuples, mkIndexCounter (Z.pred <$> alternative_counts ts)
                                     (alternative_counts ts)) /\
    GenerateTestSets fuel ts = Done (test_set_of ts (more_than_one ts) <$> tuples) /\
    Z.of_nat (length tuples) = product (alternative_counts ts) /\
    NoDup tuples /\
    Forall (fun t => in_range t (alternative_counts ts)) tuples /\
    head tuples = Some (replicate (length (TestCaseSets ts)) 0) /\
    (forall (k : nat) t t',
        tuples !! k = Some t -> tuples !! S k = Some t' ->
        advances (alternative_counts ts) t t').
Proof.
  intros Hok Hfuel.
  assert (Hrad : radices_ok (alternative_counts ts)).
  { unfold radices_ok, alternative_counts. by apply Forall_fmap. }
  destruct (run_counter_from_zero _ fuel Hrad Hfuel)
    as (tuples & Hrun & Hlen & Hnd & Hall & Hhd & Hsteps & Hlast).
  exists tuples. split; [done|]. split.
  - unfold GenerateTestSets. rewrite GenerateTestSets_counts_spec.
    by rewrite (GenerateTestSets_loop_spec ts _ _ _ [] _ _ Hrun Hall).
  - repeat split; try done.
    unfold alternative_counts in Hhd. by rewrite length_fmap in Hhd.
Qed.


(** *** The iterator, against the consumer that keeps every pair *)

Lemma Tests_cases_collect (tset : TestSet') :
  forall (rest : list TestCase') (i : nat) (seen : list (string * BuildFunc')),
    Tests_cases tset i rest collect seen
    = (true,
       seen ++ imap (fun k curcase =>
                       (emitted_name tset curcase,
                        mkBuildFunc (TestCases tset) (i + k) curcase)) rest).
Proof.
  induction rest as [|curcase rest IH]; intros i seen.
  - simpl. by rewrite app_nil_r.
  - simpl. rewrite IH, <- app_assoc. simpl. rewrite Nat.add_0_r.
    do 3 f_equal. apply imap_ext. intros k tc _. simpl. do 2 f_equal. lia.
Qed.

Lemma Tests_sets_collect :
  forall (testSets : list TestSet') (seen : list (string * BuildFunc')),
    Tests_sets testSets collect seen = (true, seen ++ (testSets ≫= pairs_of)).
Proof.
  induction testSets as [|tset testSets IH]; intros seen.
  - simpl. by rewrite app_nil_r.
  - simpl. rewrite Tests_cases_collect, IH, <- app_assoc. done.
Qed.

Lemma Tests_collect (ts : TestsBuilder') (fuel : nat) emitted :
  Tests fuel ts collect [] = Done emitted <->
  exists testSets,
    GenerateTestSets fuel ts = Done testSets /\ emitted = testSets ≫= pairs_of.
Proof.
  unfold Tests. destruct (GenerateTestSets fuel ts) as [testSets| |]; simpl.
  - rewrite Tests_sets_collect. simpl. split.
    + intros [= <-]. by exists testSets.
    + intros (testSets' & [= <-] & ->). done.
  - split; [done|]. by intros (? & ? & _).
  - split; [done|]. by intros (? & ? & _).
Qed.

(** Every build function the iterator emits is the one of a position of
    its path. *)
Lemma pairs_of_lookup (tset : TestSet') (k : nat) name (b : BuildFunc') :
  pairs_of tset !! k = Some (name, b) <->
  exists curcase,
    TestCases tset !! k = Some curcase /\
    name = emitted_name tset curcase /\
    b = mkBuildFunc (TestCases tset) k curcase.
Proof.
  unfold pairs_of. rewrite list_lookup_imap_Some. split.
  - intros (curcase & Hk & [= -> ->]). by exists curcase.
  - intros (curcase & Hk & -> & ->). by exists curcase.
Qed.

Lemma pairs_of_positions (tset : TestSet') :
  (fun p : string * BuildFunc' => captured_i p.2) <$> pairs_of tset
  = seq 0 (length (TestCases tset)).
Proof.
  unfold pairs_of. rewrite fmap_imap. simpl.
  apply list_eq. intros k. rewrite list_lookup_imap.
  destruct (TestCases tset !! k) as [tc|] eqn:Hk; simpl.
  - symmetry. apply lookup_seq. split; [done|]. by eapply lookup_lt_Some.
  - symmetry. apply lookup_ge_None. rewrite length_seq. by apply lookup_ge_None.
Qed.

Lemma selects_length (ts : TestsBuilder') indexes path :
  selects ts indexes path -> length path = length (TestCaseSets ts).
Proof.
  unfold selects. intros H. symmetry. by eapply Forall3_length_lr.
Qed.

End ExpansionProperties.

(** ** Names *)

Section NamingProperties.

Context {SUT STATE ASSERT T : Type}.
Context `{!GoZero SUT, !GoZero STATE, !GoZero ASSERT}.

Lemma pairs_of_names (tset : TestSet SUT STATE ASSERT T) :
  (pairs_of tset).*1 = emitted_name tset <$> TestCases tset.
Proof. unfold pairs_of. rewrite fmap_imap. simpl. apply imap_const. Qed.

Lemma emitted_name_labelled (ts : TestsBuilder SUT STATE ASSERT T) indexes curcase :
  indexes <> [] ->
  emitted_name (test_set_of ts true indexes) curcase
  = alternative_name (label_of indexes) (TestName curcase).
Proof.
  intros Hne. unfold emitted_name, test_set_of. simpl.
  destruct (String.eqb_spec (label_of indexes) "") as [Heq|_]; [|done].
  by destruct (label_of_nonempty indexes Hne).
Qed.

Lemma more_than_one_false (ts : TestsBuilder SUT STATE ASSERT T) :
  Forall (fun set => length (TestAlternatives set) = 1%nat) (TestCaseSets ts) ->
  more_than_one ts = false /\ product (alternative_counts ts) = 1.
Proof.
  intros Hall. split.
  - unfold more_than_one. apply bool_decide_eq_false. rewrite Exists_exists.
    intros (set & Hset & Hlt). rewrite Forall_forall in Hall.
    specialize (Hall set Hset). lia.
  - unfold alternative_counts, product.
    induction Hall as [|set sets Hset _ IH]; [done|].
    rewrite fmap_cons. simpl. rewrite IH, Hset. done.
Qed.

Lemma in_range_nonempty (ts : TestsBuilder SUT STATE ASSERT T) indexes :
  TestCaseSets ts <> [] -> in_range indexes (alternative_counts ts) -> indexes <> [].
Proof.
  intros Hne Hin ->. apply Forall2_nil_inv_l in Hin.
  unfold alternative_counts in Hin. apply fmap_nil_inv in Hin. done.
Qed.

Lemma singleton_of_head {A} (l : list A) (x : A) :
  length l = 1%nat -> head l = Some x -> l = [x].
Proof. destruct l as [|y [|z l]]; intros Hlen Hhd; simplify_eq/=; done. Qed.

Lemma more_than_one_false_inv (ts : TestsBuilder SUT STATE ASSERT T) :
  registry_ok ts -> more_than_one ts = false ->
  Forall (fun set => length (TestAlternatives set) = 1%nat) (TestCaseSets ts).
Proof.
  unfold registry_ok, more_than_one. intros Hok Hmore.
  apply bool_decide_eq_false in Hmore. rewrite Forall_forall in Hok.
  apply Forall_forall. intros set Hset. specialize (Hok set Hset).
  destruct (decide (1 < length (TestAlternatives set))%nat) as [Hlt|Hge]; [|lia].
  destruct Hmore. apply Exists_exists. by exists set.
Qed.

Lemma in_range_digits (ts : TestsBuilder SUT STATE ASSERT T) indexes :
  Forall (fun set => (length (TestAlternatives set) <= 10)%nat) (TestCaseSets ts) ->
  in_range indexes (alternative_counts ts) ->
  Forall (fun c => 0 <= c <= 9) indexes.
Proof.
  unfold in_range, alternative_counts. intros Hten Hin.
  apply Forall2_fmap_r in Hin. revert Hten.
  induction Hin as [|c set indexes sets Hc _ IH]; intros Hten; [constructor|].
  apply Forall_cons in Hten as [Hset Hten]. simpl in Hc.
  constructor; [lia|by apply IH].
Qed.

Lemma fmap_bind_list {A B C} (f : B -> C) (g : A -> list B) (l : list A) :
  f <$> (l ≫= g) = l ≫= (fun x => f <$> g x).
Proof.
  induction l as [|x l IH]; [done|].
  by rewrite !bind_cons, fmap_app, IH.
Qed.

#[local] Instance alternative_name_inj_r label : Inj (=) (=) (alternative_name label).
Proof.
  intros name1 name2 Heq. by destruct (alternative_name_inj label label name1 name2).
Qed.

(** The names emitted for the tuples of a registry are pairwise distinct
    when the tuples are, their indexes are single digits and the names
    registered along each path are distinct. *)
Lemma emitted_names_NoDup (ts : TestsBuilder SUT STATE ASSERT T) (tuples : list (list Z)) :
  registry_ok ts ->
  Forall (fun set => (length (TestAlternatives set) <= 10)%nat) (TestCaseSets ts) ->
  NoDup tuples ->
  Forall (fun t => in_range t (alternative_counts ts)) tuples ->
  Z.of_nat (length tuples) = product (alternative_counts ts) ->
  Forall (fun indexes => NoDup (TestName <$> path_of ts indexes)) tuples ->
  NoDup (tuples ≫= fun indexes =>
           (pairs_of (test_set_of ts (more_than_one ts) indexes)).*1).
Proof.
  intros Hok Hten Hnd Hall Hlen Hnames.
  rewrite Forall_forall in Hall. rewrite Forall_forall in Hnames.
  destruct (more_than_one ts) eqn:Hmore.
  - assert (Hne : TestCaseSets ts <> []).
    { intros Hnil. unfold more_than_one in Hmore. rewrite Hnil in Hmore.
      apply bool_decide_eq_true in Hmore. by apply Exists_nil in Hmore. }
    assert (Hname : forall indexes, indexes ∈ tuples ->
              (pairs_of (test_set_of ts true indexes)).*1
              = alternative_name (label_of indexes) <$> (TestName <$> path_of ts indexes)).
    { intros indexes Hin. rewrite pairs_of_names. simpl.
      rewrite <- list_fmap_compose. apply list_fmap_ext. intros k tc _. simpl.
      apply emitted_name_labelled. eapply in_range_nonempty; [done|]. by apply Hall. }
    apply NoDup_bind; [| |done].
    + intros indexes1 indexes2 name Hin1 Hin2 Hn1 Hn2.
      rewrite (Hname _ Hin1) in Hn1. rewrite (Hname _ Hin2) in Hn2.
      apply list_elem_of_fmap in Hn1 as (n1 & -> & _).
      apply list_elem_of_fmap in Hn2 as (n2 & Heq & _).
      pose proof (in_range_digits ts _ Hten (Hall _ Hin1)) as Hd1.
      pose proof (in_range_digits ts _ Hten (Hall _ Hin2)) as Hd2.
      apply alternative_name_inj in Heq as [Heq _].
      * by apply label_of_digits_inj.
      * rewrite !label_of_digits_length by done.
        pose proof (Forall2_length _ _ _ (Hall _ Hin1)).
        pose proof (Forall2_length _ _ _ (Hall _ Hin2)). congruence.
    + intros indexes Hin. rewrite (Hname _ Hin).
      apply (NoDup_fmap_2 _). by apply Hnames.
  - pose proof (more_than_one_false_inv ts Hok Hmore) as Hone.
    destruct (more_than_one_false ts Hone) as [_ Hprod].
    rewrite Hprod in Hlen.
    destruct tuples as [|indexes [|? ?]]; simpl in Hlen; try lia.
    rewrite bind_singleton, pairs_of_names. simpl.
    apply Hnames. by apply list_elem_of_here.
Qed.

End NamingProperties.

Lemma bind_ext_in {A B : Type} (f g : A -> list B) (l : list A) :
  Forall (fun x => f x = g x) l -> l ≫= f = l ≫= g.
Proof.
  induction 1 as [|x l Hx _ IH]; [done|].
  change ((x :: l) ≫= f) with (f x ++ (l ≫= f)).
  change ((x :: l) ≫= g) with (g x ++ (l ≫= g)).
  by rewrite Hx, IH.
Qed.

(** C7: when every set has exactly one alternative there is exactly one
    test set, it carries no label, and every emitted name is the registered
    [TestName] as it is; when some set has more than one alternative every
    test set carries the counter's label of its tuple and every emitted name
    is "Test Alternative #", the label, "_" and the registered name. *)
Theorem names_carry_the_label {SUT STATE ASSERT T : Type} `{!GoZero ASSERT}
    (ts : TestsBuilder SUT STATE ASSERT T) (fuel : nat) :
  registry_ok ts ->
  product (alternative_counts ts) <= Z.of_nat fuel ->
  (Forall (fun set => length (TestAlternatives set) = 1%nat) (TestCaseSets ts) ->
   exists path,
     selects ts (replicate (length (TestCaseSets ts)) 0) path /\
     GenerateTestSets fuel ts = Done [{| TestCases := path; TestSetName := "" |}] /\
     exists emitted,
       Tests fuel ts collect [] = Done emitted /\
       emitted.*1 = TestName <$> path) /\
  (Exists (fun set => (1 < length (TestAlternatives set))%nat) (TestCaseSets ts) ->
   exists tuples final emitted,
     run_counter fuel (NewCurrIndexes (alternative_counts ts)) = Done (tuples, final) /\
     GenerateTestSets fuel ts = Done (test_set_of ts true <$> tuples) /\
     Tests fuel ts collect [] = Done emitted /\
     emitted = (tuples ≫= fun indexes => pairs_of (test_set_of ts true indexes)) /\
     emitted.*1
     = (tuples ≫= fun indexes =>
          (fun testcase =>
             "Test Alternative #"
             +:+ IndexCounter_String (mkIndexCounter indexes (alternative_counts ts))
             +:+ "_" +:+ TestName testcase) <$> path_of ts indexes) /\
     Forall (fun indexes =>
               let tset := test_set_of ts true indexes in
               selects ts indexes (TestCases tset) /\
               TestCases tset = path_of ts indexes /\
               TestSetName tset
               = IndexCounter_String (mkIndexCounter indexes (alternative_counts ts)) /\
               TestSetName tset <> "" /\
               Forall (fun p =>
                         p.1 = "Test Alternative #"
                               +:+ IndexCounter_String
                                     (mkIndexCounter indexes (alternative_counts ts))
                               +:+ "_" +:+ TestName (captured_curcase p.2))
                      (pairs_of tset))
            tuples) /\
  Scenario.names 1 Scenario.abcd = Done ["1"; "2"; "3"; "4"] /\
  Scenario.names 4 Scenario.two_one_two
  = Done ["Test Alternative #000_a0"; "Test Alternative #000_b0";
          "Test Alternative #000_c0"; "Test Alternative #100_a1";
          "Test Alternative #100_b0"; "Test Alternative #100_c0";
          "Test Alternative #001_a0"; "Test Alternative #001_b0";
          "Test Alternative #001_c1"; "Test Alternative #101_a1";
          "Test Alternative #101_b0"; "Test Alternative #101_c1"].
Proof.
  intros Hok Hfuel.
  destruct (GenerateTestSets_spec ts fuel Hok Hfuel)
    as (tuples & Hrun & Hgen & Hlen & _ & Hall & Hhd & _).
  split; [|split; [|split; [done|done]]].
  - intros Hone. destruct (more_than_one_false ts Hone) as [Hmore Hprod].
    rewrite Hmore in Hgen. rewrite Hprod in Hlen.
    assert (tuples = [replicate (length (TestCaseSets ts)) 0]) as ->.
    { apply singleton_of_head; [lia|done]. }
    apply Forall_cons in Hall as [Hall _].
    destruct (path_of_spec ts _ Hall) as [_ Hsel].
    eexists. split; [exact Hsel|]. split; [exact Hgen|].
    eexists. split.
    + apply Tests_collect. eexists. split; [exact Hgen|done].
    + simpl. rewrite app_nil_r. by rewrite pairs_of_names.
  - intros Hex.
    assert (Hmore : more_than_one ts = true) by (by apply bool_decide_eq_true).
    rewrite Hmore in Hgen.
    assert (Hne : TestCaseSets ts <> []).
    { intros Hnil. rewrite Hnil in Hex. by apply Exists_nil in Hex. }
    assert (Hname : forall indexes testcase,
               in_range indexes (alternative_counts ts) ->
               emitted_name (test_set_of ts true indexes) testcase
               = "Test Alternative #"
                 +:+ IndexCounter_String (mkIndexCounter indexes (alternative_counts ts))
                 +:+ "_" +:+ TestName testcase).
    { intros indexes testcase Hin.
      rewrite emitted_name_labelled by (by eapply in_range_nonempty). done. }
    eexists tuples, _, _. split; [exact Hrun|]. split; [exact Hgen|]. split; [|split; [|split]].
    + apply Tests_collect. eexists. split; [exact Hgen|]. by rewrite list_fmap_bind.
    + done.
    + rewrite fmap_bind_list. apply bind_ext_in.
      eapply Forall_impl; [exact Hall|]. intros indexes Hin. simpl.
      rewrite pairs_of_names. simpl.
      apply list_fmap_ext. intros k testcase _. by apply Hname.
    + eapply Forall_impl; [exact Hall|]. intros indexes Hin. simpl.
      destruct (path_of_spec ts indexes Hin) as [_ Hsel].
      split; [done|]. split; [done|]. split; [done|]. split.
      * apply label_of_nonempty. by eapply in_range_nonempty.
      * apply Forall_forall. intros [name b] Hp.
        apply list_elem_of_lookup in Hp as [k Hk].
        apply pairs_of_lookup in Hk as (curcase & _ & -> & ->). simpl.
        by apply Hname.
Qed.

Lemma names_carry_the_label_witness :
  (exists path,
      selects Scenario.abcd (replicate (length (TestCaseSets Scenario.abcd)) 0) path /\
      GenerateTestSets 1 Scenario.abcd = Done [{| TestCases := path; TestSetName := "" |}] /\
      exists emitted,
        Tests 1 Scenario.abcd collect [] = Done emitted /\
        emitted.*1 = TestName <$> path) /\
  (exists tuples final emitted,
      run_counter 4 (NewCurrIndexes (alternative_counts Scenario.two_one_two))
        = Done (tuples, final) /\
      GenerateTestSets 4 Scenario.two_one_two
        = Done (test_set_of Scenario.two_one_two true <$> tuples) /\
      Tests 4 Scenario.two_one_two collect [] = Done emitted /\
      emitted.*1
      = (tuples ≫= fun indexes =>
           (fun testcase =>
              "Test Alternative #"
              +:+ IndexCounter_String
                    (mkIndexCounter indexes (alternative_counts Scenario.two_one_two))
              +:+ "_" +:+ TestName testcase) <$> path_of Scenario.two_one_two indexes)).
Proof.
  split.
  - refine (proj1 (names_carry_the_label Scenario.abcd 1 _ _) _).
    + unfold registry_ok. compute_done.
    + vm_compute. discriminate.
    + compute_done.
  - destruct (proj1 (proj2 (names_carry_the_label Scenario.two_one_two 4
                       ltac:(unfold registry_ok; compute_done)
                       ltac:(vm_compute; discriminate)))
                    ltac:(compute_done))
      as (tuples & final & emitted & H1 & H2 & H3 & _ & H4 & _).
    by exists tuples, final, emitted.
Defined.

(** ** The number of test sets *)

(** C5: the number of test sets [GenerateTestSets] returns is the product
    of the numbers of alternatives of the sets; sets of two, one and two
    alternatives give four test sets. *)
Theorem GenerateTestSets_count {SUT STATE ASSERT T : Type} `{!GoZero ASSERT}
    (ts : TestsBuilder SUT STATE ASSERT T) (fuel : nat) :
  registry_ok ts ->
  product (alternative_counts ts) <= Z.of_nat fuel ->
  (exists testSets,
      GenerateTestSets fuel ts = Done testSets /\
      Z.of_nat (length testSets) = product (alternative_counts ts)) /\
  (alternative_counts Scenario.two_one_two = [2; 1; 2] /\
   exists testSets,
     GenerateTestSets 4 Scenario.two_one_two = Done testSets /\
     length testSets = 4%nat).
Proof.
  intros Hok Hfuel. split.
  - destruct (GenerateTestSets_spec ts fuel Hok Hfuel)
      as (tuples & _ & Hgen & Hlen & _).
    eexists. split; [done|]. by rewrite length_fmap.
  - split; [done|]. eexists. split; [vm_compute; reflexivity|done].
Qed.

Lemma GenerateTestSets_count_witness :
  exists testSets,
    GenerateTestSets 4 Scenario.two_one_two = Done testSets /\
    Z.of_nat (length testSets) = product (alternative_counts Scenario.two_one_two).
Proof.
  refine (proj1 (GenerateTestSets_count Scenario.two_one_two 4 _ _)).
  - unfold registry_ok. compute_done.
  - vm_compute. discriminate.
Defined.

(** ** No set registered *)

(** C6 (amended): with no set registered, [GenerateTestSets] does not
    fail and returns one test set, which has no test case and no name; the
    iterator [Tests] does not fail either and never calls [yield], whatever
    the consumer. *)
Theorem no_sets_one_empty_test_set {SUT STATE ASSERT T C : Type}
    (fuel : nat) (yield : string -> BuildFunc SUT STATE ASSERT T -> C -> bool * C) (c : C) :
  GenerateTestSets (S fuel) (@mkTestsBuilder SUT STATE ASSERT T [])
    = Done [{| TestCases := []; TestSetName := "" |}] /\
  Tests (S fuel) (@mkTestsBuilder SUT STATE ASSERT T []) yield c = Done c /\
  Tests (S fuel) (@mkTestsBuilder SUT STATE ASSERT T []) collect [] = Done [].
Proof. by repeat split. Qed.

(** C6, as the specification words it, fails: with no set registered
    [GenerateTestSets] never returns an empty list of test sets. *)
Lemma no_sets_not_zero_test_sets :
  ~ exists fuel, GenerateTestSets fuel Scenario.empty_builder = Done [].
Proof. intros [[|fuel] H]; discriminate H. Qed.

(** ** The order of the iterator *)

(** C10: [Tests] emits its pairs combination by combination, in the order
    in which the counter visits the tuples, beginning with the all-zero tuple;
    for every tuple it emits one pair per position of the tuple's path, in
    increasing order of the position, before any pair of the next tuple. *)
Theorem Tests_combination_major {SUT STATE ASSERT T : Type} `{!GoZero ASSERT}
    (ts : TestsBuilder SUT STATE ASSERT T) (fuel : nat) :
  registry_ok ts ->
  product (alternative_counts ts) <= Z.of_nat fuel ->
  exists tuples final,
    run_counter fuel (NewCurrIndexes (alternative_counts ts)) = Done (tuples, final) /\
    head tuples = Some (replicate (length (TestCaseSets ts)) 0) /\
    Tests fuel ts collect []
      = Done (tuples ≫= fun indexes => pairs_of (test_set_of ts (more_than_one ts) indexes)) /\
    Forall (fun indexes =>
              let tset := test_set_of ts (more_than_one ts) indexes in
              selects ts indexes (TestCases tset) /\
              (fun p => captured_i p.2) <$> pairs_of tset
                = seq 0 (length (TestCaseSets ts)) /\
              forall (k : nat) name b,
                pairs_of tset !! k = Some (name, b) ->
                exists curcase,
                  TestCases tset !! k = Some curcase /\
                  name = emitted_name tset curcase /\
                  b = mkBuildFunc (TestCases tset) k curcase)
           tuples.
Proof.
  intros Hok Hfuel.
  destruct (GenerateTestSets_spec ts fuel Hok Hfuel)
    as (tuples & Hrun & Hgen & _ & _ & Hall & Hhd & _).
  eexists tuples, _. split; [done|]. split; [done|]. split.
  - apply Tests_collect. eexists. split; [done|]. by rewrite list_fmap_bind.
  - eapply Forall_impl; [exact Hall|]. intros indexes Hin. simpl.
    destruct (path_of_spec ts indexes Hin) as [_ Hsel].
    split; [done|]. split.
    + rewrite pairs_of_positions. simpl. by rewrite (selects_length _ _ _ Hsel).
    + intros k name b. by rewrite pairs_of_lookup.
Qed.

Lemma Tests_combination_major_witness :
  exists tuples final,
    run_counter 4 (NewCurrIndexes (alternative_counts Scenario.two_one_two))
      = Done (tuples, final) /\
    head tuples = Some (replicate (length (TestCaseSets Scenario.two_one_two)) 0) /\
    Tests 4 Scenario.two_one_two collect []
      = Done (tuples ≫= fun indexes =>
                pairs_of (test_set_of Scenario.two_one_two
                            (more_than_one Scenario.two_one_two) indexes)).
Proof.
  destruct (Tests_combination_major Scenario.two_one_two 4) as (tuples & final & H1 & H2 & H3 & _).
  - unfold registry_ok. compute_done.
  - vm_compute. discriminate.
  - by exists tuples, final.
Defined.

(** ** Uniqueness of names *)

(** C8 (amended): when the names registered along every path are pairwise
    distinct and no set has more than ten alternatives, the names the
    iterator emits are pairwise distinct over the whole enumeration. *)
Theorem emitted_names_unique {SUT STATE ASSERT T : Type} `{!GoZero ASSERT}
    (ts : TestsBuilder SUT STATE ASSERT T) (fuel : nat) :
  registry_ok ts ->
  product (alternative_counts ts) <= Z.of_nat fuel ->
  Forall (fun set => (length (TestAlternatives set) <= 10)%nat) (TestCaseSets ts) ->
  (forall testSets,
      GenerateTestSets fuel ts = Done testSets ->
      Forall (fun tset => NoDup (TestName <$> TestCases tset)) testSets) ->
  exists emitted,
    Tests fuel ts collect [] = Done emitted /\ NoDup emitted.*1.
Proof.
  intros Hok Hfuel Hten Hnames.
  destruct (GenerateTestSets_spec ts fuel Hok Hfuel)
    as (tuples & _ & Hgen & Hlen & Hnd & Hall & _).
  specialize (Hnames _ Hgen). rewrite Forall_fmap in Hnames.
  eexists. split.
  - apply Tests_collect. eexists. split; [exact Hgen|done].
  - rewrite list_fmap_bind, fmap_bind_list.
    by apply emitted_names_NoDup.
Qed.

Lemma emitted_names_unique_witness :
  exists emitted,
    Tests 4 Scenario.two_one_two collect [] = Done emitted /\ NoDup emitted.*1.
Proof.
  apply (emitted_names_unique Scenario.two_one_two 4).
  - unfold registry_ok. compute_done.
  - vm_compute. discriminate.
  - compute_done.
  - intros testSets H. vm_compute in H. injection H as <-. compute_done.
Defined.

(** C8, as the specification words it, fails: nothing keeps the registered
    names apart, and two sets registered under one name give one path with
    the same emitted name at both positions. *)
Lemma emitted_names_not_unique :
  ~ (forall (ts : Scenario.Builder) (fuel : nat) emitted,
        Tests fuel ts collect [] = Done emitted -> NoDup emitted.*1).
Proof.
  intros H.
  pose proof (H Scenario.same_name 1%nat _ eq_refl) as Hnd.
  vm_compute in Hnd. apply NoDup_cons in Hnd as [Hnot _].
  apply Hnot. apply list_elem_of_here.
Qed.

(** ** What a build function does *)

Section EmittedBuildFunctions.

Context {SUT STATE ASSERT T : Type}.
Context `{!GoZero SUT, !GoZero STATE, !GoZero ASSERT}.

(** Every pair the iterator emits belongs to a position of a generated
    test set. *)
Lemma emitted_lookup (ts : TestsBuilder SUT STATE ASSERT T) (fuel : nat)
    emitted (k : nat) name (b : BuildFunc SUT STATE ASSERT T) :
  Tests fuel ts collect [] = Done emitted ->
  emitted !! k = Some (name, b) ->
  exists testSets tset (i : nat) curcase,
    GenerateTestSets fuel ts = Done testSets /\
    tset ∈ testSets /\
    TestCases tset !! i = Some curcase /\
    name = emitted_name tset curcase /\
    b = mkBuildFunc (TestCases tset) i curcase.
Proof.
  intros Htests Hk.
  apply Tests_collect in Htests as (testSets & Hgen & ->).
  apply list_elem_of_lookup_2 in Hk.
  apply list_elem_of_bind in Hk as (tset & Hp & Htset).
  apply list_elem_of_lookup in Hp as [i Hi].
  apply pairs_of_lookup in Hi as (curcase & Hi & -> & ->).
  by exists testSets, tset, i, curcase.
Qed.

Lemma replay_calls_allowed (path : list (TestCase SUT STATE ASSERT T)) (i : nat) :
  Forall (allowed_call i) (replay_calls path i) /\
  (length (filter (fun c => is_SpecificBuilderCall c = true) (replay_calls path i)) <= 1)%nat.
Proof.
  unfold replay_calls. split.
  - apply Forall_app. split.
    + apply Forall_fmap, Forall_forall. intros j Hj. simpl.
      apply list_elem_of_filter in Hj as [_ Hj]. apply elem_of_seq in Hj. lia.
    + destruct (path !! i) as [tc|]; [|constructor].
      destruct (SpecificBuilder tc); repeat constructor.
  - rewrite filter_app, length_app.
    assert (Hnone : forall l : list nat,
               filter (fun c => is_SpecificBuilderCall c = true) (StateBuilderCall <$> l) = []).
    { induction l as [|j l IH]; [done|].
      rewrite fmap_cons, filter_cons_False by done. exact IH. }
    rewrite Hnone. simpl.
    destruct (path !! i) as [tc|]; [|simpl; lia].
    destruct (SpecificBuilder tc); simpl; lia.
Qed.


End EmittedBuildFunctions.

(** C1: the build function of a position [i] of a generated path starts
    from a fresh zero-valued system under test and a fresh zero-valued state,
    calls the cumulative setups of positions 0 to [i] in increasing order,
    skipping the absent ones, then the one-shot setup of position [i] once if
    there is one, and returns the two values with the assertion of position
    [i]; every call of the build function replays all of it.  Four sets whose
    cumulative setups append a, b, c and d give a, ab, abc and abcd. *)
Theorem build_replays_the_setups {SUT STATE ASSERT T : Type}
    `{!GoZero SUT, !GoZero STATE, !GoZero ASSERT}
    (ts : TestsBuilder SUT STATE ASSERT T) (fuel : nat)
    emitted (k : nat) name (b : BuildFunc SUT STATE ASSERT T)
    (t : T) (s : Machine SUT STATE) :
  Tests fuel ts collect [] = Done emitted ->
  emitted !! k = Some (name, b) ->
  (let path := captured_testCases b in
   let i := captured_i b in
   let ps := length (sutCells (mem s)) in
   let pst := length (stateCells (mem s)) in
   let m' := replay path i t ps pst
               {| sutCells := sutCells (mem s) ++ [zero_value];
                  stateCells := stateCells (mem s) ++ [zero_value] |} in
   (exists testSets tset,
       GenerateTestSets fuel ts = Done testSets /\ tset ∈ testSets /\
       TestCases tset = path) /\
   path !! i = Some (captured_curcase b) /\
   build b t s =
     ({| Sut := read_sut m' ps; State := read_state m' pst;
         Assert := Assertion (captured_curcase b) |},
      {| mem := m'; calls := calls s ++ replay_calls path i |})) /\
  Scenario.suts 1 Scenario.abcd = Done ["a"; "ab"; "abc"; "abcd"].
Proof.
  intros Htests Hk. split; [|done].
  destruct (emitted_lookup ts fuel emitted k name b Htests Hk)
    as (testSets & tset & i & curcase & Hgen & Htset & Hi & _ & ->).
  simpl. split; [by exists testSets, tset|]. split; [done|].
  by apply build_spec.
Qed.

Lemma build_replays_the_setups_witness :
  Sut (build (mkBuildFunc (TestCases Scenario.abcd_test_set) 2 (Scenario.abcd_case "3" "c"))
         tt Scenario.empty_machine).1 = "abc".
Proof.
  assert (H1 : Tests 1 Scenario.abcd collect [] = Done (pairs_of Scenario.abcd_test_set))
    by (vm_compute; reflexivity).
  assert (H2 : pairs_of Scenario.abcd_test_set !! 2%nat
               = Some ("3", mkBuildFunc (TestCases Scenario.abcd_test_set) 2
                                        (Scenario.abcd_case "3" "c")))
    by reflexivity.
  destruct (build_replays_the_setups Scenario.abcd 1 _ 2 _ _ tt Scenario.empty_machine H1 H2)
    as [(_ & _ & Hb) _].
  rewrite Hb. reflexivity.
Defined.

(** C2: a call of the build function of position [i] calls no cumulative
    setup of a position beyond [i] and no one-shot setup but that of position
    [i], and that one at most once.  With a one-shot setup on the third of the
    four sets that overwrites the value with "-", position 2 gives "-" and
    position 3 gives a value without it. *)
Theorem build_calls_nothing_else {SUT STATE ASSERT T : Type}
    `{!GoZero SUT, !GoZero STATE, !GoZero ASSERT}
    (ts : TestsBuilder SUT STATE ASSERT T) (fuel : nat)
    emitted (k : nat) name (b : BuildFunc SUT STATE ASSERT T)
    (t : T) (s : Machine SUT STATE) :
  Tests fuel ts collect [] = Done emitted ->
  emitted !! k = Some (name, b) ->
  (exists made,
      calls (build b t s).2 = calls s ++ made /\
      Forall (allowed_call (captured_i b)) made /\
      (length (filter (fun c => is_SpecificBuilderCall c = true) made) <= 1)%nat) /\
  (exists sut0 sut1 sut2 sut3,
      Scenario.suts 1 Scenario.abcd_sentinel = Done [sut0; sut1; sut2; sut3] /\
      sut2 = "-" /\
      String.index 0 "-" sut3 = None).
Proof.
  intros Htests Hk. split.
  - destruct (emitted_lookup ts fuel emitted k name b Htests Hk)
      as (testSets & tset & i & curcase & _ & _ & Hi & _ & ->).
    rewrite (build_spec _ _ _ t s Hi). simpl.
    eexists. split; [done|]. apply replay_calls_allowed.
  - by exists "a", "ab", "-", "abcd".
Qed.

Lemma build_calls_nothing_else_witness :
  exists made,
    calls (build (mkBuildFunc (TestCases Scenario.abcd_test_set) 2 (Scenario.abcd_case "3" "c"))
             tt Scenario.empty_machine).2 = [] ++ made /\
    Forall (allowed_call 2) made.
Proof.
  assert (H1 : Tests 1 Scenario.abcd collect [] = Done (pairs_of Scenario.abcd_test_set))
    by (vm_compute; reflexivity).
  assert (H2 : pairs_of Scenario.abcd_test_set !! 2%nat
               = Some ("3", mkBuildFunc (TestCases Scenario.abcd_test_set) 2
                                        (Scenario.abcd_case "3" "c")))
    by reflexivity.
  destruct (build_calls_nothing_else Scenario.abcd 1 _ 2 _ _ tt Scenario.empty_machine H1 H2)
    as [(made & Hc & Hall & _) _].
  by exists made.
Defined.

(** ** Registering alternatives *)

(** C9: [RegisterAlternative] adds a new test case at the end of the set
    registered last and returns the handle of the new test case, which bears
    the given name and has no setup and the zero assertion; on a builder with
    no set it panics with the documented message and leaves the builder as it
    was. *)
Theorem RegisterAlternative_appends_or_panics {SUT STATE ASSERT T : Type} `{!GoZero ASSERT}
    (ts : TestsBuilder SUT STATE ASSERT T) (name : string) :
  (TestCaseSets ts = [] ->
   RegisterAlternative name ts
   = (Panic ("Cannot create alternative '" +:+ name +:+
             "', since no test is registered yet. Please Use builder.Register(name) first, before defining alternatives"),
      ts)) /\
  (forall sets latest,
      TestCaseSets ts = sets ++ [latest] ->
      let added := {| TestName := name; StateBuilder := None; SpecificBuilder := None;
                      Assertion := zero_value |} in
      let h := (length sets, length (TestAlternatives latest)) in
      let ts' := {| TestCaseSets :=
                      sets ++ [{| TestAlternatives := TestAlternatives latest ++ [added] |}] |} in
      RegisterAlternative name ts = (Done h, ts') /\
      deref ts' h = Some added /\
      TestName <$> deref ts' h = Some name) /\
  (forall first,
      RegisterAlternative name (Register first ts).2
      = (Done (length (TestCaseSets ts), 1%nat),
         {| TestCaseSets :=
              TestCaseSets ts
              ++ [{| TestAlternatives :=
                       [ {| TestName := first; StateBuilder := None;
                            SpecificBuilder := None; Assertion := zero_value |};
                         {| TestName := name; StateBuilder := None;
                            SpecificBuilder := None; Assertion := zero_value |} ] |}] |})) /\
  RegisterAlternative_message "variantA"
  = "Cannot create alternative 'variantA', since no test is registered yet. Please Use builder.Register(name) first, before defining alternatives".
Proof.
  assert (Hlast : forall (sets : list (TestCaseSet SUT STATE ASSERT T)) latest,
             RegisterAlternative name {| TestCaseSets := sets ++ [latest] |}
             = (Done (length sets, length (TestAlternatives latest)),
                {| TestCaseSets :=
                     sets ++ [{| TestAlternatives :=
                                   TestAlternatives latest ++ [new_TestCase name] |}] |})).
  { intros sets latest. unfold RegisterAlternative. simpl.
    rewrite length_app. simpl.
    destruct (decide (length sets + 1 = 0)%nat) as [Hz|_]; [lia|].
    replace (length sets + 1 - 1)%nat with (length sets) by lia.
    rewrite lookup_app_r, Nat.sub_diag by lia. simpl.
    rewrite insert_app_r_alt, Nat.sub_diag by lia. done. }
  split; [|split; [|split]].
  - intros Hnil. unfold RegisterAlternative. rewrite Hnil. done.
  - intros sets latest Hsets. simpl. destruct ts as [sets0]. simpl in Hsets. subst sets0.
    split; [apply Hlast|].
    unfold deref. simpl. rewrite lookup_app_r, Nat.sub_diag by lia. simpl.
    rewrite lookup_app_r, Nat.sub_diag by lia. done.
  - intros first. unfold Register. simpl. apply Hlast.
  - done.
Qed.

Lemma RegisterAlternative_appends_or_panics_witness :
  RegisterAlternative "variantA" Scenario.empty_builder
    = (Panic "Cannot create alternative 'variantA', since no test is registered yet. Please Use builder.Register(name) first, before defining alternatives",
       Scenario.empty_builder) /\
  RegisterAlternative "variantA" (Register "stage1" Scenario.empty_builder).2
    = (Done (0%nat, 1%nat),
       {| TestCaseSets :=
            [] ++ [{| TestAlternatives :=
                        [ {| TestName := "stage1"; StateBuilder := None;
                             SpecificBuilder := None; Assertion := tt |} ]
                        ++ [ {| TestName := "variantA"; StateBuilder := None;
                                SpecificBuilder := None; Assertion := tt |} ] |}] |}) /\
  TestName <$> deref (RegisterAlternative "variantA"
                        (Register "stage1" Scenario.empty_builder).2).2 (0%nat, 1%nat)
  = Some "variantA".
Proof.
  split; [|split].
  - exact (proj1 (RegisterAlternative_appends_or_panics Scenario.empty_builder "variantA")
                 eq_refl).
  - exact (proj1 (proj1 (proj2 (RegisterAlternative_appends_or_panics
                                  (Register "stage1" Scenario.empty_builder).2 "variantA"))
                        [] {| TestAlternatives := [new_TestCase "stage1"] |} eq_refl)).
  - exact (proj2 (proj2 (proj1 (proj2 (RegisterAlternative_appends_or_panics
                                  (Register "stage1" Scenario.empty_builder).2 "variantA"))
                        [] {| TestAlternatives := [new_TestCase "stage1"] |} eq_refl))).
Defined.

(** * Further properties of the code *)

(** ** The counter *)

Lemma lowest_free_at_max alts : lowest_free (Z.pred <$> alts) alts = None.
Proof.
  induction alts as [|r alts IH]; [done|].
  rewrite fmap_cons. simpl. rewrite IH.
  destruct (Z.pred r <? r - 1) eqn:Hlt; [apply Z.ltb_lt in Hlt; lia|done].
Qed.

Lemma rank_inj alts : forall t1 t2,
  in_range t1 alts -> in_range t2 alts -> rank t1 alts = rank t2 alts -> t1 = t2.
Proof.
  unfold in_range. intros t1 t2 H1. revert t2.
  induction H1 as [|c1 r t1 alts Hc1 H1 IH]; intros t2 H2 Heq.
  - by apply Forall2_nil_inv_r in H2.
  - apply Forall2_cons_inv_r in H2 as (c2 & t2' & Hc2 & H2 & ->).
    simpl in Heq.
    assert (Hrk : rank t1 alts = rank t2' alts).
    { destruct (Z.lt_trichotomy (rank t1 alts) (rank t2' alts)) as [Hlt|[Hlt|Hlt]];
        [exfalso|done|exfalso].
      - assert (r * (rank t2' alts - rank t1 alts) >= r) by nia. lia.
      - assert (r * (rank t1 alts - rank t2' alts) >= r) by nia. lia. }
    rewrite Hrk in Heq. assert (c1 = c2) as -> by lia.
    f_equal. by apply IH.
Qed.

(** The tuples the counter visits from zero: their ranks are 0, 1, ... up
    to the product of the radices, excluded. *)
Lemma run_counter_ranks (alts : list Z) (fuel : nat) :
  radices_ok alts -> product alts <= Z.of_nat fuel ->
  exists tuples,
    run_counter fuel (NewCurrIndexes alts)
      = Done (tuples, mkIndexCounter (Z.pred <$> alts) alts) /\
    (fun t => rank t alts) <$> tuples = seqZ 0 (product alts) /\
    Forall (fun t => in_range t alts) tuples.
Proof.
  intros Hok Hfuel. rewrite NewCurrIndexes_zero.
  pose proof (zero_in_range _ Hok) as Hzero.
  destruct (run_counter_counts_up alts fuel _ Hok Hzero) as (tuples & Hrun & Hup).
  { rewrite rank_zero. lia. }
  destruct (counts_up_facts _ _ _ Hzero Hup) as (Hranks & Hall & _).
  rewrite rank_zero, Z.sub_0_r in Hranks. by exists tuples.
Qed.

Lemma run_counter_complete (alts : list Z) (fuel : nat) :
  radices_ok alts -> product alts <= Z.of_nat fuel ->
  exists tuples,
    run_counter fuel (NewCurrIndexes alts)
      = Done (tuples, mkIndexCounter (Z.pred <$> alts) alts) /\
    NoDup tuples /\
    forall t, t ∈ tuples <-> in_range t alts.
Proof.
  intros Hok Hfuel.
  destruct (run_counter_ranks alts fuel Hok Hfuel) as (tuples & Hrun & Hranks & Hall).
  exists tuples. split; [done|]. split.
  - apply (NoDup_fmap_1 (fun t => rank t alts)). rewrite Hranks. apply NoDup_seqZ.
  - intros t. split.
    + intros Ht. rewrite Forall_forall in Hall. by apply Hall.
    + intros Hin. pose proof (rank_bounds _ _ Hin) as Hb.
      assert (Hmem : rank t alts ∈ (fun t => rank t alts) <$> tuples).
      { rewrite Hranks. apply elem_of_seqZ. lia. }
      apply list_elem_of_fmap in Hmem as (t' & Heq & Ht').
      rewrite Forall_forall in Hall.
      by rewrite (rank_inj alts t t' Hin (Hall _ Ht') Heq).
Qed.

(** X1: on a tuple in range [AddOne] does not panic, keeps the radices and
    keeps the tuple in range.  It reports done exactly when every index is at
    its radix minus one, and then leaves the tuple as it is; otherwise the new
    tuple is the next one in mixed-radix order. *)
Theorem AddOne_keeps_the_tuple_in_range (cur alts : list Z) :
  Forall (fun r => 1 <= r <= int_max) alts ->
  in_range cur alts ->
  exists cur' isDone,
    AddOne (mkIndexCounter cur alts) = Done (mkIndexCounter cur' alts, isDone) /\
    in_range cur' alts /\
    (isDone = true <-> cur = Z.pred <$> alts) /\
    (isDone = true -> cur' = cur) /\
    (isDone = false -> rank cur' alts = rank cur alts + 1 /\ advances alts cur cur').
Proof.
  intros Hok Hin. rewrite (AddOne_spec cur alts Hok Hin).
  destruct (lowest_free cur alts) as [p|] eqn:Hp.
  - destruct (lowest_free_lt _ _ _ Hp) as [Hpc _].
    destruct (lookup_lt_is_Some_2 _ _ Hpc) as [c Hc]. rewrite Hc.
    destruct (bump_spec _ _ _ _ Hin Hp Hc) as [Hin' Hrk].
    exists (bump p c cur), false. split; [done|]. split; [done|]. split; [|split].
    + split; [done|]. intros ->. by rewrite lowest_free_at_max in Hp.
    + done.
    + intros _. split; [done|]. by apply bump_advances.
  - destruct (lowest_free_None _ _ Hin Hp) as [Heq _].
    exists cur, true. by repeat split.
Qed.

Lemma AddOne_keeps_the_tuple_in_range_witness :
  exists cur' isDone,
    AddOne (mkIndexCounter [0; 2; 0; 0] [1; 3; 1; 2])
      = Done (mkIndexCounter cur' [1; 3; 1; 2], isDone) /\
    in_range cur' [1; 3; 1; 2].
Proof.
  destruct (AddOne_keeps_the_tuple_in_range [0; 2; 0; 0] [1; 3; 1; 2])
    as (cur' & isDone & H1 & H2 & _).
  - repeat constructor; unfold int_max; lia.
  - repeat constructor; lia.
  - by exists cur', isDone.
Defined.

(** X2: driven from zero until it reports done, the counter visits every
    tuple in range, each exactly once, and nothing else. *)
Theorem counter_visits_every_tuple_once (alts : list Z) (fuel : nat) :
  Forall (fun r => 1 <= r <= int_max) alts ->
  product alts <= Z.of_nat fuel ->
  exists tuples final,
    run_counter fuel (NewCurrIndexes alts) = Done (tuples, final) /\
    NoDup tuples /\
    forall t, t ∈ tuples <-> Forall2 (fun c r => 0 <= c < r) t alts.
Proof.
  intros Hok Hfuel.
  destruct (run_counter_complete alts fuel Hok Hfuel) as (tuples & Hrun & Hnd & Hall).
  by exists tuples, (mkIndexCounter (Z.pred <$> alts) alts).
Qed.

Lemma counter_visits_every_tuple_once_witness :
  exists tuples final,
    run_counter 6 (NewCurrIndexes [2; 3]) = Done (tuples, final) /\
    NoDup tuples /\
    forall t, t ∈ tuples <-> Forall2 (fun c r => 0 <= c < r) t [2; 3].
Proof.
  apply (counter_visits_every_tuple_once [2; 3] 6).
  - repeat constructor; unfold int_max; lia.
  - vm_compute. discriminate.
Defined.

(** X3: when every index is a single digit, [String] writes one character
    per index and two tuples with the same label are the same tuple. *)
Theorem String_distinguishes_single_digit_tuples (t1 t2 a1 a2 : list Z) :
  Forall (fun c => 0 <= c <= 9) t1 ->
  Forall (fun c => 0 <= c <= 9) t2 ->
  String.length (IndexCounter_String (mkIndexCounter t1 a1)) = length t1 /\
  (IndexCounter_String (mkIndexCounter t1 a1) = IndexCounter_String (mkIndexCounter t2 a2) ->
   t1 = t2).
Proof.
  intros H1 H2. split.
  - apply (label_of_digits_length t1 H1).
  - intros Heq. by apply label_of_digits_inj.
Qed.

Lemma String_distinguishes_single_digit_tuples_witness :
  String.length (IndexCounter_String (mkIndexCounter [0; 2; 0; 1] [1; 3; 1; 2])) = 4%nat.
Proof.
  refine (proj1 (String_distinguishes_single_digit_tuples
                   [0; 2; 0; 1] [0; 0; 0; 0] [1; 3; 1; 2] [1; 3; 1; 2] _ _));
    repeat constructor; lia.
Defined.

(** X4: [String] puts nothing between the indexes, so tuples with an index
    of two digits share their label with another tuple: a digit [a] followed
    by the index [10 + b] reads as the index [10 * a + 1] followed by [b]. *)
Theorem String_confuses_two_digit_indexes (a b : Z) (rest alts : list Z) :
  1 <= a <= 9 -> 0 <= b <= 9 ->
  IndexCounter_String (mkIndexCounter (a :: 10 + b :: rest) alts)
  = IndexCounter_String (mkIndexCounter (10 * a + 1 :: b :: rest) alts) /\
  a :: 10 + b :: rest <> 10 * a + 1 :: b :: rest.
Proof.
  intros Ha Hb. split.
  - rewrite !(IndexCounter_String_cons _ _ alts alts), <- !append_assoc. f_equal.
    assert (a = 1 \/ a = 2 \/ a = 3 \/ a = 4 \/ a = 5 \/
            a = 6 \/ a = 7 \/ a = 8 \/ a = 9) as Hca by lia.
    assert (b = 0 \/ b = 1 \/ b = 2 \/ b = 3 \/ b = 4 \/
            b = 5 \/ b = 6 \/ b = 7 \/ b = 8 \/ b = 9) as Hcb by lia.
    clear Ha Hb.
    repeat (destruct Hca as [->|Hca]);
      repeat (destruct Hcb as [->|Hcb]); subst; reflexivity.
  - intros [= Heq _]. lia.
Qed.

Lemma String_confuses_two_digit_indexes_witness :
  IndexCounter_String (mkIndexCounter [1; 10] [12; 11])
  = IndexCounter_String (mkIndexCounter [11; 0] [12; 11]).
Proof.
  refine (proj1 (String_confuses_two_digit_indexes 1 0 [] [12; 11] _ _)); lia.
Defined.

(** ** The iterator and its consumers *)

Section IteratorProperties.

Context {SUT STATE ASSERT T : Type}.
Context `{!GoZero SUT, !GoZero STATE, !GoZero ASSERT}.

Lemma feed_app {C : Type} (l1 l2 : list (string * BuildFunc SUT STATE ASSERT T))
    (yield : string -> BuildFunc SUT STATE ASSERT T -> C -> bool * C) (c : C) :
  feed (l1 ++ l2) yield c
  = if (feed l1 yield c).1 then feed l2 yield (feed l1 yield c).2
    else (false, (feed l1 yield c).2).
Proof.
  revert c. induction l1 as [|[name b] l1 IH]; intros c; [done|].
  simpl. destruct (yield name b c) as [[|] c']; [apply IH|done].
Qed.

Lemma feed_stopped {C : Type} (l : list (string * BuildFunc SUT STATE ASSERT T))
    (yield : string -> BuildFunc SUT STATE ASSERT T -> C -> bool * C) (c : C) :
  (feed l yield c).1 = false -> feed l yield c = (false, (feed l yield c).2).
Proof. destruct (feed l yield c) as [[|] c']; simpl; by intros. Qed.

Lemma Tests_cases_feed {C : Type} (tset : TestSet SUT STATE ASSERT T)
    (yield : string -> BuildFunc SUT STATE ASSERT T -> C -> bool * C) :
  forall (rest : list (TestCase SUT STATE ASSERT T)) (i : nat) (c : C),
    Tests_cases tset i rest yield c
    = feed (imap (fun k curcase =>
                    (emitted_name tset curcase,
                     mkBuildFunc (TestCases tset) (i + k) curcase)) rest) yield c.
Proof.
  induction rest as [|curcase rest IH]; intros i c; [done|].
  simpl. rewrite Nat.add_0_r. fold (emitted_name tset curcase).
  destruct (yield _ _ c) as [[|] c']; [|done].
  rewrite IH. f_equal. apply imap_ext. intros k tc _. simpl. do 2 f_equal. lia.
Qed.

Lemma Tests_sets_feed {C : Type}
    (yield : string -> BuildFunc SUT STATE ASSERT T -> C -> bool * C) :
  forall (testSets : list (TestSet SUT STATE ASSERT T)) (c : C),
    Tests_sets testSets yield c = feed (testSets ≫= pairs_of) yield c.
Proof.
  induction testSets as [|tset testSets IH]; intros c; [done|].
  rewrite bind_cons, feed_app. cbn [Tests_sets]. rewrite Tests_cases_feed.
  change (imap _ (TestCases tset)) with (pairs_of tset).
  destruct (feed (pairs_of tset) yield c) as [[|] c'] eqn:Hfeed; simpl; [apply IH|done].
Qed.

Lemma feed_collect_upto (n : nat) :
  forall (l seen : list (string * BuildFunc SUT STATE ASSERT T)),
    (length seen < n)%nat ->
    (feed l (collect_upto n) seen).2 = seen ++ take (n - length seen) l.
Proof.
  induction l as [|[name b] l IH]; intros seen Hlen.
  - simpl. by rewrite take_nil, app_nil_r.
  - simpl. replace (n - length seen)%nat with (S (n - length seen - 1)) by lia.
    simpl. destruct (bool_decide (length seen + 1 < n)%nat) eqn:Hmore.
    + apply bool_decide_eq_true in Hmore.
      rewrite IH by (rewrite length_app; simpl; lia).
      rewrite length_app, <- app_assoc. simpl. do 3 f_equal. lia.
    + apply bool_decide_eq_false in Hmore. simpl.
      replace (n - length seen - 1)%nat with 0%nat by lia. by rewrite take_0.
Qed.

Lemma length_bind_const {A B : Type} (f : A -> list B) (n : nat) (l : list A) :
  Forall (fun x => length (f x) = n) l -> length (l ≫= f) = (length l * n)%nat.
Proof.
  induction 1 as [|x l Hx _ IH]; [done|].
  rewrite bind_cons, length_app, Hx, IH. simpl. lia.
Qed.

Lemma length_pairs_of (tset : TestSet SUT STATE ASSERT T) :
  length (pairs_of tset) = length (TestCases tset).
Proof. unfold pairs_of. apply length_imap. Qed.

(** The first tuple already fails when some set has no alternative. *)
Lemma GenerateTestSets_pick_empty_set :
  forall (rest : list (TestCaseSet SUT STATE ASSERT T)) (ipre : list Z)
         (acc : list (TestCase SUT STATE ASSERT T)),
    Exists (fun set => TestAlternatives set = []) rest ->
    GenerateTestSets_pick (ipre ++ replicate (length rest) 0) (length ipre) rest acc
    = Panic index_out_of_range.
Proof.
  induction rest as [|set rest IH]; intros ipre acc Hex.
  - by apply Exists_nil in Hex.
  - simpl. rewrite lookup_app_r by lia. rewrite Nat.sub_diag. simpl.
    unfold go_index. simpl.
    destruct (TestAlternatives set) as [|tc alternatives] eqn:Hset; [done|].
    simpl. apply Exists_cons in Hex as [Hex|Hex]; [congruence|].
    specialize (IH (ipre ++ [0]) (acc ++ [tc]) Hex).
    rewrite length_app, <- app_assoc in IH. simpl in IH.
    by rewrite Nat.add_1_r in IH.
Qed.

Lemma selects_lookup (ts : TestsBuilder SUT STATE ASSERT T) indexes path (j : nat) set c :
  selects ts indexes path ->
  TestCaseSets ts !! j = Some set -> indexes !! j = Some c ->
  path !! j = TestAlternatives set !! Z.to_nat c.
Proof.
  unfold selects. intros Hsel Hset Hc.
  destruct (Forall3_lookup_l _ _ _ _ _ _ Hsel Hset) as (c' & tc & Hc' & Htc & _ & Hlook).
  rewrite Hc in Hc'. injection Hc' as <-. by rewrite Htc, Hlook.
Qed.

End IteratorProperties.

(** X5: a set without alternatives, which only a hand-made registry can
    have, makes [GenerateTestSets] panic on its first tuple with an index out
    of range. *)
Theorem GenerateTestSets_panics_on_a_set_without_alternatives
    {SUT STATE ASSERT T : Type} (ts : TestsBuilder SUT STATE ASSERT T) (fuel : nat) :
  Exists (fun set => TestAlternatives set = []) (TestCaseSets ts) ->
  GenerateTestSets (S fuel) ts = Panic index_out_of_range /\
  forall (C : Type) (yield : string -> BuildFunc SUT STATE ASSERT T -> C -> bool * C) (c : C),
    Tests (S fuel) ts yield c = Panic index_out_of_range.
Proof.
  intros Hex.
  assert (Hgen : GenerateTestSets (S fuel) ts = Panic index_out_of_range).
  { unfold GenerateTestSets. rewrite GenerateTestSets_counts_spec, NewCurrIndexes_zero.
    pose proof (GenerateTestSets_pick_empty_set (TestCaseSets ts) [] [] Hex) as Hpick.
    simpl in Hpick. simpl. unfold alternative_counts. rewrite length_fmap.
    by rewrite Hpick. }
  split; [done|]. intros C yield c. unfold Tests. by rewrite Hgen.
Qed.

Lemma GenerateTestSets_panics_on_a_set_without_alternatives_witness :
  GenerateTestSets 1
    (@mkTestsBuilder string Z unit unit
       [ {| TestAlternatives := [new_TestCase "a"] |}; {| TestAlternatives := [] |} ])
  = Panic index_out_of_range.
Proof.
  refine (proj1 (GenerateTestSets_panics_on_a_set_without_alternatives _ 0 _)).
  apply Exists_cons_tl, Exists_cons_hd. reflexivity.
Defined.

(** X6: every alternative of every set is part of some generated test set,
    at the position of its set. *)
Theorem every_alternative_is_generated {SUT STATE ASSERT T : Type}
    (ts : TestsBuilder SUT STATE ASSERT T) (fuel : nat)
    (j : nat) set (k : nat) testcase :
  registry_ok ts ->
  product (alternative_counts ts) <= Z.of_nat fuel ->
  TestCaseSets ts !! j = Some set ->
  TestAlternatives set !! k = Some testcase ->
  exists testSets tset,
    GenerateTestSets fuel ts = Done testSets /\
    tset ∈ testSets /\
    TestCases tset !! j = Some testcase.
Proof.
  intros Hok Hfuel Hset Hk.
  assert (Hrad : radices_ok (alternative_counts ts)).
  { unfold radices_ok, alternative_counts. by apply Forall_fmap. }
  destruct (run_counter_complete _ fuel Hrad Hfuel) as (tuples & Hrun & _ & Hmem).
  assert (Hall : Forall (fun t => in_range t (alternative_counts ts)) tuples).
  { apply Forall_forall. intros t Ht. by apply Hmem. }
  pose (indexes := <[j := Z.of_nat k]> (replicate (length (alternative_counts ts)) 0)).
  assert (Hin : in_range indexes (alternative_counts ts)).
  { unfold indexes, in_range.
    rewrite <- (list_insert_id (alternative_counts ts) j
                  (Z.of_nat (length (TestAlternatives set)))) at 2.
    - apply Forall2_insert; [by apply zero_in_range|].
      apply lookup_lt_Some in Hk. lia.
    - unfold alternative_counts. by rewrite list_lookup_fmap, Hset. }
  destruct (path_of_spec ts indexes Hin) as [_ Hsel].
  exists (test_set_of ts (more_than_one ts) <$> tuples),
         (test_set_of ts (more_than_one ts) indexes).
  split; [|split].
  - unfold GenerateTestSets. rewrite GenerateTestSets_counts_spec.
    by rewrite (GenerateTestSets_loop_spec ts _ _ _ [] _ _ Hrun Hall).
  - apply list_elem_of_fmap. exists indexes. split; [done|]. by apply Hmem.
  - simpl. rewrite (selects_lookup ts indexes _ j set (Z.of_nat k) Hsel Hset).
    + by rewrite Nat2Z.id.
    + unfold indexes. apply list_lookup_insert_eq. rewrite length_replicate.
      unfold alternative_counts. rewrite length_fmap. by eapply lookup_lt_Some.
Qed.

Lemma every_alternative_is_generated_witness :
  exists testSets tset,
    GenerateTestSets 4 Scenario.two_one_two = Done testSets /\
    tset ∈ testSets /\
    TestCases tset !! 2%nat = Some (new_TestCase "c1").
Proof.
  apply (every_alternative_is_generated Scenario.two_one_two 4 2
           {| TestAlternatives := [new_TestCase "c0"; new_TestCase "c1"] |} 1).
  - unfold registry_ok. compute_done.
  - vm_compute. discriminate.
  - reflexivity.
  - reflexivity.
Defined.

(** X7: the iterator emits one pair per set for every combination: as many
    pairs as the product of the numbers of alternatives times the number of
    sets. *)
Theorem Tests_emits_one_pair_per_set_and_combination {SUT STATE ASSERT T : Type}
    (ts : TestsBuilder SUT STATE ASSERT T) (fuel : nat) :
  registry_ok ts ->
  product (alternative_counts ts) <= Z.of_nat fuel ->
  exists emitted,
    Tests fuel ts collect [] = Done emitted /\
    Z.of_nat (length emitted)
    = product (alternative_counts ts) * Z.of_nat (length (TestCaseSets ts)).
Proof.
  intros Hok Hfuel.
  destruct (GenerateTestSets_spec ts fuel Hok Hfuel)
    as (tuples & _ & Hgen & Hlen & _ & Hall & _).
  eexists. split.
  - apply Tests_collect. eexists. split; [exact Hgen|done].
  - rewrite list_fmap_bind.
    rewrite (length_bind_const _ (length (TestCaseSets ts))).
    + lia.
    + eapply Forall_impl; [exact Hall|]. intros indexes Hin. simpl.
      rewrite length_pairs_of. simpl.
      destruct (path_of_spec ts indexes Hin) as [_ Hsel].
      by apply selects_length in Hsel.
Qed.

Lemma Tests_emits_one_pair_per_set_and_combination_witness :
  exists emitted,
    Tests 4 Scenario.two_one_two collect [] = Done emitted /\
    Z.of_nat (length emitted)
    = product (alternative_counts Scenario.two_one_two)
      * Z.of_nat (length (TestCaseSets Scenario.two_one_two)).
Proof.
  apply (Tests_emits_one_pair_per_set_and_combination Scenario.two_one_two 4).
  - unfold registry_ok. compute_done.
  - vm_compute. discriminate.
Defined.

(** X8: whatever the consumer, the iterator hands it the pairs it would
    hand to a consumer that takes them all, in the same order, and stops at
    the first pair on which the consumer leaves the loop: [yield] is not
    called again, neither for the rest of the test set nor for a later one. *)
Theorem Tests_stops_when_the_consumer_does {SUT STATE ASSERT T C : Type}
    (ts : TestsBuilder SUT STATE ASSERT T) (fuel : nat) emitted
    (yield : string -> BuildFunc SUT STATE ASSERT T -> C -> bool * C) (c : C) :
  Tests fuel ts collect [] = Done emitted ->
  Tests fuel ts yield c = Done (feed emitted yield c).2.
Proof.
  intros Hcollect. apply Tests_collect in Hcollect as (testSets & Hgen & ->).
  unfold Tests. rewrite Hgen. simpl. by rewrite Tests_sets_feed.
Qed.

Lemma Tests_stops_when_the_consumer_does_witness :
  Tests 1 Scenario.abcd (collect_upto 2) []
  = Done (feed (pairs_of Scenario.abcd_test_set) (collect_upto 2) []).2.
Proof.
  apply (Tests_stops_when_the_consumer_does Scenario.abcd 1).
  vm_compute. reflexivity.
Defined.

(** X9: a consumer that leaves the loop in its [n]-th iteration has seen
    exactly the first [n] pairs of the full sequence. *)
Theorem Tests_left_early_gives_a_prefix {SUT STATE ASSERT T : Type}
    (ts : TestsBuilder SUT STATE ASSERT T) (fuel : nat) emitted (n : nat) :
  (1 <= n)%nat ->
  Tests fuel ts collect [] = Done emitted ->
  Tests fuel ts (collect_upto n) [] = Done (take n emitted).
Proof.
  intros Hn Hcollect. apply Tests_collect in Hcollect as (testSets & Hgen & ->).
  unfold Tests. rewrite Hgen. simpl. rewrite Tests_sets_feed.
  rewrite feed_collect_upto by (simpl; lia). simpl. by rewrite Nat.sub_0_r.
Qed.

Lemma Tests_left_early_gives_a_prefix_witness :
  Tests 1 Scenario.abcd (collect_upto 1) []
  = Done (take 1 (pairs_of Scenario.abcd_test_set)).
Proof.
  apply (Tests_left_early_gives_a_prefix Scenario.abcd 1); [lia|].
  vm_compute. reflexivity.
Defined.

(** ** Registration *)

Section RegistrationProperties.

Context {SUT STATE ASSERT T : Type}.
Context `{!GoZero ASSERT}.

Lemma deref_update_eq (ts : TestsBuilder SUT STATE ASSERT T) (h : handle) g :
  deref (update ts h g) h = g <$> deref ts h.
Proof.
  unfold deref, update. destruct h as [i k]. simpl.
  rewrite list_lookup_alter_eq. destruct (TestCaseSets ts !! i) as [set|]; [|done].
  simpl. by rewrite list_lookup_alter_eq.
Qed.

Lemma deref_update_ne (ts : TestsBuilder SUT STATE ASSERT T) (h h' : handle) g :
  h' <> h -> deref (update ts h g) h' = deref ts h'.
Proof.
  unfold deref, update. destruct h as [i k], h' as [i' k']. simpl. intros Hne.
  destruct (decide (i = i')) as [->|Hi].
  - rewrite list_lookup_alter_eq. destruct (TestCaseSets ts !! i') as [set|]; [|done].
    simpl. rewrite list_lookup_alter_ne; [done|]. congruence.
  - by rewrite list_lookup_alter_ne.
Qed.

Lemma alternative_counts_update (ts : TestsBuilder SUT STATE ASSERT T) (h : handle) g :
  alternative_counts (update ts h g) = alternative_counts ts.
Proof.
  unfold alternative_counts, update. simpl. apply list_eq. intros i.
  rewrite !list_lookup_fmap. destruct (decide (h.1 = i)) as [<-|Hne].
  - rewrite list_lookup_alter_eq. destruct (TestCaseSets ts !! h.1) as [set|]; [|done].
    simpl. by rewrite length_alter.
  - by rewrite list_lookup_alter_ne.
Qed.

Lemma product_app alts1 alts2 : product (alts1 ++ alts2) = product alts1 * product alts2.
Proof.
  unfold product. induction alts1 as [|r alts1 IH]; simpl.
  - by destruct (foldr Z.mul 1 alts2).
  - rewrite IH. lia.
Qed.

Lemma alternative_counts_app (sets1 sets2 : list (TestCaseSet SUT STATE ASSERT T)) :
  alternative_counts {| TestCaseSets := sets1 ++ sets2 |}
  = alternative_counts {| TestCaseSets := sets1 |}
    ++ alternative_counts {| TestCaseSets := sets2 |}.
Proof. unfold alternative_counts. simpl. apply fmap_app. Qed.

Lemma more_than_one_snoc_one (sets : list (TestCaseSet SUT STATE ASSERT T)) testcase :
  more_than_one {| TestCaseSets := sets ++ [{| TestAlternatives := [testcase] |}] |}
  = more_than_one {| TestCaseSets := sets |}.
Proof.
  unfold more_than_one. simpl. apply bool_decide_ext.
  rewrite Exists_app, Exists_cons, Exists_nil. simpl. split; [|tauto].
  intros [?|[?|?]]; [done|lia|done].
Qed.

(** *** What the counter does with one more radix of one *)

Lemma lowest_free_snoc : forall cur alts,
  length cur = length alts -> lowest_free (cur ++ [0]) (alts ++ [1]) = lowest_free cur alts.
Proof.
  induction cur as [|c cur IH]; intros [|r alts] Hlen; try done.
  simpl. destruct (c <? r - 1); [done|]. rewrite IH; [done|]. by injection Hlen.
Qed.

Lemma bump_snoc p c (cur : list Z) :
  (p < length cur)%nat -> bump p c (cur ++ [0]) = bump p c cur ++ [0].
Proof.
  intros Hp. unfold bump. rewrite drop_app_le by lia.
  by rewrite <- app_assoc.
Qed.

Lemma length_bump p c (cur : list Z) :
  (p < length cur)%nat -> length (bump p c cur) = length cur.
Proof.
  intros Hp. unfold bump. rewrite length_app, length_replicate. simpl.
  rewrite length_drop. lia.
Qed.

Lemma counts_up_snoc alts cur tuples :
  length cur = length alts ->
  counts_up alts cur tuples ->
  counts_up (alts ++ [1]) (cur ++ [0]) ((fun t => t ++ [0]) <$> tuples).
Proof.
  intros Hlen Hup. induction Hup as [cur Hn|cur p c rest Hp Hc Hup IH].
  - apply counts_up_last. by rewrite lowest_free_snoc.
  - destruct (lowest_free_lt _ _ _ Hp) as [Hpc _].
    rewrite fmap_cons. apply counts_up_step with (p := p) (c := c).
    + by rewrite lowest_free_snoc.
    + by apply lookup_app_l_Some.
    + rewrite bump_snoc by done. apply IH. by rewrite length_bump.
Qed.

Lemma counts_up_unique alts cur tuples1 :
  counts_up alts cur tuples1 ->
  forall tuples2, counts_up alts cur tuples2 -> tuples1 = tuples2.
Proof.
  induction 1 as [cur Hn|cur p c rest Hp Hc Hup IH]; intros tuples2 H2.
  - inversion H2 as [? Hn2|? p2 c2 rest2 Hp2 Hc2 Hup2]; subst; [done|congruence].
  - inversion H2 as [? Hn2|? p2 c2 rest2 Hp2 Hc2 Hup2]; subst; [congruence|].
    rewrite Hp in Hp2. injection Hp2 as <-. rewrite Hc in Hc2. injection Hc2 as <-.
    f_equal. by apply IH.
Qed.

Lemma label_of_snoc indexes c : label_of (indexes ++ [c]) = label_of indexes +:+ Itoa c.
Proof.
  unfold label_of, IndexCounter_String. simpl. by rewrite foldl_app.
Qed.

Lemma selects_unique (ts : TestsBuilder SUT STATE ASSERT T) indexes path1 path2 :
  selects ts indexes path1 -> selects ts indexes path2 -> path1 = path2.
Proof.
  unfold selects. intros H1. revert path2.
  induction H1 as [|set c tc sets indexes path1 [_ Htc] _ IH]; intros path2 H2.
  - by inversion H2.
  - inversion H2 as [|? ? tc2 ? ? path2' [_ Htc2] H2']; subst.
    rewrite Htc in Htc2. injection Htc2 as <-. f_equal. by apply IH.
Qed.

(** The tuples and the paths of a registry after [Register]. *)
Lemma GenerateTestSets_after_Register (ts : TestsBuilder SUT STATE ASSERT T)
    (fuel : nat) (name : string) :
  registry_ok ts ->
  product (alternative_counts ts) <= Z.of_nat fuel ->
  exists tuples,
    Forall (fun t => in_range t (alternative_counts ts)) tuples /\
    GenerateTestSets fuel ts = Done (test_set_of ts (more_than_one ts) <$> tuples) /\
    GenerateTestSets fuel (Register name ts).2
    = Done ((fun indexes =>
               {| TestCases := path_of ts indexes ++ [new_TestCase name];
                  TestSetName := if more_than_one ts
                                 then label_of indexes +:+ "0" else "" |}) <$> tuples).
Proof.
  intros Hok Hfuel.
  assert (Hrad : radices_ok (alternative_counts ts)).
  { unfold radices_ok, alternative_counts. by apply Forall_fmap. }
  pose proof (zero_in_range _ Hrad) as Hzero.
  destruct (run_counter_counts_up _ fuel _ Hrad Hzero) as (tuples & Hrun & Hup).
  { rewrite rank_zero. lia. }
  destruct (counts_up_facts _ _ _ Hzero Hup) as (_ & Hall & _).
  rewrite <- NewCurrIndexes_zero in Hrun.
  exists tuples. split; [done|]. split.
  { unfold GenerateTestSets. rewrite GenerateTestSets_counts_spec.
    by rewrite (GenerateTestSets_loop_spec ts _ _ _ [] _ _ Hrun Hall). }
  destruct ts as [sets]. unfold Register. simpl.
  set (ts := {| TestCaseSets := sets |}) in *.
  set (ts' := {| TestCaseSets := sets ++ [{| TestAlternatives := [new_TestCase name] |}] |}).
  assert (Hcounts : alternative_counts ts' = alternative_counts ts ++ [1]).
  { unfold ts'. by rewrite alternative_counts_app. }
  assert (Hrad' : radices_ok (alternative_counts ts')).
  { rewrite Hcounts. apply Forall_app. split; [done|].
    repeat constructor; unfold int_max; lia. }
  pose proof (zero_in_range _ Hrad') as Hzero'.
  destruct (run_counter_counts_up _ fuel _ Hrad' Hzero') as (tuples' & Hrun' & Hup').
  { rewrite rank_zero, Hcounts, product_app. simpl. unfold product in *. simpl. lia. }
  assert (tuples' = (fun t => t ++ [0]) <$> tuples) as ->.
  { apply (counts_up_unique _ _ _ Hup'). rewrite Hcounts, length_app. simpl.
    rewrite replicate_add. simpl. apply counts_up_snoc; [|done].
    by rewrite length_replicate. }
  destruct (counts_up_facts _ _ _ Hzero' Hup') as (_ & Hall' & _).
  rewrite <- NewCurrIndexes_zero in Hrun'.
  unfold GenerateTestSets. rewrite GenerateTestSets_counts_spec.
  rewrite (GenerateTestSets_loop_spec ts' _ _ _ [] _ _ Hrun' Hall'). simpl.
  rewrite <- list_fmap_compose. f_equal. apply list_fmap_ext.
  intros k indexes Hk. simpl. unfold test_set_of.
  unfold ts' at 2. rewrite more_than_one_snoc_one. fold ts.
  rewrite label_of_snoc. f_equal.
  rewrite Forall_forall in Hall. rewrite Forall_forall in Hall'.
  assert (Hin : in_range indexes (alternative_counts ts)).
  { apply Hall. by eapply list_elem_of_lookup_2. }
  assert (Hin' : in_range (indexes ++ [0]) (alternative_counts ts')).
  { apply Hall'. apply list_elem_of_fmap. exists indexes. split; [done|].
    by eapply list_elem_of_lookup_2. }
  destruct (path_of_spec ts indexes Hin) as [_ Hsel].
  destruct (path_of_spec ts' _ Hin') as [_ Hsel'].
  apply (selects_unique ts' (indexes ++ [0])); [done|].
  unfold selects, ts'. simpl. apply Forall3_app; [done|].
  constructor; [|constructor]. split; [lia|done].
Qed.

End RegistrationProperties.

(** X10: each of [WithStateBuilder], [WithSpecificBuilder] and
    [WithAssertion] returns the handle it was called on, replaces its own
    field of that test case, and changes nothing else: the other fields, the
    other test cases and the numbers of alternatives stay as they were. *)
Theorem mutators_change_one_field_of_one_test_case {SUT STATE ASSERT T : Type}
    (ts : TestsBuilder SUT STATE ASSERT T) (h : handle) testcase :
  deref ts h = Some testcase ->
  (forall f,
      (WithStateBuilder h f ts).1 = h /\
      deref (WithStateBuilder h f ts).2 h
      = Some {| TestName := TestName testcase; StateBuilder := f;
                SpecificBuilder := SpecificBuilder testcase;
                Assertion := Assertion testcase |} /\
      (forall h', h' <> h -> deref (WithStateBuilder h f ts).2 h' = deref ts h') /\
      alternative_counts (WithStateBuilder h f ts).2 = alternative_counts ts) /\
  (forall f,
      (WithSpecificBuilder h f ts).1 = h /\
      deref (WithSpecificBuilder h f ts).2 h
      = Some {| TestName := TestName testcase; StateBuilder := StateBuilder testcase;
                SpecificBuilder := f;
                Assertion := Assertion testcase |} /\
      (forall h', h' <> h -> deref (WithSpecificBuilder h f ts).2 h' = deref ts h') /\
      alternative_counts (WithSpecificBuilder h f ts).2 = alternative_counts ts) /\
  (forall f,
      (WithAssertion h f ts).1 = h /\
      deref (WithAssertion h f ts).2 h
      = Some {| TestName := TestName testcase; StateBuilder := StateBuilder testcase;
                SpecificBuilder := SpecificBuilder testcase;
                Assertion := f |} /\
      (forall h', h' <> h -> deref (WithAssertion h f ts).2 h' = deref ts h') /\
      alternative_counts (WithAssertion h f ts).2 = alternative_counts ts).
Proof.
  intros Hh. split; [|split]; intros f; simpl;
    (split; [done|]); (split; [by rewrite deref_update_eq, Hh|]);
    (split; [intros h' Hne; by apply deref_update_ne|]);
    apply alternative_counts_update.
Qed.

Lemma mutators_change_one_field_of_one_test_case_witness :
  deref (WithSpecificBuilder (2%nat, 0%nat) (Some (Scenario.set_sut "-")) Scenario.abcd).2
        (2%nat, 0%nat)
  = Some {| TestName := "3"; StateBuilder := Some (Scenario.append_sut "c");
            SpecificBuilder := Some (Scenario.set_sut "-"); Assertion := tt |}.
Proof.
  exact (proj1 (proj2 (proj1 (proj2
           (mutators_change_one_field_of_one_test_case Scenario.abcd (2%nat, 0%nat)
              (Scenario.abcd_case "3" "c") eq_refl))
           (Some (Scenario.set_sut "-"))))).
Defined.

(** X11: [Register] adds one set whose only alternative is a new test case
    that bears the given name and has no setup and the zero assertion, and
    returns its handle; every test case registered before is still where it
    was, and the number of combinations does not change. *)
Theorem Register_adds_a_set_of_one {SUT STATE ASSERT T : Type} `{!GoZero ASSERT}
    (ts : TestsBuilder SUT STATE ASSERT T) (name : string) :
  TestCaseSets (Register name ts).2
  = TestCaseSets ts
    ++ [{| TestAlternatives :=
             [ {| TestName := name; StateBuilder := None; SpecificBuilder := None;
                  Assertion := zero_value |} ] |}] /\
  (Register name ts).1 = (length (TestCaseSets ts), 0%nat) /\
  deref (Register name ts).2 (Register name ts).1
  = Some {| TestName := name; StateBuilder := None; SpecificBuilder := None;
            Assertion := zero_value |} /\
  (forall h testcase,
      deref ts h = Some testcase ->
      deref (Register name ts).2 h = Some testcase /\ h <> (Register name ts).1) /\
  alternative_counts (Register name ts).2 = alternative_counts ts ++ [1] /\
  product (alternative_counts (Register name ts).2) = product (alternative_counts ts) /\
  more_than_one (Register name ts).2 = more_than_one ts.
Proof.
  destruct ts as [sets]. unfold Register. simpl.
  split; [done|]. split; [done|]. split; [|split; [|split; [|split]]].
  - unfold deref. simpl. rewrite lookup_app_r, Nat.sub_diag by lia. done.
  - intros [i k] testcase. unfold deref. simpl. intros Hh.
    destruct (sets !! i) as [set|] eqn:Hi; [|done].
    split.
    + by rewrite (lookup_app_l_Some _ _ _ _ Hi).
    + apply lookup_lt_Some in Hi. intros [= -> _]. lia.
  - by rewrite alternative_counts_app.
  - rewrite alternative_counts_app, product_app. unfold product at 2. simpl. lia.
  - apply more_than_one_snoc_one.
Qed.

(** X12: on a builder with a set, [RegisterAlternative] adds exactly one
    alternative to the last set: the number of sets stays, the last number of
    alternatives grows by one, and every test case registered before is still
    where it was, under a handle other than the new one. *)
Theorem RegisterAlternative_adds_one_alternative {SUT STATE ASSERT T : Type}
    `{!GoZero ASSERT} (ts : TestsBuilder SUT STATE ASSERT T) (name : string) :
  TestCaseSets ts <> [] ->
  exists h ts' counts r,
    RegisterAlternative name ts = (Done h, ts') /\
    (forall h0 testcase,
        deref ts h0 = Some testcase -> deref ts' h0 = Some testcase /\ h0 <> h) /\
    length (TestCaseSets ts') = length (TestCaseSets ts) /\
    alternative_counts ts = counts ++ [r] /\
    alternative_counts ts' = counts ++ [r + 1].
Proof.
  intros Hne. destruct ts as [sets]. simpl in Hne.
  destruct (decide (sets = [])) as [->|_]; [done|].
  assert (exists init latest, sets = init ++ [latest]) as (init & latest & ->).
  { destruct sets as [|s0 sets] using rev_ind; [done|]. by exists sets, s0. }
  set (latest' := {| TestAlternatives := TestAlternatives latest ++ [new_TestCase name] |}).
  exists (length init, length (TestAlternatives latest)),
         {| TestCaseSets := init ++ [latest'] |},
         (alternative_counts {| TestCaseSets := init |}),
         (Z.of_nat (length (TestAlternatives latest))).
  split; [|split; [|split; [|split]]].
  - unfold RegisterAlternative. simpl. rewrite length_app. simpl.
    destruct (decide (length init + 1 = 0)%nat) as [Hz|_]; [lia|].
    replace (length init + 1 - 1)%nat with (length init) by lia.
    rewrite lookup_app_r, Nat.sub_diag by lia. simpl.
    rewrite insert_app_r_alt, Nat.sub_diag by lia. done.
  - intros [i k] testcase. unfold deref. simpl. intros Hh.
    destruct ((init ++ [latest]) !! i) as [set|] eqn:Hi; [|done]. simpl in Hh.
    apply lookup_app_Some in Hi as [Hi|[Hge Hi]].
    + rewrite (lookup_app_l_Some _ _ _ _ Hi). simpl. split; [done|].
      apply lookup_lt_Some in Hi. intros [= -> _]. lia.
    + destruct (i - length init)%nat as [|d] eqn:Hd; [|done].
      simpl in Hi. injection Hi as <-. assert (i = length init) as -> by lia.
      rewrite lookup_app_r, Nat.sub_diag by lia. simpl. split.
      * by apply lookup_app_l_Some.
      * apply lookup_lt_Some in Hh. intros [= ->]. lia.
  - simpl. by rewrite !length_app.
  - by rewrite alternative_counts_app.
  - rewrite alternative_counts_app. f_equal. unfold alternative_counts, latest'. simpl.
    rewrite length_app. simpl. f_equal. lia.
Qed.

Lemma RegisterAlternative_adds_one_alternative_witness :
  exists h ts' counts r,
    RegisterAlternative "variantA" (Register "stage1" Scenario.empty_builder).2
    = (Done h, ts') /\
    alternative_counts (Register "stage1" Scenario.empty_builder).2 = counts ++ [r] /\
    alternative_counts ts' = counts ++ [r + 1].
Proof.
  destruct (RegisterAlternative_adds_one_alternative
              (Register "stage1" Scenario.empty_builder).2 "variantA")
    as (h & ts' & counts & r & H1 & _ & _ & H2 & H3).
  - discriminate.
  - by exists h, ts', counts, r.
Defined.

(** X13: after [Register] every generated test set is the test set it was
    with the new test case added at its end, in the same order; its name, when
    it has one, has the index 0 of the new set added at its end. *)
Theorem Register_extends_every_test_set {SUT STATE ASSERT T : Type} `{!GoZero ASSERT}
    (ts : TestsBuilder SUT STATE ASSERT T) (fuel : nat) (name : string) testSets :
  registry_ok ts ->
  product (alternative_counts ts) <= Z.of_nat fuel ->
  GenerateTestSets fuel ts = Done testSets ->
  GenerateTestSets fuel (Register name ts).2
  = Done ((fun tset =>
             {| TestCases := TestCases tset ++ [new_TestCase name];
                TestSetName := if String.eqb (TestSetName tset) "" then ""
                               else TestSetName tset +:+ "0" |}) <$> testSets).
Proof.
  intros Hok Hfuel Hgen.
  destruct (GenerateTestSets_after_Register ts fuel name Hok Hfuel)
    as (tuples & Hall & Hgen0 & Hgen').
  rewrite Hgen0 in Hgen. injection Hgen as <-.
  rewrite Hgen', <- list_fmap_compose. f_equal.
  apply list_fmap_ext. intros k indexes Hk. simpl. f_equal.
  destruct (more_than_one ts) eqn:Hmore; [|done].
  destruct (String.eqb_spec (label_of indexes) "") as [Hempty|_]; [|done].
  exfalso. revert Hempty. apply label_of_nonempty.
  apply (in_range_nonempty ts).
  - intros Hnil. unfold more_than_one in Hmore. rewrite Hnil in Hmore.
    apply bool_decide_eq_true in Hmore. by apply Exists_nil in Hmore.
  - rewrite Forall_forall in Hall. apply Hall. by eapply list_elem_of_lookup_2.
Qed.

Lemma Register_extends_every_test_set_witness :
  GenerateTestSets 4 (Register "d0" Scenario.two_one_two).2
  = Done ((fun tset =>
             {| TestCases := TestCases tset ++ [new_TestCase "d0"];
                TestSetName := if String.eqb (TestSetName tset) "" then ""
                               else TestSetName tset +:+ "0" |})
            <$> (test_set_of Scenario.two_one_two true
                   <$> [[0; 0; 0]; [1; 0; 0]; [0; 0; 1]; [1; 0; 1]])).
Proof.
  apply (Register_extends_every_test_set Scenario.two_one_two 4 "d0").
  - unfold registry_ok. compute_done.
  - vm_compute. discriminate.
  - vm_compute. reflexivity.
Defined.

(** ** The build function as a closure *)

Section ClosureProperties.

Context {SUT STATE ASSERT T : Type}.
Context `{!GoZero SUT, !GoZero STATE, !GoZero ASSERT}.

Lemma Closure_build_loop_resolved (ts : TestsBuilder SUT STATE ASSERT T)
    (i : nat) (t : T) (ps pst : nat) :
  forall (ptrs : list handle) (path : list (TestCase SUT STATE ASSERT T)),
    Forall2 (Closure.points_to ts) ptrs path ->
    forall (j : nat) (s : Machine SUT STATE),
      Closure.build_loop ts i t ps pst j ptrs s = Done (build_loop i t ps pst j path s).
Proof.
  induction 1 as [|p testcase ptrs path Hp _ IH]; intros j s; [done|].
  simpl. unfold Closure.load. rewrite Hp. simpl.
  destruct (j <? i)%nat; [apply IH|done].
Qed.

(** A call of a closure in a builder is [build] on the test cases the
    builder holds where the closure points. *)
Lemma Closure_build_resolved (ts : TestsBuilder SUT STATE ASSERT T)
    (c : Closure.BuildFunc) (b : BuildFunc SUT STATE ASSERT T) (t : T)
    (s : Machine SUT STATE) :
  resolves ts c b -> Closure.build ts c t s = Done (build b t s).
Proof.
  intros (Hpath & Hi & Hcur & _). unfold Closure.build, build. simpl.
  rewrite (Closure_build_loop_resolved ts _ t _ _ _ _ Hpath). simpl.
  unfold Closure.load. rewrite Hcur. simpl. by rewrite Hi.
Qed.

Lemma Closure_GenerateTestSets_pick_alike (ts : TestsBuilder SUT STATE ASSERT T)
    (indexes : list Z) :
  forall (rest pre : list (TestCaseSet SUT STATE ASSERT T)) (ptrs : list handle)
         (acc : list (TestCase SUT STATE ASSERT T)),
    TestCaseSets ts = pre ++ rest ->
    Forall2 (Closure.points_to ts) ptrs acc ->
    ptrs.*1 = seq 0 (length pre) ->
    Closure.alike (fun ptrs path =>
                     Forall2 (Closure.points_to ts) ptrs path /\ one_per_set ts ptrs)
      (Closure.GenerateTestSets_pick indexes (length pre) rest ptrs)
      (GenerateTestSets_pick indexes (length pre) rest acc).
Proof.
  induction rest as [|set rest IH]; intros pre ptrs acc Hsets Hacc Hseq.
  { simpl. split; [done|]. unfold one_per_set. by rewrite Hsets, app_nil_r. }
  simpl. destruct (indexes !! length pre) as [altIdx|]; [|done].
  destruct (go_index (TestAlternatives set) altIdx) as [testCase|] eqn:Hidx; [|done].
  specialize (IH (pre ++ [set]) (ptrs ++ [(length pre, Z.to_nat altIdx)])
                 (acc ++ [testCase])).
  rewrite length_app in IH. simpl in IH. rewrite Nat.add_1_r in IH.
  apply IH.
  - by rewrite <- app_assoc.
  - apply Forall2_app; [done|]. constructor; [|constructor].
    unfold Closure.points_to, deref. simpl.
    rewrite Hsets, lookup_app_r, Nat.sub_diag by lia. simpl.
    unfold go_index in Hidx. by destruct (altIdx <? 0).
  - rewrite fmap_app, Hseq, seq_S. done.
Qed.

Lemma Closure_GenerateTestSets_loop_alike (ts : TestsBuilder SUT STATE ASSERT T)
    (more : bool) :
  forall (fuel : nat) (idx : IndexCounter) (ptrs : list Closure.TestSet)
         (acc : list (TestSet SUT STATE ASSERT T)),
    Forall2 (resolves_TestSet ts) ptrs acc ->
    Closure.alike (Forall2 (resolves_TestSet ts))
      (Closure.GenerateTestSets_loop fuel (TestCaseSets ts) more idx ptrs)
      (GenerateTestSets_loop fuel (TestCaseSets ts) more idx acc).
Proof.
  induction fuel as [|fuel IH]; intros idx ptrs acc Hacc; [done|].
  simpl.
  pose proof (Closure_GenerateTestSets_pick_alike ts (currIndexes idx)
                (TestCaseSets ts) [] [] [] eq_refl (Forall2_nil_2 _ _ _) eq_refl)
    as Hpick.
  simpl in Hpick.
  destruct (Closure.GenerateTestSets_pick (currIndexes idx) 0 (TestCaseSets ts) [])
    as [cpath| |];
    destruct (GenerateTestSets_pick (currIndexes idx) 0 (TestCaseSets ts) [])
    as [path| |]; simpl in Hpick; try done.
  destruct Hpick as [Hpick Hseq].
  simpl. destruct (AddOne idx) as [[idx' isDone]| |]; simpl; try done.
  assert (Hacc' : Forall2 (resolves_TestSet ts)
            (ptrs ++ [{| Closure.TestCases := cpath;
                         Closure.TestSetName :=
                           if more then IndexCounter_String idx else "" |}])
            (acc ++ [{| TestCases := path;
                        TestSetName := if more then IndexCounter_String idx else "" |}])).
  { apply Forall2_app; [done|]. constructor; [|constructor]. by split. }
  destruct isDone; [done|]. by apply IH.
Qed.

Lemma Closure_GenerateTestSets_alike (ts : TestsBuilder SUT STATE ASSERT T) (fuel : nat) :
  Closure.alike (Forall2 (resolves_TestSet ts))
    (Closure.GenerateTestSets fuel ts) (GenerateTestSets fuel ts).
Proof.
  unfold Closure.GenerateTestSets, GenerateTestSets.
  destruct (GenerateTestSets_counts (TestCaseSets ts)) as [alts more].
  apply Closure_GenerateTestSets_loop_alike. constructor.
Qed.

Lemma Closure_Tests_cases_collect (ts : TestsBuilder SUT STATE ASSERT T)
    (cset : Closure.TestSet) (tset : TestSet SUT STATE ASSERT T) :
  resolves_TestSet ts cset tset ->
  forall (crest cpre : list handle) (rest : list (TestCase SUT STATE ASSERT T))
         (cseen : list (string * Closure.BuildFunc))
         (seen : list (string * BuildFunc SUT STATE ASSERT T)),
    Closure.TestCases cset = cpre ++ crest ->
    Forall2 (Closure.points_to ts) crest rest ->
    Forall2 (resolves_pair ts) cseen seen ->
    exists cseen',
      Closure.Tests_cases ts cset (length cpre) crest Closure.collect cseen
      = Done (true, cseen') /\
      Forall2 (resolves_pair ts) cseen'
              (Tests_cases tset (length cpre) rest collect seen).2.
Proof.
  intros (Hpath & Hname & Hseq).
  induction crest as [|p crest IH]; intros cpre rest cseen seen Hpre Hrest Hseen.
  - apply Forall2_nil_inv_l in Hrest as ->. by exists cseen.
  - apply Forall2_cons_inv_l in Hrest as (curcase & rest' & Hp & Hrest & ->).
    simpl. unfold Closure.load. rewrite Hp. simpl.
    specialize (IH (cpre ++ [p]) rest').
    rewrite length_app in IH. simpl in IH. rewrite Nat.add_1_r in IH.
    apply IH; [by rewrite <- app_assoc|done|].
    apply Forall2_app; [done|]. constructor; [|constructor].
    split; simpl; [by rewrite Hname|]. split; [|done].
    split; [done|]. split; [done|]. split; [done|]. simpl.
    rewrite Hpre, lookup_app_r, Nat.sub_diag by lia. done.
Qed.

Lemma Closure_Tests_sets_collect (ts : TestsBuilder SUT STATE ASSERT T) :
  forall (csets : list Closure.TestSet) (testSets : list (TestSet SUT STATE ASSERT T)),
    Forall2 (resolves_TestSet ts) csets testSets ->
    forall (cseen : list (string * Closure.BuildFunc))
           (seen : list (string * BuildFunc SUT STATE ASSERT T)),
      Forall2 (resolves_pair ts) cseen seen ->
      exists cseen',
        Closure.Tests_sets ts csets Closure.collect cseen = Done (true, cseen') /\
        Forall2 (resolves_pair ts) cseen' (Tests_sets testSets collect seen).2.
Proof.
  induction 1 as [|cset tset csets testSets Hset _ IH]; intros cseen seen Hseen.
  - by exists cseen.
  - destruct (Closure_Tests_cases_collect ts cset tset Hset (Closure.TestCases cset) []
                (TestCases tset) cseen seen eq_refl (proj1 Hset) Hseen)
      as (cseen1 & Hrun & Hseen1).
    simpl in Hrun. simpl. rewrite Hrun. simpl.
    rewrite Tests_cases_collect in Hseen1 |- *. simpl in Hseen1.
    by apply IH.
Qed.

(** [Tests] hands out closures that, with their pointers followed in the
    builder it ranges over, are the pairs of the iterator on test cases; it
    panics or runs out of fuel exactly when that one does. *)
Lemma Closure_Tests_alike (ts : TestsBuilder SUT STATE ASSERT T) (fuel : nat) :
  Closure.alike (Forall2 (resolves_pair ts))
    (Closure.Tests fuel ts Closure.collect []) (Tests fuel ts collect []).
Proof.
  unfold Closure.Tests, Tests.
  pose proof (Closure_GenerateTestSets_alike ts fuel) as Hgen.
  destruct (Closure.GenerateTestSets fuel ts) as [csets| |];
    destruct (GenerateTestSets fuel ts) as [testSets| |]; simpl in Hgen; try done.
  simpl.
  destruct (Closure_Tests_sets_collect ts csets testSets Hgen [] [] (Forall2_nil_2 _ _ _))
    as (cseen & Hrun & Hseen).
  rewrite Hrun. done.
Qed.

(** *** Pointers stay valid *)

Lemma deref_Register (ts : TestsBuilder SUT STATE ASSERT T) name (p : handle) testcase :
  deref ts p = Some testcase -> deref (Register name ts).2 p = Some testcase.
Proof.
  unfold deref, Register. simpl. intros Hp.
  destruct (TestCaseSets ts !! p.1) as [set|] eqn:Hset; [|done].
  by rewrite (lookup_app_l_Some _ _ _ _ Hset).
Qed.

Lemma deref_RegisterAlternative (ts : TestsBuilder SUT STATE ASSERT T) name
    (p : handle) testcase :
  deref ts p = Some testcase -> deref (RegisterAlternative name ts).2 p = Some testcase.
Proof.
  unfold RegisterAlternative. intros Hp.
  destruct (decide (length (TestCaseSets ts) = 0%nat)); [done|].
  destruct (TestCaseSets ts !! (length (TestCaseSets ts) - 1)%nat) as [latest|] eqn:Hlatest;
    [|done].
  unfold deref in *. simpl.
  destruct (decide (p.1 = (length (TestCaseSets ts) - 1)%nat)) as [Heq|Hne].
  - rewrite Heq in *. rewrite Hlatest in Hp. simpl in Hp.
    rewrite list_lookup_insert_eq by (by eapply lookup_lt_Some). simpl.
    by apply lookup_app_l_Some.
  - by rewrite list_lookup_insert_ne.
Qed.

Lemma deref_update_is_Some (ts : TestsBuilder SUT STATE ASSERT T) (h p : handle) g :
  is_Some (deref ts p) -> is_Some (deref (update ts h g) p).
Proof.
  intros Hp. destruct (decide (p = h)) as [->|Hne].
  - rewrite deref_update_eq. by apply fmap_is_Some.
  - by rewrite deref_update_ne.
Qed.

Lemma later_deref (ts ts' : TestsBuilder SUT STATE ASSERT T) (p : handle) :
  Closure.later ts ts' -> is_Some (deref ts p) -> is_Some (deref ts' p).
Proof.
  intros Hlater Hp.
  induction Hlater as [|name ts' _ IH|name ts' _ IH|h f ts' _ IH|h f ts' _ IH|h f ts' _ IH].
  - done.
  - destruct IH as [testcase IH]. eexists. by apply deref_Register.
  - destruct IH as [testcase IH]. eexists. by apply deref_RegisterAlternative.
  - by apply deref_update_is_Some.
  - by apply deref_update_is_Some.
  - by apply deref_update_is_Some.
Qed.

Lemma points_to_all (ts : TestsBuilder SUT STATE ASSERT T) (ptrs : list handle) :
  Forall (fun p => is_Some (deref ts p)) ptrs ->
  exists path, Forall2 (Closure.points_to ts) ptrs path.
Proof.
  induction 1 as [|p ptrs [testcase Hp] _ [path IH]]; [by exists []|].
  exists (testcase :: path). by constructor.
Qed.

(** A closure [Tests] has handed out can be called in every later builder:
    its pointers still point to test cases. *)
Lemma emitted_closure_resolves (ts ts' : TestsBuilder SUT STATE ASSERT T) (fuel : nat)
    cemitted (k : nat) name (c : Closure.BuildFunc) :
  Closure.Tests fuel ts Closure.collect [] = Done cemitted ->
  cemitted !! k = Some (name, c) ->
  Closure.later ts ts' ->
  exists path curcase,
    Forall2 (Closure.points_to ts') (Closure.captured_testCases c) path /\
    path !! Closure.captured_i c = Some curcase /\
    resolves ts' c (mkBuildFunc path (Closure.captured_i c) curcase).
Proof.
  intros Htests Hk Hlater.
  pose proof (Closure_Tests_alike ts fuel) as Halike. rewrite Htests in Halike.
  destruct (Tests fuel ts collect []) as [emitted| |]; simpl in Halike; try done.
  destruct (Forall2_lookup_l _ _ _ _ _ Halike Hk) as ([name0 b] & _ & _ & Hres & _).
  destruct Hres as (Hpath & _ & _ & Hwf). simpl in *.
  destruct (points_to_all ts' (Closure.captured_testCases c)) as [path Hpath'].
  { apply Forall_forall. intros p Hp. apply (later_deref ts ts' p Hlater).
    apply list_elem_of_lookup in Hp as [j Hj].
    destruct (Forall2_lookup_l _ _ _ _ _ Hpath Hj) as (testcase & _ & Hpt).
    by exists testcase. }
  destruct (Forall2_lookup_l _ _ _ _ _ Hpath' Hwf) as (curcase & Hcur & Hpt).
  exists path, curcase. split; [done|]. split; [done|]. by repeat split.
Qed.

End ClosureProperties.

(** ** The builder without alternatives *)

Section FlatProperties.

Context {SUT STATE ASSERT T : Type}.
Context `{!GoZero ASSERT}.

Lemma one_alternative_each_selects (testCases : list (TestCase SUT STATE ASSERT T)) :
  selects (one_alternative_each testCases) (replicate (length testCases) 0) testCases.
Proof.
  unfold selects, one_alternative_each. simpl.
  induction testCases as [|testcase testCases IH]; simpl; constructor; [|done].
  split; [lia|done].
Qed.

Lemma GenerateTestSets_one_alternative_each
    (testCases : list (TestCase SUT STATE ASSERT T)) (fuel : nat) :
  GenerateTestSets (S fuel) (one_alternative_each testCases)
  = Done [{| TestCases := testCases; TestSetName := "" |}].
Proof.
  set (ts := one_alternative_each testCases).
  assert (Hone : Forall (fun set => length (TestAlternatives set) = 1%nat) (TestCaseSets ts)).
  { unfold ts, one_alternative_each. simpl. apply Forall_fmap. by apply Forall_true. }
  assert (Hok : registry_ok ts).
  { unfold registry_ok. eapply Forall_impl; [exact Hone|].
    intros set Hset. simpl in Hset. rewrite Hset. unfold int_max. lia. }
  destruct (more_than_one_false ts Hone) as [Hmore Hprod].
  destruct (GenerateTestSets_spec ts (S fuel) Hok) as
    (tuples & _ & Hgen & Hlen & _ & Hall & Hhd & _); [lia|].
  rewrite Hmore in Hgen. rewrite Hprod in Hlen.
  assert (tuples = [replicate (length (TestCaseSets ts)) 0]) as ->.
  { apply singleton_of_head; [lia|done]. }
  apply Forall_cons in Hall as [Hall _].
  destruct (path_of_spec ts _ Hall) as [_ Hsel].
  rewrite Hgen. simpl. unfold test_set_of. do 3 f_equal.
  apply (selects_unique ts _ _ _ Hsel).
  replace (length (TestCaseSets ts)) with (length testCases)
    by (unfold ts, one_alternative_each; simpl; by rewrite length_fmap).
  apply one_alternative_each_selects.
Qed.

End FlatProperties.

(** ** The table of tests *)

Section SliceProperties.

Context {SUT STATE ASSERT T : Type}.
Context `{!GoZero SUT, !GoZero STATE, !GoZero ASSERT}.

(** The loop of a build function from position [j] on is the loop over the
    cumulative setups of the rows [j] to [i], followed by the one-shot setup
    of row [i]. *)
Lemma build_loop_run_StateBuilders (tests : list (Slice.TableTestItem SUT STATE ASSERT T))
    (i : nat) target (t : T) (ps pst : nat) :
  tests !! i = Some target ->
  forall (rest pre : list (Slice.TableTestItem SUT STATE ASSERT T)) (s : Machine SUT STATE),
    tests = pre ++ rest -> (length pre <= i)%nat ->
    build_loop i t ps pst (length pre) (TableTestItem_as_TestCase <$> rest) s
    = invoke (Slice.SpecificBuilder target) (SpecificBuilderCall i) t ps pst
        (Slice.run_StateBuilders t ps pst (length pre) (take (S i - length pre) rest) s).
Proof.
  intros Hi. induction rest as [|tc rest IH]; intros pre s Htests Hle.
  - rewrite app_nil_r in Htests. subst pre. apply lookup_lt_Some in Hi. lia.
  - assert (Hj : tests !! length pre = Some tc).
    { rewrite Htests, lookup_app_r by lia. by rewrite Nat.sub_diag. }
    rewrite fmap_cons. simpl. destruct (length pre <? i)%nat eqn:Hlt.
    + apply Nat.ltb_lt in Hlt.
      specialize (IH (pre ++ [tc])
                    (invoke (Slice.StateBuilder tc) (StateBuilderCall (length pre))
                            t ps pst s)).
      rewrite length_app in IH. simpl in IH. rewrite Nat.add_1_r in IH.
      rewrite IH; [|by rewrite <- app_assoc|lia].
      replace (S i - length pre)%nat with (S (i - length pre)) by lia.
      replace (S i - S (length pre))%nat with (i - length pre)%nat by lia.
      done.
    + apply Nat.ltb_ge in Hlt. assert (i = length pre) as -> by lia.
      rewrite Hj in Hi. injection Hi as <-.
      replace (S (length pre) - length pre)%nat with 1%nat by lia.
      simpl. done.
Qed.

Lemma TestDataFromSlice_in_range (t : T) (testIndex : Z)
    (tests : list (Slice.TableTestItem SUT STATE ASSERT T)) target (s : Machine SUT STATE) :
  Z.of_nat (length tests) <= int_max ->
  0 <= testIndex ->
  tests !! Z.to_nat testIndex = Some target ->
  Slice.TestDataFromSlice t testIndex tests s
  = Done ((build (mkBuildFunc (TableTestItem_as_TestCase <$> tests) (Z.to_nat testIndex)
                              (TableTestItem_as_TestCase target)) t s).1,
          None,
          (build (mkBuildFunc (TableTestItem_as_TestCase <$> tests) (Z.to_nat testIndex)
                              (TableTestItem_as_TestCase target)) t s).2).
Proof.
  intros Hmax Hpos Htarget. pose proof (lookup_lt_Some _ _ _ Htarget) as Hlt.
  unfold Slice.TestDataFromSlice, build, alloc_sut, alloc_state. simpl.
  destruct (decide (length tests = 0%nat)) as [Hz|_]; [lia|].
  destruct (testIndex <? 0) eqn:Hneg; [apply Z.ltb_lt in Hneg; lia|].
  destruct (Z.of_nat (length tests) <=? testIndex) eqn:Hbig;
    [apply Z.leb_le in Hbig; lia|].
  simpl. rewrite wrap_int_id by (unfold int_min, int_max in *; lia).
  destruct (testIndex + 1 <? 0) eqn:Hneg'; [apply Z.ltb_lt in Hneg'; lia|].
  destruct (Z.of_nat (length tests) <? testIndex + 1) eqn:Hbig';
    [apply Z.ltb_lt in Hbig'; lia|].
  simpl. unfold go_index. rewrite Hneg, Htarget.
  pose proof (build_loop_run_StateBuilders tests (Z.to_nat testIndex) target t
                (length (sutCells (mem s))) (length (stateCells (mem s))) Htarget
                tests []) as Hloop.
  simpl in Hloop. rewrite Hloop by (done || lia).
  replace (Z.to_nat (testIndex + 1)) with (S (Z.to_nat testIndex)) by lia.
  done.
Qed.

End SliceProperties.



(** X16: for an index inside the table [TestDataFromSlice] returns what
    the build function of [Tests] for that position returns, and does to the
    memory and calls what it does, when the rows are taken as the test cases
    of a path. *)
Theorem TestDataFromSlice_is_the_build_function {SUT STATE ASSERT T : Type}
    `{!GoZero SUT, !GoZero STATE, !GoZero ASSERT}
    (t : T) (testIndex : Z) (tests : list (Slice.TableTestItem SUT STATE ASSERT T))
    target (s : Machine SUT STATE) :
  Z.of_nat (length tests) <= int_max ->
  0 <= testIndex ->
  tests !! Z.to_nat testIndex = Some target ->
  Slice.TestDataFromSlice t testIndex tests s
  = Done ((build (mkBuildFunc (TableTestItem_as_TestCase <$> tests) (Z.to_nat testIndex)
                              (TableTestItem_as_TestCase target)) t s).1,
          None,
          (build (mkBuildFunc (TableTestItem_as_TestCase <$> tests) (Z.to_nat testIndex)
                              (TableTestItem_as_TestCase target)) t s).2).
Proof. apply TestDataFromSlice_in_range. Qed.

Lemma TestDataFromSlice_is_the_build_function_witness :
  Slice.TestDataFromSlice tt 1
    [Slice.mkTableTestItem "A" (Some (Scenario.append_sut "a")) None tt;
     Slice.mkTableTestItem "B" (Some (Scenario.append_sut "b")) None tt]
    Scenario.empty_machine
  = Done ((build (mkBuildFunc [Scenario.abcd_case "A" "a"; Scenario.abcd_case "B" "b"] 1
                              (Scenario.abcd_case "B" "b")) tt Scenario.empty_machine).1,
          None,
          (build (mkBuildFunc [Scenario.abcd_case "A" "a"; Scenario.abcd_case "B" "b"] 1
                              (Scenario.abcd_case "B" "b")) tt Scenario.empty_machine).2).
Proof.
  apply (TestDataFromSlice_is_the_build_function tt 1
           [Slice.mkTableTestItem "A" (Some (Scenario.append_sut "a")) None tt;
            Slice.mkTableTestItem "B" (Some (Scenario.append_sut "b")) None tt]
           (Slice.mkTableTestItem "B" (Some (Scenario.append_sut "b")) None tt)).
  - vm_compute. discriminate.
  - lia.
  - reflexivity.
Defined.

(** ** What a build function depends on *)

Section BuildFrame.

Context {SUT STATE ASSERT T : Type}.
Context `{!GoZero SUT, !GoZero STATE, !GoZero ASSERT}.

Lemma filter_ext_in {A : Type} (P Q : A -> Prop)
    `{!forall x, Decision (P x), !forall x, Decision (Q x)} (l : list A) :
  (forall x, x ∈ l -> P x <-> Q x) -> filter P l = filter Q l.
Proof.
  induction l as [|x l IH]; intros Hext; [done|].
  assert (Hl : filter P l = filter Q l).
  { apply IH. intros y Hy. apply Hext. by apply list_elem_of_further. }
  pose proof (Hext x (list_elem_of_here x l)) as Hx.
  destruct (decide (P x)) as [HP|HP].
  - rewrite filter_cons_True, (filter_cons_True Q) by tauto. by rewrite Hl.
  - rewrite filter_cons_False, (filter_cons_False Q) by tauto. done.
Qed.

Lemma filter_none {A : Type} (P : A -> Prop) `{!forall x, Decision (P x)} (l : list A) :
  (forall x, x ∈ l -> ~ P x) -> filter P l = [].
Proof.
  induction l as [|x l IH]; intros Hnone; [done|].
  rewrite filter_cons_False by (apply Hnone, list_elem_of_here).
  apply IH. intros y Hy. by apply Hnone, list_elem_of_further.
Qed.

Lemma has_StateBuilder_take (path : list (TestCase SUT STATE ASSERT T)) (i j : nat) :
  (j <= i)%nat ->
  has_StateBuilder path j
  = match (StateBuilder <$> take (S i) path) !! j with
    | Some (Some _) => true
    | _ => false
    end.
Proof.
  intros Hj. unfold has_StateBuilder.
  rewrite list_lookup_fmap, lookup_take_lt by lia.
  destruct (path !! j) as [tc|]; [|done]. simpl.
  destruct (StateBuilder tc); [by apply bool_decide_eq_true|].
  apply bool_decide_eq_false. by intros [? ?].
Qed.

Lemma replay_ext (path1 path2 : list (TestCase SUT STATE ASSERT T)) i c1 c2
    (t : T) (ps pst : nat) (m : Memory SUT STATE) :
  path1 !! i = Some c1 -> path2 !! i = Some c2 ->
  StateBuilder <$> take (S i) path1 = StateBuilder <$> take (S i) path2 ->
  SpecificBuilder c1 = SpecificBuilder c2 ->
  replay path1 i t ps pst m = replay path2 i t ps pst m /\
  replay_calls path1 i = replay_calls path2 i.
Proof.
  intros H1 H2 Hstate Hspec. unfold replay, replay_calls. rewrite H1, H2, Hspec. split.
  - f_equal.
    pose proof (foldl_fmap (fun m f => apply_setup f t ps pst m) m
                  (take (S i) path1) StateBuilder) as Hf1.
    pose proof (foldl_fmap (fun m f => apply_setup f t ps pst m) m
                  (take (S i) path2) StateBuilder) as Hf2.
    simpl in Hf1, Hf2. rewrite <- Hf1, <- Hf2. by rewrite Hstate.
  - f_equal. f_equal. apply filter_ext_in. intros j Hj.
    apply elem_of_seq in Hj.
    rewrite (has_StateBuilder_take path1 i j), (has_StateBuilder_take path2 i j) by lia.
    by rewrite Hstate.
Qed.

Lemma replay_no_setups (path : list (TestCase SUT STATE ASSERT T)) i curcase
    (t : T) (ps pst : nat) (m : Memory SUT STATE) :
  path !! i = Some curcase ->
  Forall (fun testcase => StateBuilder testcase = None) (take (S i) path) ->
  SpecificBuilder curcase = None ->
  replay path i t ps pst m = m /\ replay_calls path i = [].
Proof.
  intros Hi Hnone Hspec. unfold replay, replay_calls. rewrite Hi, Hspec. split.
  - simpl. induction Hnone as [|tc l Htc _ IH]; [done|]. simpl. by rewrite Htc.
  - rewrite app_nil_r.
    rewrite filter_none; [done|].
    intros j Hj. apply elem_of_seq in Hj.
    rewrite (has_StateBuilder_take path i j) by lia.
    rewrite list_lookup_fmap. destruct (take (S i) path !! j) as [tc|] eqn:Hj'; [|done].
    rewrite Forall_forall in Hnone. simpl.
    rewrite (Hnone tc) by (by eapply list_elem_of_lookup_2). done.
Qed.

End BuildFrame.

(** X17: the build function of position [i] depends on nothing but the
    cumulative setups of positions 0 to [i], the one-shot setup of position
    [i] and its assertion: two paths that agree on these give the same result,
    whatever the names, the one-shot setups of the other positions and the
    test cases after position [i]. *)
Theorem build_depends_on_the_setups_up_to_its_position {SUT STATE ASSERT T : Type}
    `{!GoZero SUT, !GoZero STATE, !GoZero ASSERT}
    (path1 path2 : list (TestCase SUT STATE ASSERT T)) (i : nat) c1 c2
    (t : T) (s : Machine SUT STATE) :
  path1 !! i = Some c1 ->
  path2 !! i = Some c2 ->
  StateBuilder <$> take (S i) path1 = StateBuilder <$> take (S i) path2 ->
  SpecificBuilder c1 = SpecificBuilder c2 ->
  Assertion c1 = Assertion c2 ->
  build (mkBuildFunc path1 i c1) t s = build (mkBuildFunc path2 i c2) t s.
Proof.
  intros H1 H2 Hstate Hspec Hassert.
  rewrite (build_spec path1 i c1 t s H1), (build_spec path2 i c2 t s H2).
  destruct (replay_ext path1 path2 i c1 c2 t (length (sutCells (mem s)))
              (length (stateCells (mem s)))
              {| sutCells := sutCells (mem s) ++ [zero_value];
                 stateCells := stateCells (mem s) ++ [zero_value] |}
              H1 H2 Hstate Hspec) as [Hm Hc].
  simpl. by rewrite Hm, Hc, Hassert.
Qed.

Lemma build_depends_on_the_setups_up_to_its_position_witness :
  build (mkBuildFunc (TestCases Scenario.abcd_test_set) 1 (Scenario.abcd_case "2" "b"))
        tt Scenario.empty_machine
  = build (mkBuildFunc [ {| TestName := "x"; StateBuilder := Some (Scenario.append_sut "a");
                            SpecificBuilder := Some (Scenario.set_sut "-");
                            Assertion := tt |};
                         Scenario.abcd_case "y" "b" ] 1 (Scenario.abcd_case "y" "b"))
          tt Scenario.empty_machine.
Proof.
  by apply build_depends_on_the_setups_up_to_its_position.
Defined.

(** X18: when no test case up to position [i] has a cumulative setup and
    position [i] has no one-shot setup, the build function calls nothing and
    returns the zero values with the assertion of position [i]. *)
Theorem build_without_setups_returns_zero_values {SUT STATE ASSERT T : Type}
    `{!GoZero SUT, !GoZero STATE, !GoZero ASSERT}
    (path : list (TestCase SUT STATE ASSERT T)) (i : nat) curcase
    (t : T) (s : Machine SUT STATE) :
  path !! i = Some curcase ->
  Forall (fun testcase => StateBuilder testcase = None) (take (S i) path) ->
  SpecificBuilder curcase = None ->
  (build (mkBuildFunc path i curcase) t s).1
  = {| Sut := zero_value; State := zero_value; Assert := Assertion curcase |} /\
  calls (build (mkBuildFunc path i curcase) t s).2 = calls s.
Proof.
  intros Hi Hnone Hspec. rewrite (build_spec path i curcase t s Hi).
  destruct (replay_no_setups path i curcase t (length (sutCells (mem s)))
              (length (stateCells (mem s)))
              {| sutCells := sutCells (mem s) ++ [zero_value];
                 stateCells := stateCells (mem s) ++ [zero_value] |}
              Hi Hnone Hspec) as [Hm Hc].
  simpl. rewrite Hm, Hc, app_nil_r. unfold read_sut, read_state. simpl.
  rewrite !lookup_app_r, !Nat.sub_diag by lia. done.
Qed.

Lemma build_without_setups_returns_zero_values_witness :
  (build (mkBuildFunc [@new_TestCase string Z unit unit _ "test1"; new_TestCase "test2"] 1
                      (new_TestCase "test2")) tt Scenario.empty_machine).1
  = {| Sut := ""; State := 0; Assert := tt |}.
Proof.
  refine (proj1 (build_without_setups_returns_zero_values
                   [@new_TestCase string Z unit unit _ "test1"; new_TestCase "test2"] 1
                   (new_TestCase "test2") tt Scenario.empty_machine _ _ _)).
  - reflexivity.
  - by repeat constructor.
  - reflexivity.
Defined.

(** ** Two calls of a build function *)

Section TwoCalls.

Context {SUT STATE ASSERT T : Type}.
Context `{!GoZero SUT, !GoZero STATE, !GoZero ASSERT}.

Lemma build_take (path : list (TestCase SUT STATE ASSERT T)) (i : nat) curcase
    (t : T) (s : Machine SUT STATE) :
  path !! i = Some curcase ->
  build (mkBuildFunc path i curcase) t s
  = build (mkBuildFunc (take (S i) path) i curcase) t s.
Proof.
  intros Hi.
  assert (Hi' : take (S i) path !! i = Some curcase)
    by (rewrite lookup_take_lt by lia; done).
  rewrite (build_spec path i curcase t s Hi),
          (build_spec (take (S i) path) i curcase t s Hi').
  destruct (replay_ext path (take (S i) path) i curcase curcase t
              (length (sutCells (mem s))) (length (stateCells (mem s)))
              {| sutCells := sutCells (mem s) ++ [zero_value];
                 stateCells := stateCells (mem s) ++ [zero_value] |}
              Hi Hi') as [Hm Hc]; [|done|].
  { by rewrite take_take, Nat.min_id. }
  simpl. by rewrite Hm, Hc.
Qed.



End TwoCalls.




(** X21: a build function of [Tests] is a closure over pointers, and a
    call of it is [build] on the test cases its pointers point to in the
    builder as it is at the call.  Ranging over [Tests] gives, in the builder
    it ranges over, the same names and at every position the closure whose
    pointers point to the test cases of the corresponding pair of the
    iterator on test cases, and it panics or runs out of fuel when that one
    does.  In every builder the API makes of this one afterwards the pointers
    of an emitted closure still point to test cases, and calling the closure
    there is [build] on these. *)
Theorem build_functions_follow_their_pointers {SUT STATE ASSERT T : Type}
    `{!GoZero SUT, !GoZero STATE, !GoZero ASSERT}
    (ts : TestsBuilder SUT STATE ASSERT T) (fuel : nat) :
  (forall emitted,
      Tests fuel ts collect [] = Done emitted ->
      exists cemitted,
        Closure.Tests fuel ts Closure.collect [] = Done cemitted /\
        cemitted.*1 = emitted.*1 /\
        forall (k : nat) name (b : BuildFunc SUT STATE ASSERT T),
          emitted !! k = Some (name, b) ->
          exists c : Closure.BuildFunc,
            cemitted !! k = Some (name, c) /\
            Closure.captured_i c = captured_i b /\
            Closure.captured_testCases c !! captured_i b
            = Some (Closure.captured_curcase c) /\
            Forall2 (fun p testcase => deref ts p = Some testcase)
                    (Closure.captured_testCases c) (captured_testCases b) /\
            deref ts (Closure.captured_curcase c) = Some (captured_curcase b) /\
            forall (t : T) (s : Machine SUT STATE),
              Closure.build ts c t s = Done (build b t s)) /\
  (forall msg,
      Tests fuel ts collect [] = Panic msg ->
      Closure.Tests fuel ts Closure.collect [] = Panic msg) /\
  (Tests fuel ts collect [] = OutOfFuel ->
   Closure.Tests fuel ts Closure.collect [] = OutOfFuel) /\
  (forall (ts' : TestsBuilder SUT STATE ASSERT T) cemitted (k : nat) name
          (c : Closure.BuildFunc),
      Closure.Tests fuel ts Closure.collect [] = Done cemitted ->
      cemitted !! k = Some (name, c) ->
      Closure.later ts ts' ->
      exists path curcase,
        Forall2 (fun p testcase => deref ts' p = Some testcase)
                (Closure.captured_testCases c) path /\
        path !! Closure.captured_i c = Some curcase /\
        forall (t : T) (s : Machine SUT STATE),
          Closure.build ts' c t s
          = Done (build (mkBuildFunc path (Closure.captured_i c) curcase) t s)).
Proof.
  pose proof (Closure_Tests_alike ts fuel) as Halike.
  split; [|split; [|split]].
  - intros emitted Htests. rewrite Htests in Halike.
    destruct (Closure.Tests fuel ts Closure.collect []) as [cemitted| |];
      simpl in Halike; try done.
    exists cemitted. split; [done|]. split.
    + clear Htests.
      induction Halike as [|c p cemitted emitted [Hname _] _ IH]; [done|].
      rewrite !fmap_cons. by f_equal.
    + intros k name b Hk.
      destruct (Forall2_lookup_r _ _ _ _ _ Halike Hk)
        as ([cname c] & Hc & Hname & (Hpath & Hi & Hcur & Hwf) & _).
      simpl in *. subst cname. exists c. split; [done|]. split; [done|].
      split; [by rewrite <- Hi|]. split; [done|]. split; [done|].
      intros t s. by apply Closure_build_resolved.
  - intros msg Htests. rewrite Htests in Halike.
    destruct (Closure.Tests fuel ts Closure.collect []); simpl in Halike; try done.
    by subst.
  - intros Htests. rewrite Htests in Halike.
    by destruct (Closure.Tests fuel ts Closure.collect []).
  - intros ts' cemitted k name c Htests Hk Hlater.
    destruct (emitted_closure_resolves ts ts' fuel cemitted k name c Htests Hk Hlater)
      as (path & curcase & Hpath & Hi & Hres).
    exists path, curcase. split; [done|]. split; [done|].
    intros t s. by apply Closure_build_resolved.
Qed.

Lemma build_functions_follow_their_pointers_witness :
  exists path curcase,
    Forall2 (fun p testcase => deref Scenario.abcd_restarted p = Some testcase)
            [(0, 0); (1, 0); (2, 0); (3, 0)]%nat path /\
    path !! 2%nat = Some curcase /\
    (forall (t : unit) (s : Machine string Z),
        Closure.build Scenario.abcd_restarted
          (Closure.mkBuildFunc [(0, 0); (1, 0); (2, 0); (3, 0)]%nat 2 (2, 0)%nat) t s
        = Done (build (mkBuildFunc path 2 curcase) t s)) /\
    Sut (build (mkBuildFunc path 2 curcase) tt Scenario.empty_machine).1 = "zbc".
Proof.
  assert (H1 : exists cemitted,
             Closure.Tests 1 Scenario.abcd Closure.collect [] = Done cemitted /\
             cemitted !! 2%nat
             = Some ("3", Closure.mkBuildFunc [(0, 0); (1, 0); (2, 0); (3, 0)]%nat 2
                                              (2, 0)%nat)).
  { eexists. split; [vm_compute; reflexivity|reflexivity]. }
  destruct H1 as (cemitted & H1 & H2).
  destruct (proj2 (proj2 (proj2 (build_functions_follow_their_pointers Scenario.abcd 1)))
              Scenario.abcd_restarted cemitted 2%nat _ _ H1 H2)
    as (path & curcase & Hpath & Hi & Hbuild).
  { apply Closure.later_WithStateBuilder, Closure.later_now. }
  exists path, curcase. split; [done|]. split; [done|]. split; [done|].
  assert (Hc : exists data s',
             Closure.build Scenario.abcd_restarted
               (Closure.mkBuildFunc [(0, 0); (1, 0); (2, 0); (3, 0)]%nat 2 (2, 0)%nat)
               tt Scenario.empty_machine = Done (data, s') /\
             Sut data = "zbc").
  { eexists _, _. split; [vm_compute; reflexivity|reflexivity]. }
  destruct Hc as (data & s' & Hc & Hsut).
  rewrite (Hbuild tt Scenario.empty_machine) in Hc.
  apply (f_equal (fun o => match o with Done r => Sut r.1 | _ => "" end)) in Hc.
  exact (eq_trans Hc Hsut).
Defined.

(** ** The builder without alternatives and sets of one alternative *)

Section FlatBuild.

Context {SUT STATE ASSERT T : Type}.
Context `{!GoZero SUT, !GoZero STATE, !GoZero ASSERT}.

Lemma Flat_invoke_sim (f : option (Hook SUT STATE T)) c (t : T) (ps pst : nat)
    (s : Machine SUT STATE) (sf : Flat.Machine SUT STATE) :
  Flat.mem sf = mem s ->
  exists new,
    calls (invoke f c t ps pst s) = calls s ++ new /\
    Flat.events (Flat.invoke f c t ps pst sf)
    = Flat.events sf ++ (Flat.SetupCall <$> new) /\
    Flat.mem (Flat.invoke f c t ps pst sf) = mem (invoke f c t ps pst s).
Proof.
  intros Hm. destruct f as [f|]; simpl.
  - exists [c]. by rewrite Hm.
  - exists []. by rewrite !app_nil_r.
Qed.

Lemma Flat_build_loop_sim (i : nat) (t : T) (ps pst : nat) :
  forall (rest : list (TestCase SUT STATE ASSERT T)) (j : nat)
         (s : Machine SUT STATE) (sf : Flat.Machine SUT STATE),
    Flat.mem sf = mem s ->
    exists new,
      calls (build_loop i t ps pst j rest s) = calls s ++ new /\
      Flat.events (Flat.build_loop i t ps pst j rest sf)
      = Flat.events sf ++ (Flat.SetupCall <$> new) /\
      Flat.mem (Flat.build_loop i t ps pst j rest sf)
      = mem (build_loop i t ps pst j rest s).
Proof.
  induction rest as [|tc rest IH]; intros j s sf Hm.
  - exists []. simpl. by rewrite !app_nil_r.
  - simpl.
    destruct (Flat_invoke_sim (StateBuilder tc) (StateBuilderCall j) t ps pst s sf Hm)
      as (new1 & Hc1 & He1 & Hm1).
    destruct (j <? i)%nat.
    + destruct (IH (S j) _ _ Hm1) as (new2 & Hc2 & He2 & Hm2).
      exists (new1 ++ new2). by rewrite Hc2, He2, Hc1, He1, Hm2, fmap_app, !app_assoc.
    + destruct (Flat_invoke_sim (SpecificBuilder tc) (SpecificBuilderCall j) t ps pst
                  _ _ Hm1) as (new2 & Hc2 & He2 & Hm2).
      exists (new1 ++ new2). by rewrite Hc2, He2, Hc1, He1, Hm2, fmap_app, !app_assoc.
Qed.

Lemma Flat_Tests_loop_collect :
  forall (rest : list (TestCase SUT STATE ASSERT T)) (i : nat)
         (seen : list (string * Flat.BuildFunc)),
    Flat.Tests_loop i rest Flat.collect seen
    = (true,
       seen ++ imap (fun k tc => (TestName tc, Flat.mkBuildFunc (i + k) (i + k))) rest).
Proof.
  induction rest as [|curcase rest IH]; intros i seen.
  - simpl. by rewrite app_nil_r.
  - simpl. rewrite IH, <- app_assoc. simpl. rewrite Nat.add_0_r.
    do 3 f_equal. apply imap_ext. intros k tc _. simpl. do 2 f_equal; lia.
Qed.

Lemma pointers_one_alternative_each (l : list (TestCase SUT STATE ASSERT T)) :
  forall (ptrs : list handle) (path : list (TestCase SUT STATE ASSERT T)),
    Forall2 (Closure.points_to (one_alternative_each l)) ptrs path ->
    ptrs = (fun j => (j, 0%nat)) <$> ptrs.*1.
Proof.
  induction 1 as [|p tc ptrs path Hp _ IH]; [done|].
  rewrite !fmap_cons. f_equal; [|done].
  unfold Closure.points_to, deref, one_alternative_each in Hp. simpl in Hp.
  rewrite list_lookup_fmap in Hp.
  destruct (l !! p.1) as [x|]; simpl in Hp; [|done].
  destruct p as [a [|b]]; [done|]. simpl in Hp. by rewrite lookup_nil in Hp.
Qed.

Lemma one_alternative_each_points_to (l : list (TestCase SUT STATE ASSERT T)) (n : nat) :
  (n <= length l)%nat ->
  Forall2 (Closure.points_to (one_alternative_each l))
          ((fun j => (j, 0%nat)) <$> seq 0 n) (take n l).
Proof.
  intros Hn. apply Forall2_same_length_lookup_2.
  - rewrite length_fmap, length_seq, length_take. lia.
  - intros i p tc Hp Htc. rewrite list_lookup_fmap in Hp.
    apply lookup_take_Some in Htc as [Htc Hi].
    rewrite lookup_seq_lt in Hp by done. simpl in Hp. injection Hp as <-.
    unfold Closure.points_to, deref, one_alternative_each. simpl.
    by rewrite list_lookup_fmap, Htc.
Qed.

Lemma Closure_Tests_one_alternative_each (l : list (TestCase SUT STATE ASSERT T))
    (fuel : nat) :
  Closure.Tests (S fuel) (one_alternative_each l) Closure.collect []
  = Done (imap (fun k tc =>
                  (TestName tc,
                   Closure.mkBuildFunc ((fun j => (j, 0%nat)) <$> seq 0 (length l))
                                       k (k, 0%nat))) l).
Proof.
  pose proof (Closure_Tests_alike (one_alternative_each l) (S fuel)) as Halike.
  assert (Htests : Tests (S fuel) (one_alternative_each l) collect []
                   = Done (pairs_of {| TestCases := l; TestSetName := "" |})).
  { apply Tests_collect. eexists. split; [apply GenerateTestSets_one_alternative_each|].
    simpl. by rewrite app_nil_r. }
  rewrite Htests in Halike.
  destruct (Closure.Tests (S fuel) (one_alternative_each l) Closure.collect [])
    as [emitted| |]; simpl in Halike; try done.
  f_equal. apply list_eq. intros k. rewrite list_lookup_imap.
  destruct (emitted !! k) as [[name c]|] eqn:Hk.
  - destruct (Forall2_lookup_l _ _ _ _ _ Halike Hk) as ([name' b] & Hb & Hname & Hres & Hseq).
    apply pairs_of_lookup in Hb as (tc & Hl & -> & ->). simpl in Hl, Hname, Hres, Hseq.
    rewrite Hl. simpl. destruct Hres as (Hpath & Hi & Hcur & Hwf).
    destruct c as [ptrs i cur]. simpl in *. subst i name.
    pose proof (pointers_one_alternative_each l ptrs l Hpath) as Hptrs.
    unfold one_per_set in Hseq. simpl in Hseq. rewrite length_fmap in Hseq.
    rewrite Hseq in Hptrs. subst ptrs.
    rewrite list_lookup_fmap, lookup_seq_lt in Hwf by (by eapply lookup_lt_Some).
    simpl in Hwf. by injection Hwf as <-.
  - apply Forall2_length in Halike. rewrite length_pairs_of in Halike. simpl in Halike.
    apply lookup_ge_None in Hk. rewrite (proj2 (lookup_ge_None l k)) by lia. done.
Qed.

Lemma Flat_build_Closure_build (l : list (TestCase SUT STATE ASSERT T)) (n i : nat)
    (t : T) (m : Memory SUT STATE) (evs : list Flat.event) (cs : list call) :
  (n <= length l)%nat -> (i < n)%nat ->
  exists (data : TestData SUT STATE ASSERT) (m' : Memory SUT STATE),
    Flat.build {| Flat.TestCases := l |} (Flat.mkBuildFunc i i) t
      {| Flat.mem := m; Flat.events := evs |}
    = Done (data,
            {| Flat.mem := m';
               Flat.events := evs ++ Flat.HelperCall
                                  :: (Flat.SetupCall <$> replay_calls l i) |}) /\
    Closure.build (one_alternative_each l)
      (Closure.mkBuildFunc ((fun j => (j, 0%nat)) <$> seq 0 n) i (i, 0%nat)) t
      {| mem := m; calls := cs |}
    = Done (data, {| mem := m'; calls := cs ++ replay_calls l i |}).
Proof.
  intros Hn Hi.
  destruct (lookup_lt_is_Some_2 l i) as [curcase Hcur]; [lia|].
  assert (Hres : resolves (one_alternative_each l)
                   (Closure.mkBuildFunc ((fun j => (j, 0%nat)) <$> seq 0 n) i (i, 0%nat))
                   (mkBuildFunc (take n l) i curcase)).
  { split; [by apply one_alternative_each_points_to|]. split; [done|]. split.
    - unfold Closure.points_to, deref, one_alternative_each. simpl.
      by rewrite list_lookup_fmap, Hcur.
    - simpl. by rewrite list_lookup_fmap, lookup_seq_lt. }
  rewrite (Closure_build_resolved _ _ _ t _ Hres).
  assert (Hcur' : take n l !! i = Some curcase) by (by rewrite lookup_take_lt).
  rewrite (build_take (take n l) i curcase t _ Hcur'), take_take.
  replace (S i `min` n)%nat with (S i) by lia.
  rewrite <- (build_take l i curcase t _ Hcur).
  pose proof (build_spec l i curcase t {| mem := m; calls := cs |} Hcur) as Hspec.
  simpl in Hspec. rewrite Hspec.
  eexists _, _. split; [|reflexivity].
  unfold build, alloc_sut, alloc_state in Hspec. simpl in Hspec.
  injection Hspec as Hsut Hstate Hs.
  unfold Flat.build, alloc_sut, alloc_state. simpl. rewrite Hcur.
  match goal with
  | |- context [Flat.build_loop i t ?ps ?pst 0 l ?sf] =>
      destruct (Flat_build_loop_sim i t ps pst l 0
                  {| mem := {| sutCells := sutCells m ++ [zero_value];
                               stateCells := stateCells m ++ [zero_value] |};
                     calls := cs |} sf eq_refl) as (new & Hc & He & Hm);
      destruct (Flat.build_loop i t ps pst 0 l sf) as [mf ef]
  end.
  simpl in *. rewrite Hs in Hc, Hm. simpl in Hc, Hm.
  apply app_inv_head in Hc. subst new mf ef.
  rewrite <- app_assoc. done.
Qed.

Lemma one_alternative_each_update (l : list (TestCase SUT STATE ASSERT T)) (h : nat) g :
  update (one_alternative_each l) (h, 0%nat) g = one_alternative_each (alter g h l).
Proof.
  unfold update, one_alternative_each. simpl. f_equal. symmetry.
  apply list_fmap_alter. by apply Forall_true.
Qed.

Lemma Flat_later_in_step (fts fts' : Flat.TestsBuilder SUT STATE ASSERT T) :
  Flat.later fts fts' ->
  Closure.later (one_alternative_each (Flat.TestCases fts))
                (one_alternative_each (Flat.TestCases fts')) /\
  (length (Flat.TestCases fts) <= length (Flat.TestCases fts'))%nat.
Proof.
  induction 1 as [|name ts' _ [IH Hlen]|h f ts' _ [IH Hlen]|h f ts' _ [IH Hlen]
                  |h f ts' _ [IH Hlen]].
  - split; [constructor|done].
  - split.
    + replace (one_alternative_each (Flat.TestCases (Flat.Register name ts').2))
        with (Register name (one_alternative_each (Flat.TestCases ts'))).2;
        [by constructor|].
      unfold Register, Flat.Register, one_alternative_each. simpl. by rewrite fmap_app.
    + simpl. rewrite length_app. simpl. lia.
  - split.
    + simpl. rewrite <- one_alternative_each_update.
      by apply (Closure.later_WithStateBuilder _ (h, 0%nat) f).
    + simpl. by rewrite length_alter.
  - split.
    + simpl. rewrite <- one_alternative_each_update.
      by apply (Closure.later_WithSpecificBuilder _ (h, 0%nat) f).
    + simpl. by rewrite length_alter.
  - split.
    + simpl. rewrite <- one_alternative_each_update.
      by apply (Closure.later_WithAssertion _ (h, 0%nat) f).
    + simpl. by rewrite length_alter.
Qed.

End FlatBuild.

(** X14: the builder with alternatives, given one alternative per set,
    behaves as the builder without alternatives that holds the same test
    cases.  [Tests] emits the registered names in the same order in both.
    Whatever is registered or replaced afterwards in the flat builder can be
    done to the other one, and then the build functions emitted at the same
    position, called in the two builders as they have become, return the same
    data and leave the same memory; the flat build function calls
    [t.Helper()] first, and both then make the setup calls of positions 0 to
    [i].  [Register] and the three mutators keep the two builders in step. *)
Theorem sets_of_one_alternative_are_the_flat_builder {SUT STATE ASSERT T : Type}
    `{!GoZero SUT, !GoZero STATE, !GoZero ASSERT}
    (fts : Flat.TestsBuilder SUT STATE ASSERT T) (fuel : nat) :
  let ts := one_alternative_each (Flat.TestCases fts) in
  let n := length (Flat.TestCases fts) in
  let path := (fun j => (j, 0%nat)) <$> seq 0 n in
  Flat.Tests fts Flat.collect []
  = imap (fun k tc => (TestName tc, Flat.mkBuildFunc k k)) (Flat.TestCases fts) /\
  Closure.Tests (S fuel) ts Closure.collect []
  = Done (imap (fun k tc => (TestName tc, Closure.mkBuildFunc path k (k, 0%nat)))
               (Flat.TestCases fts)) /\
  (forall fts' : Flat.TestsBuilder SUT STATE ASSERT T,
      Flat.later fts fts' ->
      let ts' := one_alternative_each (Flat.TestCases fts') in
      Closure.later ts ts' /\
      forall (i : nat) (t : T) (m : Memory SUT STATE) evs cs,
        (i < n)%nat ->
        exists (data : TestData SUT STATE ASSERT) (m' : Memory SUT STATE),
          Flat.build fts' (Flat.mkBuildFunc i i) t {| Flat.mem := m; Flat.events := evs |}
          = Done (data,
                  {| Flat.mem := m';
                     Flat.events :=
                       evs ++ Flat.HelperCall
                           :: (Flat.SetupCall <$> replay_calls (Flat.TestCases fts') i) |}) /\
          Closure.build ts' (Closure.mkBuildFunc path i (i, 0%nat)) t
            {| mem := m; calls := cs |}
          = Done (data,
                  {| mem := m'; calls := cs ++ replay_calls (Flat.TestCases fts') i |})) /\
  (forall name,
      Register name ts
      = (((Flat.Register name fts).1, 0%nat),
         one_alternative_each (Flat.TestCases (Flat.Register name fts).2)) /\
      Flat.TestCases (Flat.Register name fts).2
      = Flat.TestCases fts
        ++ [{| TestName := name; StateBuilder := None; SpecificBuilder := None;
               Assertion := zero_value |}]) /\
  (forall h f,
      WithStateBuilder (h, 0%nat) f ts
      = ((h, 0%nat), one_alternative_each (Flat.TestCases (Flat.WithStateBuilder h f fts).2)) /\
      WithSpecificBuilder (h, 0%nat) f ts
      = ((h, 0%nat),
         one_alternative_each (Flat.TestCases (Flat.WithSpecificBuilder h f fts).2))) /\
  (forall h f,
      WithAssertion (h, 0%nat) f ts
      = ((h, 0%nat), one_alternative_each (Flat.TestCases (Flat.WithAssertion h f fts).2))).
Proof.
  intros ts n path.
  split.
  { unfold Flat.Tests. by rewrite Flat_Tests_loop_collect. }
  split; [apply Closure_Tests_one_alternative_each|].
  split.
  { intros fts' Hlater ts'. destruct (Flat_later_in_step fts fts' Hlater) as [Hstep Hlen].
    split; [done|]. intros i t m evs cs Hi.
    destruct fts' as [l']. by apply Flat_build_Closure_build. }
  split.
  { intros name. split; [|done].
    unfold Register, Flat.Register, ts, one_alternative_each. simpl.
    by rewrite fmap_app, length_fmap. }
  split.
  - intros h f. split.
    + unfold WithStateBuilder, ts. by rewrite one_alternative_each_update.
    + unfold WithSpecificBuilder, ts. by rewrite one_alternative_each_update.
  - intros h f. unfold WithAssertion, ts. by rewrite one_alternative_each_update.
Qed.

Lemma sets_of_one_alternative_are_the_flat_builder_witness :
  (Flat.Tests FlatScenario.abcd Flat.collect []).*1 = ["1"; "2"; "3"; "4"] /\
  exists (data : TestData string Z unit) (m' : Memory string Z),
    Sut data = "zbc" /\
    Flat.build FlatScenario.abcd_restarted (Flat.mkBuildFunc 2 2) tt
      FlatScenario.empty_machine
    = Done (data,
            {| Flat.mem := m';
               Flat.events := [Flat.HelperCall;
                               Flat.SetupCall (StateBuilderCall 0);
                               Flat.SetupCall (StateBuilderCall 1);
                               Flat.SetupCall (StateBuilderCall 2)] |}) /\
    Closure.build (one_alternative_each (Flat.TestCases FlatScenario.abcd_restarted))
      (Closure.mkBuildFunc [(0, 0); (1, 0); (2, 0); (3, 0)]%nat 2 (2, 0)%nat) tt
      Scenario.empty_machine
    = Done (data,
            {| mem := m';
               calls := [StateBuilderCall 0; StateBuilderCall 1; StateBuilderCall 2] |}).
Proof.
  destruct (sets_of_one_alternative_are_the_flat_builder FlatScenario.abcd 0)
    as (Hnames & _ & Hbuild & _).
  split; [by rewrite Hnames|].
  destruct (Hbuild FlatScenario.abcd_restarted) as [_ Hcalls].
  { apply Flat.later_WithStateBuilder, Flat.later_now. }
  destruct (Hcalls 2%nat tt {| sutCells := []; stateCells := [] |} [] [])
    as (data & m' & Hflat & Hclosure); [simpl; lia|].
  exists data, m'. split; [|split; [exact Hflat|exact Hclosure]].
  vm_compute in Hflat. injection Hflat as <- _. reflexivity.
Defined.

(** ** The example controller *)

(** X19: [Handle] with an empty payload returns no user and the error
    "invalid payload", calling nothing, whatever the collaborators are, nil
    included.  With another payload and both collaborators set it always
    returns: a user exactly when no error; it calls GetUser, then SendMail,
    then StoreUser on the user GetUser gave, stops at the first call that
    gives an error and returns that error, and after three calls without
    error returns the user GetUser gave.  With a nil repository it panics;
    with a nil mailer it panics once GetUser has given no error.  On the
    mocks of TestUserController_Handle it gives the five results that test
    expects. *)
Theorem Handle_returns_a_user_or_an_error {W : Type}
    (c : Examples.UserController W) (userName payload : string) (w : W)
    (made : list Examples.call) :
  (payload = "" ->
   Examples.Handle c userName payload w made
   = Done (None, Some "invalid payload", w, made)) /\
  (payload <> "" -> Examples.Repository c = None ->
   Examples.Handle c userName payload w made
   = Panic "runtime error: invalid memory address or nil pointer dereference") /\
  (forall repository,
      payload <> "" -> Examples.Repository c = Some repository ->
      let got := Examples.GetUser repository userName w in
      (forall e, got.1.2 = Some e ->
                 Examples.Handle c userName payload w made
                 = Done (None, Some e, got.2, made ++ [Examples.GetUserCall userName])) /\
      (got.1.2 = None -> Examples.Mailer c = None ->
       Examples.Handle c userName payload w made
       = Panic "runtime error: invalid memory address or nil pointer dereference") /\
      (forall mailer,
          Examples.Mailer c = Some mailer ->
          let sent := Examples.SendMail mailer got.2 in
          let stored := Examples.StoreUser repository got.1.1 sent.2 in
          exists user err w' new,
            Examples.Handle c userName payload w made = Done (user, err, w', made ++ new) /\
            (is_Some user <-> err = None) /\
            new `prefix_of` [Examples.GetUserCall userName; Examples.SendMailCall;
                             Examples.StoreUserCall got.1.1] /\
            (got.1.2 <> None ->
             new = [Examples.GetUserCall userName] /\ err = got.1.2 /\ w' = got.2) /\
            (got.1.2 = None -> sent.1 <> None ->
             new = [Examples.GetUserCall userName; Examples.SendMailCall] /\
             err = sent.1 /\ w' = sent.2) /\
            (got.1.2 = None -> sent.1 = None ->
             new = [Examples.GetUserCall userName; Examples.SendMailCall;
                    Examples.StoreUserCall got.1.1] /\
             err = stored.1 /\ w' = stored.2 /\
             (stored.1 = None -> user = Some got.1.1)))) /\
  Examples.Handle (Examples.mkUserController (W := unit) None None) "" "" tt []
  = Done (None, Some "invalid payload", tt, []) /\
  Examples.Handle
    (Examples.mocked (Examples.mkUser "", Some Examples.AnError) None None)
    "my-user" "my-payload" tt []
  = Done (None, Some "assert.AnError general error for testing", tt,
          [Examples.GetUserCall "my-user"]) /\
  Examples.Handle
    (Examples.mocked (Examples.mkUser "my-user", None) (Some Examples.AnError) None)
    "my-user" "my-payload" tt []
  = Done (None, Some "assert.AnError general error for testing", tt,
          [Examples.GetUserCall "my-user"; Examples.SendMailCall]) /\
  Examples.Handle
    (Examples.mocked (Examples.mkUser "my-user", None) None (Some Examples.AnError))
    "my-user" "my-payload" tt []
  = Done (None, Some "assert.AnError general error for testing", tt,
          [Examples.GetUserCall "my-user"; Examples.SendMailCall;
           Examples.StoreUserCall (Examples.mkUser "my-user")]) /\
  Examples.Handle
    (Examples.mocked (Examples.mkUser "my-user", None) None None)
    "my-user" "my-payload" tt []
  = Done (Some (Examples.mkUser "my-user"), None, tt,
          [Examples.GetUserCall "my-user"; Examples.SendMailCall;
           Examples.StoreUserCall (Examples.mkUser "my-user")]).
Proof.
  split; [by intros ->|].
  split.
  { intros Hne Hrepo. unfold Examples.Handle.
    destruct (String.eqb_spec payload "") as [|_]; [done|]. by rewrite Hrepo. }
  split; [|done].
  intros repository Hne Hrepo. unfold Examples.Handle.
  destruct (String.eqb_spec payload "") as [|_]; [done|]. rewrite Hrepo.
  destruct (Examples.GetUser repository userName w) as [[u e1] w1]. simpl.
  split; [by intros e ->|].
  split; [by intros -> ->|].
  intros mailer ->.
  destruct e1 as [e1|].
  { exists None, (Some e1), w1, [Examples.GetUserCall userName].
    split; [done|]. split; [split; [by intros [? ?]|done]|].
    split; [by eexists|]. done. }
  destruct (Examples.SendMail mailer w1) as [e2 w2]. simpl.
  destruct e2 as [e2|].
  { exists None, (Some e2), w2, [Examples.GetUserCall userName; Examples.SendMailCall].
    rewrite <- app_assoc.
    split; [done|]. split; [split; [by intros [? ?]|done]|].
    split; [by eexists|]. done. }
  destruct (Examples.StoreUser repository u w2) as [e3 w3]. simpl.
  destruct e3 as [e3|].
  { exists None, (Some e3), w3,
      [Examples.GetUserCall userName; Examples.SendMailCall; Examples.StoreUserCall u].
    rewrite <- !app_assoc.
    split; [done|]. split; [split; [by intros [? ?]|done]|]. done. }
  exists (Some u), None, w3,
    [Examples.GetUserCall userName; Examples.SendMailCall; Examples.StoreUserCall u].
  rewrite <- !app_assoc.
  split; [done|]. split; [split; [done|by eexists]|]. done.
Qed.

Lemma Handle_returns_a_user_or_an_error_witness :
  exists user err w' new,
    Examples.Handle
      (Examples.mocked (Examples.mkUser "my-user", None) None (Some Examples.AnError))
      "my-user" "my-payload" tt [] = Done (user, err, w', [] ++ new) /\
    (is_Some user <-> err = None) /\
    new `prefix_of` [Examples.GetUserCall "my-user"; Examples.SendMailCall;
                     Examples.StoreUserCall (Examples.mkUser "my-user")] /\
    new = [Examples.GetUserCall "my-user"; Examples.SendMailCall;
           Examples.StoreUserCall (Examples.mkUser "my-user")] /\
    err = Some Examples.AnError /\ w' = tt.
Proof.
  destruct (proj2 (proj2 (proj1 (proj2 (proj2
              (Handle_returns_a_user_or_an_error
                 (Examples.mocked (Examples.mkUser "my-user", None) None
                                  (Some Examples.AnError))
                 "my-user" "my-payload" tt [])))
              _ ltac:(done) eq_refl)) _ eq_refl)
    as (user & err & w' & new & H1 & H2 & H3 & _ & _ & H4).
  destruct (H4 eq_refl eq_refl) as (H5 & H6 & H7 & _).
  by exists user, err, w', new.
Defined.

(** ** Radices below one *)

Lemma AddOne_scan_spec_any apre arest cur rest :
  length rest = length arest ->
  Forall (fun r => int_min < r <= int_max) arest ->
  Forall (fun c => int_min <= c) rest ->
  AddOne_scan (apre ++ arest) cur (length apre) rest =
    match lowest_free rest arest with
    | None => Done (cur, 0%nat, true)
    | Some p =>
        match rest !! p with
        | Some c => Done (<[(length apre + p)%nat := c + 1]> cur, (length apre + p)%nat, false)
        | None => Panic index_out_of_range
        end
    end.
Proof.
  revert apre arest. induction rest as [|c rest IH]; intros apre [|r arest] Hlen Hok Hlo;
    simpl in *; try done.
  apply Forall_cons in Hok as [Hr Hok]. apply Forall_cons in Hlo as [Hc Hlo].
  rewrite lookup_app_r, Nat.sub_diag by lia. simpl.
  rewrite wrap_int_id by (unfold int_min, int_max in *; lia).
  destruct (c <? r - 1) eqn:Hcr.
  - apply Z.ltb_lt in Hcr. rewrite Nat.add_0_r. simpl.
    rewrite wrap_int_id by (unfold int_min, int_max in *; lia). done.
  - specialize (IH (apre ++ [r]) arest).
    rewrite <- app_assoc, length_app in IH. simpl in IH.
    rewrite Nat.add_1_r in IH. rewrite IH by (done || lia).
    destruct (lowest_free rest arest) as [p|]; simpl; [|done].
    rewrite <- Nat.add_succ_comm. done.
Qed.

Lemma AddOne_spec_any cur alts :
  length cur = length alts ->
  Forall (fun r => int_min < r <= int_max) alts ->
  Forall (fun c => 0 <= c) cur ->
  AddOne (mkIndexCounter cur alts) =
    match lowest_free cur alts with
    | None => Done (mkIndexCounter cur alts, true)
    | Some p =>
        match cur !! p with
        | Some c => Done (mkIndexCounter (bump p c cur) alts, false)
        | None => Panic index_out_of_range
        end
    end.
Proof.
  intros Hlen Hok Hpos. unfold AddOne. simpl.
  pose proof (AddOne_scan_spec_any [] alts cur cur) as Hscan. simpl in Hscan.
  rewrite Hscan; clear Hscan; [|done|done|].
  - destruct (lowest_free cur alts) as [p|] eqn:Hp; simpl; [|done].
    destruct (lowest_free_lt _ _ _ Hp) as [Hpc _].
    destruct (cur !! p) as [c|] eqn:Hc; simpl; [|done].
    do 2 f_equal. f_equal.
    rewrite reset_prefix by (rewrite length_insert; lia).
    unfold bump. f_equal. by apply drop_insert_here.
  - eapply Forall_impl; [exact Hpos|]. intros c Hc. simpl in Hc. unfold int_min. lia.
Qed.

Lemma lowest_free_max : forall cur alts,
  Forall (fun c => 0 <= c) cur ->
  lowest_free cur (Z.max 1 <$> alts) = lowest_free cur alts.
Proof.
  induction cur as [|c cur IH]; intros [|r alts] Hpos; try done.
  apply Forall_cons in Hpos as [Hc Hpos]. rewrite fmap_cons. simpl.
  rewrite IH by done.
  destruct (c <? Z.max 1 r - 1) eqn:H1; destruct (c <? r - 1) eqn:H2; try done.
  - apply Z.ltb_lt in H1. apply Z.ltb_ge in H2. lia.
  - apply Z.ltb_ge in H1. apply Z.ltb_lt in H2. lia.
Qed.

Lemma in_range_nonneg cur alts : in_range cur alts -> Forall (fun c => 0 <= c) cur.
Proof. unfold in_range. induction 1; constructor; [lia|done]. Qed.

Lemma run_counter_max alts : forall (fuel : nat) cur,
  Forall (fun r => int_min < r <= int_max) alts ->
  in_range cur (Z.max 1 <$> alts) ->
  run_counter fuel (mkIndexCounter cur alts)
  = '(tuples, final) ← run_counter fuel (mkIndexCounter cur (Z.max 1 <$> alts));
    Done (tuples, mkIndexCounter (currIndexes final) alts).
Proof.
  intros fuel cur Hok. revert cur.
  assert (Hok' : Forall (fun r => int_min < r <= int_max) (Z.max 1 <$> alts)).
  { apply Forall_fmap. eapply Forall_impl; [exact Hok|]. intros r Hr. simpl.
    unfold int_min, int_max in *. lia. }
  induction fuel as [|fuel IH]; intros cur Hin; [done|].
  pose proof (in_range_nonneg _ _ Hin) as Hpos.
  pose proof (Forall2_length _ _ _ Hin) as Hlen.
  simpl. rewrite (AddOne_spec_any cur alts) by (by rewrite length_fmap in Hlen).
  rewrite (AddOne_spec_any cur (Z.max 1 <$> alts)) by done.
  rewrite lowest_free_max by done.
  destruct (lowest_free cur alts) as [p|] eqn:Hp; [|done].
  destruct (cur !! p) as [c|] eqn:Hc; [|done]. simpl.
  rewrite <- lowest_free_max in Hp by done.
  destruct (bump_spec _ _ _ _ Hin Hp Hc) as [Hin' _].
  rewrite (IH _ Hin').
  by destruct (run_counter fuel (mkIndexCounter (bump p c cur) (Z.max 1 <$> alts)))
    as [[rest final]| |].
Qed.

(** X20: the counter does not check its radices: a radix below one counts
    as one.  Driven from zero it visits every tuple in range of the radices
    raised to at least one, each once, and its last [AddOne] leaves it at the
    last of them. *)
Theorem counter_takes_a_radix_below_one_as_one (alts : list Z) (fuel : nat) :
  Forall (fun r => int_min < r <= int_max) alts ->
  product (Z.max 1 <$> alts) <= Z.of_nat fuel ->
  exists tuples,
    run_counter fuel (NewCurrIndexes alts)
      = Done (tuples, mkIndexCounter (Z.pred <$> (Z.max 1 <$> alts)) alts) /\
    Z.of_nat (length tuples) = product (Z.max 1 <$> alts) /\
    NoDup tuples /\
    forall t, t ∈ tuples <-> Forall2 (fun c r => 0 <= c < Z.max 1 r) t alts.
Proof.
  intros Hok Hfuel.
  assert (Hrad : radices_ok (Z.max 1 <$> alts)).
  { apply Forall_fmap. eapply Forall_impl; [exact Hok|]. intros r Hr. simpl.
    unfold int_min, int_max in *. lia. }
  destruct (run_counter_complete _ fuel Hrad Hfuel) as (tuples & Hrun & Hnd & Hmem).
  destruct (run_counter_from_zero _ fuel Hrad Hfuel) as (tuples' & Hrun' & Hlen & _).
  rewrite Hrun in Hrun'. injection Hrun' as <-.
  exists tuples. split; [|split; [done|split; [done|]]].
  - rewrite NewCurrIndexes_zero in *. rewrite length_fmap in Hrun.
    rewrite run_counter_max; [by rewrite Hrun|done|].
    pose proof (zero_in_range _ Hrad) as Hzero. by rewrite length_fmap in Hzero.
  - intros t. rewrite Hmem. unfold in_range. by rewrite Forall2_fmap_r.
Qed.

Lemma counter_takes_a_radix_below_one_as_one_witness :
  exists tuples,
    run_counter 3 (NewCurrIndexes [0; 3; -2])
      = Done (tuples, mkIndexCounter (Z.pred <$> (Z.max 1 <$> [0; 3; -2])) [0; 3; -2]) /\
    Z.of_nat (length tuples) = product (Z.max 1 <$> [0; 3; -2]).
Proof.
  destruct (counter_takes_a_radix_below_one_as_one [0; 3; -2] 3) as (tuples & H1 & H2 & _).
  - repeat constructor; unfold int_min, int_max; lia.
  - vm_compute. discriminate.
  - by exists tuples.
Defined.
